(** * A verified model of the Sudoku engine of [script.js]

    The development embeds the generator, the solution counter, the puzzle
    carver and the session handlers of [script.js] and proves the properties
    the specification states about them.

    Conventions of the embedding:
    - a board is a JavaScript array of nine row arrays; its contents are a
      [list (list Z)], rows and columns are indexed by [nat];
    - reading [board[i][j]] gives [option Z]: [None] stands for [undefined],
      which is never [===] to a number.  On a board with a missing row the
      source raises a [TypeError]; every board the program builds has nine
      rows of nine cells, and the results that depend on the shape are
      stated for such boards;
    - functions that mutate the board they receive return the new contents
      of that board next to their result (state passing);
    - where several board objects coexist (carving, the session globals) the
      objects live in a store and are named by references, so that copying
      and aliasing are explicit.  An object of the store is a board with its
      rows: every copy the source makes is [board.map(row => [...row])],
      which copies each row, so no row is ever shared between two boards;
    - [Math.random] is an oracle: a stream of draws threaded through the
      functions that shuffle. *)

From Stdlib Require Import ZArith List Lia Bool String Ascii.
From stdpp Require Import base tactics option list numbers.

Open Scope nat_scope.

(** ** Boards *)

Abbreviation Row := (list Z).
Abbreviation Board := (list (list Z)).
Abbreviation Pos := (nat * nat)%type.

(** [board[i][j]] *)
Definition cell (board : Board) (i j : nat) : option Z :=
  match board !! i with
  | Some row => row !! j
  | None => None
  end.

(** [board[i][j] = v] (inside the grid; the program never writes outside) *)
Definition setCell (board : Board) (i j : nat) (v : Z) : Board :=
  alter (fun row : list Z => <[j := v]> row) i board.

(** [x === num] for a cell read [x] and a number [num] *)
Definition strictEq (x : option Z) (num : Z) : bool :=
  bool_decide (x = Some num).

(** [board.map(row => [...row])] *)
Definition copyBoard (board : Board) : Board :=
  (fun row : list Z => row) <$> board.

(** The positions of the grid in the order of the nested loops
    [for i < 9: for j < 9]. *)
Definition allCells : list Pos :=
  i ← seq 0 9; (fun j => (i, j)) <$> seq 0 9.

(** ** The constraint checker *)

Definition isValidPlacement (board : Board) (num : Z) (pos : Pos) : bool :=
  let '(row, col) := pos in
  if existsb (fun j => strictEq (cell board row j) num && negb (col =? j))
       (seq 0 9)
  then false
  else if existsb (fun i => strictEq (cell board i col) num && negb (row =? i))
            (seq 0 9)
  then false
  else
    let boxX := col / 3 in
    let boxY := row / 3 in
    if existsb (fun i =>
          existsb (fun j =>
              strictEq (cell board i j) num
              && (negb (i =? row) || negb (j =? col)))
            (seq (boxX * 3) 3))
         (seq (boxY * 3) 3)
    then false
    else true.

Definition findEmptyCell (board : Board) : option Pos :=
  find (fun p : Pos => strictEq (cell board p.1 p.2) 0) allCells.

(** ** Well-formed boards *)

Definition board9x9 (board : Board) : Prop :=
  length board = 9 ∧ Forall (fun row : list Z => length row = 9) board.

Definition entriesInRange (board : Board) : Prop :=
  ∀ i j v, cell board i j = Some v → (0 ≤ v ≤ 9)%Z.

Definition inGrid (p : Pos) : Prop := p.1 < 9 ∧ p.2 < 9.

(** [q] lies in the row, the column or the 3x3 box of [(r, c)] *)
Definition inRowOf (r : nat) (q : Pos) : Prop := q.1 = r ∧ q.2 < 9.
Definition inColOf (c : nat) (q : Pos) : Prop := q.2 = c ∧ q.1 < 9.
Definition inBoxOf (r c : nat) (q : Pos) : Prop :=
  r / 3 * 3 ≤ q.1 ≤ r / 3 * 3 + 2 ∧ c / 3 * 3 ≤ q.2 ≤ c / 3 * 3 + 2.

Definition peer (p q : Pos) : Prop :=
  q ≠ p ∧ (inRowOf p.1 q ∨ inColOf p.2 q ∨ inBoxOf p.1 p.2 q).

(** ** Basic facts on cells *)

Lemma strictEq_true x v : strictEq x v = true ↔ x = Some v.
Proof. unfold strictEq. apply bool_decide_eq_true. Qed.

Lemma cell_lt board i j v :
  board9x9 board → cell board i j = Some v → i < 9 ∧ j < 9.
Proof.
  intros [Hl Hr] H. unfold cell in H.
  destruct (board !! i) as [row|] eqn:Hi; [|done].
  pose proof (lookup_lt_Some _ _ _ Hi) as Hi'.
  pose proof (lookup_lt_Some _ _ _ H) as Hj'.
  rewrite list.Forall_forall in Hr.
  assert (length row = 9) as Hrow.
  { apply Hr. eapply list_elem_of_lookup_2. exact Hi. }
  lia.
Qed.

Lemma cell_is_Some board i j :
  board9x9 board → i < 9 → j < 9 → is_Some (cell board i j).
Proof.
  intros [Hl Hr] Hi Hj. unfold cell.
  destruct (lookup_lt_is_Some_2 board i) as [row Hrow]; [lia|].
  rewrite Hrow. apply lookup_lt_is_Some_2.
  rewrite list.Forall_forall in Hr.
  rewrite (Hr row); [done|].
  eapply list_elem_of_lookup_2. exact Hrow.
Qed.

Lemma cell_is_Some_grid board p :
  board9x9 board → inGrid p → is_Some (cell board p.1 p.2).
Proof. intros Hb [Hi Hj]. by apply cell_is_Some. Qed.

(** ** C3: the constraint checker *)

Lemma isValidPlacement_false_peer board num r c :
  isValidPlacement board num (r, c) = false ↔
  ∃ q, peer (r, c) q ∧ cell board q.1 q.2 = Some num.
Proof.
  unfold isValidPlacement.
  match goal with
  | |- (if ?a then _ else if ?b then _ else if ?d then _ else _) = _ ↔ _ =>
      assert (a = true ↔ ∃ j, j < 9 ∧ cell board r j = Some num ∧ c ≠ j) as Ha;
      [| assert (b = true ↔ ∃ i, i < 9 ∧ cell board i c = Some num ∧ r ≠ i)
           as Hb;
         [| assert (d = true ↔
                    ∃ i j, (r / 3 * 3 ≤ i < r / 3 * 3 + 3) ∧
                           (c / 3 * 3 ≤ j < c / 3 * 3 + 3) ∧
                           cell board i j = Some num ∧ (i ≠ r ∨ j ≠ c)) as Hd;
            [| revert Ha Hb Hd; generalize a, b, d; intros x y z Ha Hb Hd ] ] ]
  end.
  - rewrite existsb_exists. apply exist_proper. intros j.
    rewrite in_seq, andb_true_iff, strictEq_true, negb_true_iff, Nat.eqb_neq.
    intuition lia.
  - rewrite existsb_exists. apply exist_proper. intros i.
    rewrite in_seq, andb_true_iff, strictEq_true, negb_true_iff, Nat.eqb_neq.
    intuition lia.
  - rewrite existsb_exists. apply exist_proper. intros i.
    rewrite existsb_exists. split.
    + intros (Hi & j & Hj & Hc). exists j. apply in_seq in Hi, Hj.
      rewrite andb_true_iff, strictEq_true, orb_true_iff in Hc.
      rewrite !negb_true_iff, !Nat.eqb_neq in Hc. intuition lia.
    + intros (j & Hi & Hj & Hv & Hne). split; [apply in_seq; lia|].
      exists j. split; [apply in_seq; lia|].
      rewrite andb_true_iff, strictEq_true, orb_true_iff.
      rewrite !negb_true_iff, !Nat.eqb_neq. done.
  - unfold peer, inRowOf, inColOf, inBoxOf; cbn [fst snd].
    destruct x, y, z.
    all: split; [try discriminate; intros _ | try done].
    all: try (destruct (proj1 Ha eq_refl) as (j & ? & ? & ?);
              exists (r, j); cbn [fst snd];
              split; [split; [congruence | left; lia] | done]).
    all: try (destruct (proj1 Hb eq_refl) as (i & ? & ? & ?);
              exists (i, c); cbn [fst snd];
              split; [split; [congruence | right; left; lia] | done]).
    + destruct (proj1 Hd eq_refl) as (i & j & ? & ? & ? & ?).
      exists (i, j). cbn [fst snd].
      split; [split; [intros [= -> ->]; lia | right; right; lia] | done].
    + intros ([i j] & [Hne Hpeer] & Hv). cbn [fst snd] in *. exfalso.
      destruct Hpeer as [[-> Hj] | [[-> Hi] | [Hi Hj]]].
      * assert (false = true) as [=]. apply Ha. exists j.
        repeat split; [done..|congruence].
      * assert (false = true) as [=]. apply Hb. exists i.
        repeat split; [done..|congruence].
      * assert (false = true) as [=]. apply Hd. exists i, j.
        repeat split; [lia..|done|].
        destruct (decide (i = r)) as [->|]; [|by left].
        right. congruence.
Qed.

(** ** Reading and writing cells *)

Lemma cell_setCell_eq board i j v :
  is_Some (cell board i j) → cell (setCell board i j v) i j = Some v.
Proof.
  unfold cell, setCell. intros [x Hx].
  rewrite list_lookup_alter_eq.
  destruct (board !! i) as [row|]; [|done]. cbn.
  apply list_lookup_insert_eq. by eapply lookup_lt_Some.
Qed.

Lemma cell_setCell_ne board i j v i' j' :
  (i, j) ≠ (i', j') → cell (setCell board i j v) i' j' = cell board i' j'.
Proof.
  unfold cell, setCell. intros Hne.
  destruct (decide (i = i')) as [->|Hi].
  - rewrite list_lookup_alter_eq.
    destruct (board !! i') as [row|]; [|done]. cbn.
    apply list_lookup_insert_ne. congruence.
  - by rewrite list_lookup_alter_ne.
Qed.

Lemma setCell_board9x9 board i j v :
  board9x9 board → board9x9 (setCell board i j v).
Proof.
  intros [Hl Hr]. unfold setCell. split.
  - by rewrite length_alter.
  - rewrite list.Forall_forall in *. intros row Hrow.
    apply list_elem_of_lookup in Hrow as [k Hk].
    destruct (decide (i = k)) as [->|Hne].
    + rewrite list_lookup_alter_eq in Hk.
      destruct (board !! k) as [row'|] eqn:Hk'; [|done].
      injection Hk as <-. rewrite length_insert. apply Hr.
      by eapply list_elem_of_lookup_2.
    + rewrite list_lookup_alter_ne in Hk by done.
      apply Hr. by eapply list_elem_of_lookup_2.
Qed.

Lemma setCell_restore board i j v x :
  cell board i j = Some x → setCell (setCell board i j v) i j x = board.
Proof.
  unfold cell, setCell. intros Hx.
  destruct (board !! i) as [row|] eqn:Hi; [|done].
  rewrite list_alter_alter_eq.
  apply list_eq. intros k.
  destruct (decide (i = k)) as [->|Hne].
  - rewrite list_lookup_alter_eq, Hi. cbn. f_equal.
    rewrite list_insert_insert_eq. by apply list_insert_id.
  - by rewrite list_lookup_alter_ne.
Qed.

Lemma copyBoard_id board : copyBoard board = board.
Proof. unfold copyBoard. apply list_fmap_id. Qed.

(** ** The grid and its units *)

Lemma elem_of_allCells p : p ∈ allCells ↔ inGrid p.
Proof.
  unfold allCells, inGrid. rewrite list_elem_of_bind. split.
  - intros (i & Hp & Hi). apply list_elem_of_fmap in Hp as (j & -> & Hj).
    apply elem_of_seq in Hi, Hj. cbn. lia.
  - intros [Hi Hj]. exists p.1. split.
    + apply list_elem_of_fmap. exists p.2. split; [by destruct p|].
      apply elem_of_seq. lia.
    + apply elem_of_seq. lia.
Qed.

Definition digits : list Z := [1; 2; 3; 4; 5; 6; 7; 8; 9]%Z.

Definition rowUnit (r : nat) : list Pos := (fun j => (r, j)) <$> seq 0 9.
Definition colUnit (c : nat) : list Pos := (fun i => (i, c)) <$> seq 0 9.
Definition boxUnit (k : nat) : list Pos :=
  i ← seq (k / 3 * 3) 3; (fun j => (i, j)) <$> seq (k mod 3 * 3) 3.

(** The 27 rows, columns and boxes of the grid. *)
Definition units : list (list Pos) :=
  (rowUnit <$> seq 0 9) ++ (colUnit <$> seq 0 9) ++ (boxUnit <$> seq 0 9).

Definition valueAt (board : Board) (p : Pos) : Z :=
  default 0%Z (cell board p.1 p.2).

(** A Solved Grid: a 9x9 board each of whose rows, columns and boxes holds
    each of 1..9 exactly once. *)
Definition SolvedGrid (G : Board) : Prop :=
  board9x9 G ∧ ∀ u, u ∈ units → (valueAt G <$> u) ≡ₚ digits.

(** The non-zero entries of a board satisfy the Sudoku constraint: no value
    other than 0 occurs at two cells of one row, column or box. *)
Definition consistent (board : Board) : Prop :=
  ∀ p q v, inGrid p → peer p q →
    cell board p.1 p.2 = Some v → cell board q.1 q.2 = Some v → v = 0%Z.

(** [S] keeps every non-zero cell of [B]. *)
Definition extends (B S : Board) : Prop :=
  ∀ i j v, cell B i j = Some v → v ≠ 0%Z → cell S i j = Some v.

(** [S] is a completion of [B] to a Solved Grid. *)
Definition completion (B S : Board) : Prop := SolvedGrid S ∧ extends B S.

Definition emptyCells (board : Board) : nat :=
  length (List.filter (fun p : Pos => strictEq (cell board p.1 p.2) 0) allCells).

(** Closed decidable facts about the fixed 9x9 grid are checked by
    evaluation. *)
Ltac by_computation := apply (bool_decide_unpack _); vm_compute; exact I.

#[local] Instance inGrid_dec p : Decision (inGrid p).
Proof. unfold inGrid. apply _. Defined.

#[local] Instance peer_dec p q : Decision (peer p q).
Proof. unfold peer, inRowOf, inColOf, inBoxOf. apply _. Defined.

Lemma units_shape :
  Forall (fun u : list Pos => NoDup u ∧ length u = 9 ∧ Forall inGrid u) units.
Proof. by_computation. Qed.

Lemma units_peer :
  Forall (fun u : list Pos =>
            Forall (fun p => Forall (fun q => q ≠ p → peer p q) u) u) units.
Proof. by_computation. Qed.

Lemma peer_units :
  Forall (fun p : Pos =>
            Forall (fun q => peer p q →
                             Exists (fun u : list Pos => p ∈ u ∧ q ∈ u) units)
              allCells) allCells.
Proof. by_computation. Qed.

Lemma rowUnit_in_units :
  Forall (fun p : Pos => Exists (fun u : list Pos => p ∈ u) units) allCells.
Proof. by_computation. Qed.

Lemma peer_inGrid p q : inGrid p → peer p q → inGrid q.
Proof.
  unfold inGrid, peer, inRowOf, inColOf, inBoxOf.
  destruct p as [r c], q as [i j]. cbn [fst snd].
  intros [Hr Hc] [_ H].
  assert (r / 3 * 3 + 2 < 9).
  { pose proof (Nat.Div0.div_lt_upper_bound r 3 3). lia. }
  assert (c / 3 * 3 + 2 < 9).
  { pose proof (Nat.Div0.div_lt_upper_bound c 3 3). lia. }
  lia.
Qed.

Lemma peer_same_unit p q :
  inGrid p → peer p q → ∃ u, u ∈ units ∧ p ∈ u ∧ q ∈ u.
Proof.
  intros Hp Hpeer.
  pose proof (peer_inGrid _ _ Hp Hpeer) as Hq.
  apply elem_of_allCells in Hp, Hq.
  pose proof peer_units as H.
  rewrite list.Forall_forall in H. specialize (H p Hp).
  rewrite list.Forall_forall in H. specialize (H q Hq Hpeer).
  apply list.Exists_exists in H as (u & Hu & Hpu & Hqu). eauto.
Qed.

Lemma unit_facts u :
  u ∈ units →
  NoDup u ∧ length u = 9 ∧ (∀ p, p ∈ u → inGrid p) ∧
  (∀ p q, p ∈ u → q ∈ u → q ≠ p → peer p q).
Proof.
  intros Hu.
  pose proof units_shape as H1. pose proof units_peer as H2.
  rewrite list.Forall_forall in H1, H2.
  destruct (H1 u Hu) as (Hnd & Hlen & Hin).
  specialize (H2 u Hu).
  split; [done|]. split; [done|]. split.
  - intros p Hp. rewrite list.Forall_forall in Hin. by apply Hin.
  - intros p q Hp Hq Hne. rewrite list.Forall_forall in H2.
    specialize (H2 p Hp). rewrite list.Forall_forall in H2. by apply H2.
Qed.

Lemma valueAt_cell board p :
  board9x9 board → inGrid p → cell board p.1 p.2 = Some (valueAt board p).
Proof.
  intros Hb [Hi Hj]. unfold valueAt.
  by destruct (cell_is_Some board p.1 p.2 Hb Hi Hj) as [v ->].
Qed.

Lemma NoDup_digits : NoDup digits.
Proof. by_computation. Qed.

Lemma elem_of_digits v : v ∈ digits ↔ (1 ≤ v ≤ 9)%Z.
Proof.
  unfold digits. rewrite !elem_of_cons, elem_of_nil. lia.
Qed.

(** In a Solved Grid two peers never hold the same value. *)
Lemma solved_peer_ne S p q v :
  SolvedGrid S → inGrid p → peer p q →
  cell S p.1 p.2 = Some v → cell S q.1 q.2 = Some v → False.
Proof.
  intros [Hb Hu] Hp Hpeer Hvp Hvq.
  destruct (peer_same_unit p q Hp Hpeer) as (u & Hin & Hpu & Hqu).
  assert (NoDup (valueAt S <$> u)) as Hnd.
  { rewrite (Hu u Hin). apply NoDup_digits. }
  destruct Hpeer as [Hne _]. apply Hne.
  apply list_elem_of_lookup in Hpu as [a Ha], Hqu as [b Hb'].
  assert (a = b) as ->.
  { eapply NoDup_lookup; [exact Hnd | |].
    - rewrite list_lookup_fmap, Ha. reflexivity.
    - rewrite list_lookup_fmap, Hb'. cbn. unfold valueAt.
      by rewrite Hvp, Hvq. }
  congruence.
Qed.

Lemma solved_cell S p :
  SolvedGrid S → inGrid p →
  ∃ v, cell S p.1 p.2 = Some v ∧ (1 ≤ v ≤ 9)%Z.
Proof.
  intros [Hb Hu] Hp. exists (valueAt S p). split; [by apply valueAt_cell|].
  pose proof rowUnit_in_units as H. rewrite list.Forall_forall in H.
  specialize (H p (proj2 (elem_of_allCells p) Hp)).
  apply list.Exists_exists in H as (u & Hin & Hpu).
  apply elem_of_digits. rewrite <- (Hu u Hin).
  by apply list_elem_of_fmap_2.
Qed.

Lemma solved_consistent S : SolvedGrid S → consistent S.
Proof.
  intros HS p q v Hp Hpeer Hvp Hvq. exfalso.
  eapply solved_peer_ne; eauto.
Qed.

Lemma solved_entriesInRange S : SolvedGrid S → entriesInRange S.
Proof.
  intros HS i j v Hv.
  destruct (cell_lt S i j v (proj1 HS) Hv) as [Hi Hj].
  destruct (solved_cell S (i, j) HS) as (w & Hw & Hr); [done|].
  cbn in Hw. assert (v = w) by congruence. lia.
Qed.

(** ** The first empty cell *)

Lemma findEmptyCell_Some board p :
  findEmptyCell board = Some p → inGrid p ∧ cell board p.1 p.2 = Some 0%Z.
Proof.
  unfold findEmptyCell. intros H. apply find_some in H as [Hin Hv].
  split; [by apply elem_of_allCells, list_elem_of_In|].
  by apply strictEq_true.
Qed.

Lemma findEmptyCell_None board :
  findEmptyCell board = None ↔ ∀ p, inGrid p → cell board p.1 p.2 ≠ Some 0%Z.
Proof.
  unfold findEmptyCell. split.
  - intros H p Hp Hv.
    apply elem_of_allCells, list_elem_of_In in Hp.
    pose proof (find_none _ _ H p Hp) as Hn. cbn beta in Hn.
    rewrite (proj2 (strictEq_true _ _) Hv) in Hn. discriminate Hn.
  - intros H. destruct (find _ allCells) as [p|] eqn:E; [|done].
    apply find_some in E as [Hin Hv]. exfalso.
    apply (H p); [by apply elem_of_allCells, list_elem_of_In|].
    by apply strictEq_true.
Qed.

(** A consistent board without empty cell and with entries in [0,9] is a
    Solved Grid. *)
Lemma solved_of_full board :
  board9x9 board → entriesInRange board → consistent board →
  findEmptyCell board = None → SolvedGrid board.
Proof.
  intros Hb Hr Hc Hfull. split; [done|]. intros u Hu.
  destruct (unit_facts u Hu) as (Hnd & Hlen & Hin & Hpeer).
  rewrite findEmptyCell_None in Hfull.
  apply submseteq_length_Permutation.
  - apply NoDup_submseteq.
    + apply NoDup_fmap_2_strong; [|done].
      intros p q Hp Hq Heq.
      destruct (decide (q = p)) as [->|Hne]; [done|]. exfalso.
      apply (Hfull p (Hin p Hp)).
      rewrite (valueAt_cell board p Hb (Hin p Hp)). f_equal.
      apply (Hc p q _ (Hin p Hp) (Hpeer p q Hp Hq Hne)).
      * by apply valueAt_cell, Hin.
      * rewrite Heq. by apply valueAt_cell, Hin.
    + intros v Hv. apply list_elem_of_fmap in Hv as (p & -> & Hp).
      apply elem_of_digits.
      pose proof (valueAt_cell board p Hb (Hin p Hp)) as Hcell.
      pose proof (Hr _ _ _ Hcell) as Hrange.
      assert (valueAt board p ≠ 0%Z).
      { intros E. apply (Hfull p (Hin p Hp)). by rewrite Hcell, E. }
      lia.
  - rewrite length_fmap, Hlen. done.
Qed.

(** ** Randomness and shuffling *)

(** The random source: the stream of the draws still to come. *)
Abbreviation Rng := (nat → nat).

(** [Math.floor(Math.random() * n)]: some index below [n]. *)
Definition randomBelow (n : nat) (g : Rng) : nat * Rng :=
  (g 0 mod n, fun k => g (S k)).

(** [[array[i], array[j]] = [array[j], array[i]]] *)
Definition swap {A} (array : list A) (i j : nat) : list A :=
  match array !! i, array !! j with
  | Some x, Some y => <[j := x]> (<[i := y]> array)
  | _, _ => array
  end.

(** The loop of [shuffle], [i] running from [n] down to 1. *)
Fixpoint shuffleFrom {A} (n : nat) (array : list A) (g : Rng) : list A * Rng :=
  match n with
  | 0 => (array, g)
  | S n' =>
      let '(j, g') := randomBelow (n + 1) g in
      shuffleFrom n' (swap array n j) g'
  end.

Definition shuffle {A} (array : list A) (g : Rng) : list A * Rng :=
  shuffleFrom (length array - 1) array g.

(** ** The solved-grid generator *)

(** The loop [for (let num of numbers)] of [generateSolvedSudokuGrid];
    [rec] is the recursive call. *)
Fixpoint tryCandidates (rec : Board → Rng → option (bool * Board * Rng))
    (row col : nat) (numbers : list Z) (board : Board) (g : Rng)
    : option (bool * Board * Rng) :=
  match numbers with
  | [] => Some (false, board, g)
  | num :: rest =>
      if isValidPlacement board num (row, col) then
        match rec (setCell board row col num) g with
        | None => None
        | Some (true, board', g') => Some (true, board', g')
        | Some (false, board', g') =>
            tryCandidates rec row col rest (setCell board' row col 0) g'
        end
      else tryCandidates rec row col rest board g
  end.

(** [generateSolvedSudokuGrid] with a bound on the recursion depth; the
    result is the returned boolean, the contents of the board afterwards and
    the random source afterwards; [None] when the bound is reached. *)
Fixpoint generateSolvedSudokuGrid_fuel (fuel : nat) (board : Board) (g : Rng)
    : option (bool * Board * Rng) :=
  match fuel with
  | 0 => None
  | S fuel' =>
      match findEmptyCell board with
      | None => Some (true, board, g)
      | Some (row, col) =>
          let '(numbers, g') := shuffle digits g in
          tryCandidates (generateSolvedSudokuGrid_fuel fuel') row col
            numbers board g'
      end
  end.

Definition generateSolvedSudokuGrid (board : Board) (g : Rng)
    : option (bool * Board * Rng) :=
  generateSolvedSudokuGrid_fuel (S (emptyCells board)) board g.

(** ** The solution counter *)

(** The loop [for (let num = 1; num <= 9; num++)] of [solve]; the state is
    the board and the counter [count] of the enclosing [countSolutions]. *)
Fixpoint solveLoop (rec : Board → nat → option (Board * nat))
    (row col : nat) (nums : list Z) (board : Board) (count : nat)
    : option (Board * nat) :=
  match nums with
  | [] => Some (board, count)
  | num :: rest =>
      if isValidPlacement board num (row, col) then
        match rec (setCell board row col num) count with
        | None => None
        | Some (board', count') =>
            if 1 <? count' then Some (board', count')
            else solveLoop rec row col rest (setCell board' row col 0) count'
        end
      else solveLoop rec row col rest board count
  end.

Fixpoint solve (fuel : nat) (board : Board) (count : nat)
    : option (Board * nat) :=
  match fuel with
  | 0 => None
  | S fuel' =>
      match findEmptyCell board with
      | None => Some (board, count + 1)
      | Some (row, col) => solveLoop (solve fuel') row col digits board count
      end
  end.

(** [countSolutions(board)]: the contents of [board] afterwards and the
    returned count. *)
Definition countSolutions (board : Board) : option (Board * nat) :=
  solve (S (emptyCells board)) board 0.

(** ** Placing a value *)

Definition wfBoard (board : Board) : Prop :=
  board9x9 board ∧ entriesInRange board ∧ consistent board.

Lemma peer_sym_grid :
  Forall (fun p : Pos => Forall (fun q => peer p q → peer q p) allCells)
    allCells.
Proof. by_computation. Qed.

Lemma peer_sym p q : inGrid p → peer p q → peer q p.
Proof.
  intros Hp Hpeer. pose proof (peer_inGrid _ _ Hp Hpeer) as Hq.
  apply elem_of_allCells in Hp, Hq.
  pose proof peer_sym_grid as H.
  rewrite list.Forall_forall in H. specialize (H p Hp).
  rewrite list.Forall_forall in H. by apply H.
Qed.

Lemma board_ext (B S : Board) :
  board9x9 B → board9x9 S →
  (∀ i j, i < 9 → j < 9 → cell B i j = cell S i j) → B = S.
Proof.
  intros [HlB HrB] [HlS HrS] H. apply list_eq. intros i.
  destruct (decide (i < 9)) as [Hi|Hi].
  - destruct (lookup_lt_is_Some_2 B i) as [rb Hrb]; [lia|].
    destruct (lookup_lt_is_Some_2 S i) as [rs Hrs]; [lia|].
    rewrite Hrb, Hrs. f_equal.
    rewrite list.Forall_forall in HrB, HrS.
    pose proof (HrB rb (list_elem_of_lookup_2 _ _ _ Hrb)) as Lb.
    pose proof (HrS rs (list_elem_of_lookup_2 _ _ _ Hrs)) as Ls.
    apply list_eq. intros j.
    destruct (decide (j < 9)) as [Hj|Hj].
    + specialize (H i j Hi Hj). unfold cell in H. by rewrite Hrb, Hrs in H.
    + rewrite !lookup_ge_None_2; [done|lia..].
  - rewrite !lookup_ge_None_2; [done|lia..].
Qed.

Lemma wfBoard_setCell board r c num :
  wfBoard board → inGrid (r, c) → (1 ≤ num ≤ 9)%Z →
  isValidPlacement board num (r, c) = true →
  wfBoard (setCell board r c num).
Proof.
  intros (Hb & Hr & Hc) Hg Hnum Hvalid.
  split; [by apply setCell_board9x9|]. split.
  - intros i j v Hv.
    destruct (decide ((r, c) = (i, j))) as [[= <- <-]|Hne].
    + rewrite cell_setCell_eq in Hv by (by apply (cell_is_Some_grid board (r, c))).
      injection Hv as <-. lia.
    + rewrite cell_setCell_ne in Hv by done. by eapply Hr.
  - assert (∀ q, peer (r, c) q → cell board q.1 q.2 ≠ Some num) as Hfree.
    { intros q Hq Hv. apply not_false_iff_true in Hvalid. apply Hvalid.
      apply isValidPlacement_false_peer. eauto. }
    intros p q v Hp Hpeer Hvp Hvq.
    pose proof (peer_inGrid _ _ Hp Hpeer) as Hq.
    destruct (decide (v = 0%Z)) as [|Hv0]; [done|]. exfalso.
    destruct p as [pi pj], q as [qi qj]. cbn [fst snd] in *.
    destruct (decide ((r, c) = (pi, pj))) as [[= <- <-]|Hnp].
    + rewrite cell_setCell_eq in Hvp by (by apply (cell_is_Some_grid board (r, c))).
      injection Hvp as <-.
      rewrite cell_setCell_ne in Hvq by (destruct Hpeer; congruence).
      by apply (Hfree (qi, qj)).
    + rewrite cell_setCell_ne in Hvp by done.
      destruct (decide ((r, c) = (qi, qj))) as [[= <- <-]|Hnq].
      * rewrite cell_setCell_eq in Hvq by (by apply (cell_is_Some_grid board (r, c))).
        injection Hvq as <-.
        apply (Hfree (pi, pj)); [|done]. by apply peer_sym in Hpeer.
      * rewrite cell_setCell_ne in Hvq by done.
        apply Hv0. by apply (Hc (pi, pj) (qi, qj) v).
Qed.

Lemma filter_length_lt {A} (f f' : A → bool) (l : list A) x :
  (∀ y, f' y = true → f y = true) → In x l → f x = true → f' x = false →
  length (List.filter f' l) < length (List.filter f l).
Proof.
  intros Himp Hin Hfx Hf'x.
  assert (∀ k, length (List.filter f' k) ≤ length (List.filter f k)) as Hle.
  { induction k as [|y k IH]; [done|]. cbn.
    destruct (f' y) eqn:E'.
    - rewrite (Himp y E'). cbn. lia.
    - destruct (f y); cbn; lia. }
  induction l as [|y l IH]; [done|]. cbn.
  destruct Hin as [->|Hin].
  - rewrite Hfx, Hf'x. cbn. specialize (Hle l). lia.
  - specialize (IH Hin). destruct (f' y) eqn:E'.
    + rewrite (Himp y E'). cbn. lia.
    + destruct (f y); cbn; lia.
Qed.

Lemma emptyCells_setCell board r c num :
  inGrid (r, c) → cell board r c = Some 0%Z → num ≠ 0%Z →
  emptyCells (setCell board r c num) < emptyCells board.
Proof.
  intros Hg Hv Hnum. unfold emptyCells.
  apply (filter_length_lt _ _ _ (r, c)).
  - intros [i j]. cbn [fst snd]. rewrite !strictEq_true.
    destruct (decide ((r, c) = (i, j))) as [[= <- <-]|Hne].
    + rewrite cell_setCell_eq by (rewrite Hv; eauto). congruence.
    + by rewrite cell_setCell_ne.
  - by apply list_elem_of_In, elem_of_allCells.
  - by apply strictEq_true.
  - cbn [fst snd]. apply not_true_iff_false. rewrite strictEq_true.
    rewrite cell_setCell_eq by (rewrite Hv; eauto). congruence.
Qed.

(** ** Completions *)

Lemma completion_valid B S r c num :
  completion B S → inGrid (r, c) → cell S r c = Some num →
  isValidPlacement B num (r, c) = true.
Proof.
  intros [HS Hext] Hg Hv. apply not_false_iff_true. intros Hf.
  apply isValidPlacement_false_peer in Hf as (q & Hpeer & Hq).
  destruct (solved_cell S (r, c) HS Hg) as (w & Hw & Hrange).
  cbn [fst snd] in Hw. assert (w = num) as -> by congruence.
  apply (solved_peer_ne S (r, c) q num HS Hg Hpeer); [done|].
  apply Hext; [done|lia].
Qed.

Lemma completion_setCell B S r c num :
  cell B r c = Some 0%Z → num ≠ 0%Z →
  completion (setCell B r c num) S ↔ completion B S ∧ cell S r c = Some num.
Proof.
  intros H0 Hnum. unfold completion, extends. split.
  - intros [HS Hext]. split; [split; [done|]|].
    + intros i j v Hv Hv0.
      destruct (decide ((r, c) = (i, j))) as [[= <- <-]|Hne]; [congruence|].
      apply Hext; [|done]. by rewrite cell_setCell_ne.
    + apply Hext; [|done]. apply cell_setCell_eq. rewrite H0. eauto.
  - intros [[HS Hext] Hv]. split; [done|]. intros i j v Hv' Hv0.
    destruct (decide ((r, c) = (i, j))) as [[= <- <-]|Hne].
    + rewrite cell_setCell_eq in Hv' by (rewrite H0; eauto). congruence.
    + rewrite cell_setCell_ne in Hv' by done. by apply Hext.
Qed.

Lemma completion_full B S :
  board9x9 B → findEmptyCell B = None → completion B S → S = B.
Proof.
  intros Hb Hfull [HS Hext]. symmetry.
  apply board_ext; [done|apply HS|]. intros i j Hi Hj.
  destruct (cell_is_Some B i j Hb Hi Hj) as [v Hv]. rewrite Hv. symmetry.
  apply Hext; [done|]. intros ->.
  rewrite findEmptyCell_None in Hfull. by apply (Hfull (i, j)).
Qed.

Lemma extends_refl B : extends B B.
Proof. by intros i j v Hv _. Qed.

(** ** The solution counter explores every completion *)

(** [L] lists the boards that satisfy [P], each once. *)
Definition enumerates (P : Board → Prop) (L : list Board) : Prop :=
  NoDup L ∧ ∀ S, S ∈ L ↔ P S.

(** What a search started with counter [count] on board [B] returns, when
    the solutions it looks for are the boards in [P]: either it ran to its
    end, restored the board and added the number of solutions to the
    counter, or it stopped at the second solution counted, leaving the board
    filled with it. *)
Definition searchResult (P : Board → Prop) (B : Board) (count : nat)
    (res : Board * nat) : Prop :=
  (res.2 ≤ 1 ∧ res.1 = B ∧ ∃ L, enumerates P L ∧ res.2 = count + length L)
  ∨ (res.2 = 2 ∧ completion B res.1 ∧
     ∃ L, NoDup L ∧ (∀ S, S ∈ L → P S) ∧ count + length L = 2).

Lemma searchResult_equiv (P Q : Board → Prop) B count res :
  (∀ S, P S ↔ Q S) → searchResult P B count res → searchResult Q B count res.
Proof.
  intros HPQ [(H1 & H2 & L & [Hnd HL] & Hc) | (H1 & H2 & L & Hnd & HL & Hc)].
  - left. split; [done|]. split; [done|]. exists L. split; [|done].
    split; [done|]. intros S. by rewrite HL.
  - right. split; [done|]. split; [done|]. exists L. split; [done|].
    split; [|done]. intros S HS. by apply HPQ, HL.
Qed.

Section SolveLoop.
Variable rec : Board → nat → option (Board * nat).
Variable B : Board.
Variables r c : nat.
Hypothesis B_wf : wfBoard B.
Hypothesis rc_grid : inGrid (r, c).
Hypothesis rc_empty : cell B r c = Some 0%Z.
Hypothesis rec_ok : ∀ B1 c1,
  wfBoard B1 → emptyCells B1 < emptyCells B → c1 ≤ 1 →
  ∃ res, rec B1 c1 = Some res ∧ searchResult (completion B1) B1 c1 res.

Definition withCellIn (nums : list Z) (S : Board) : Prop :=
  completion B S ∧ ∃ num, num ∈ nums ∧ cell S r c = Some num.

Lemma withCellIn_cons num rest S :
  num ≠ 0%Z →
  withCellIn (num :: rest) S ↔
  completion (setCell B r c num) S ∨ withCellIn rest S.
Proof using rc_empty.
  intros Hnum. unfold withCellIn.
  rewrite (completion_setCell B S r c num rc_empty Hnum). split.
  - intros [HS (n & Hn & Hv)]. apply elem_of_cons in Hn as [->|Hn].
    + by left.
    + right. eauto.
  - intros [[HS Hv] | [HS (n & Hn & Hv)]].
    + split; [done|]. exists num. split; [apply elem_of_cons; by left|done].
    + split; [done|]. exists n. split; [apply elem_of_cons; by right|done].
Qed.

Lemma withCellIn_skip num rest S :
  isValidPlacement B num (r, c) = false →
  withCellIn (num :: rest) S ↔ withCellIn rest S.
Proof using rc_grid.
  intros Hinv. unfold withCellIn. split.
  - intros [HS (n & Hn & Hv)]. split; [done|]. exists n. split; [|done].
    apply elem_of_cons in Hn as [->|Hn]; [|done].
    rewrite (completion_valid B S r c num HS rc_grid Hv) in Hinv. done.
  - intros [HS (n & Hn & Hv)]. split; [done|]. exists n.
    split; [apply elem_of_cons; by right|done].
Qed.

Lemma withCellIn_disjoint num rest S :
  num ≠ 0%Z → num ∉ rest →
  completion (setCell B r c num) S → withCellIn rest S → False.
Proof using rc_empty.
  intros Hnum Hnotin HS [_ (n & Hn & Hv)].
  apply (completion_setCell B S r c num rc_empty Hnum) in HS as [_ Hv'].
  apply Hnotin. congruence.
Qed.

Lemma solveLoop_spec nums :
  NoDup nums → (∀ n, n ∈ nums → (1 ≤ n ≤ 9)%Z) →
  ∀ count, count ≤ 1 →
  ∃ res, solveLoop rec r c nums B count = Some res ∧
         searchResult (withCellIn nums) B count res.
Proof using All.
  induction nums as [|num rest IH]; intros Hnd Hrange count Hcount.
  - exists (B, count). split; [done|]. left. cbn.
    split; [done|]. split; [done|]. exists []. split; [|cbn; lia].
    split; [constructor|]. intros S. split; [by intros ?%elem_of_nil|].
    by intros [_ (n & ?%elem_of_nil & _)].
  - apply list.NoDup_cons in Hnd as [Hnotin Hnd].
    assert (1 ≤ num ≤ 9)%Z as Hnum by (apply Hrange, elem_of_cons; by left).
    assert (num ≠ 0%Z) as Hnum0 by lia.
    assert (∀ n, n ∈ rest → (1 ≤ n ≤ 9)%Z) as Hrange'.
    { intros n Hn. apply Hrange, elem_of_cons. by right. }
    specialize (IH Hnd Hrange'). cbn [solveLoop].
    destruct (isValidPlacement B num (r, c)) eqn:Hvalid.
    + destruct (rec_ok (setCell B r c num) count) as ([b1 c1] & -> & Hres1).
      { by apply wfBoard_setCell. }
      { by apply emptyCells_setCell. }
      { done. }
      destruct Hres1 as [(Hc1 & Hb1 & L1 & [Hnd1 HL1] & Hlen1)
                        | (Hc1 & Hb1 & L1 & Hnd1 & HL1 & Hlen1)];
        cbn [fst snd] in *.
      * assert ((1 <? c1) = false) as -> by (apply Nat.ltb_ge; lia).
        subst b1. rewrite (setCell_restore B r c num 0%Z rc_empty).
        destruct (IH c1 Hc1) as ([b2 c2] & -> & Hres2).
        exists (b2, c2). split; [done|].
        destruct Hres2 as [(Hc2 & Hb2 & L2 & [Hnd2 HL2] & Hlen2)
                          | (Hc2 & Hb2 & L2 & Hnd2 & HL2 & Hlen2)];
          cbn [fst snd] in *.
        -- left. cbn [fst snd]. split; [done|]. split; [done|].
           exists (L1 ++ L2). split; [|rewrite length_app; lia].
           split.
           ++ apply list.NoDup_app. split; [done|]. split; [|done].
              intros S HS1 HS2. apply HL1 in HS1. apply HL2 in HS2.
              by eapply withCellIn_disjoint.
           ++ intros S. rewrite elem_of_app, HL1, HL2.
              symmetry. by apply withCellIn_cons.
        -- right. cbn [fst snd]. split; [done|]. split; [done|].
           exists (L1 ++ L2). split; [|split; [|rewrite length_app; lia]].
           ++ apply list.NoDup_app. split; [done|]. split; [|done].
              intros S HS1 HS2. apply HL1 in HS1. apply HL2 in HS2.
              by eapply withCellIn_disjoint.
           ++ intros S. rewrite elem_of_app, HL1.
              intros [HS | HS]; apply withCellIn_cons; auto.
      * assert ((1 <? c1) = true) as -> by (apply Nat.ltb_lt; lia).
        exists (b1, c1). split; [done|]. right. cbn [fst snd].
        split; [done|]. split.
        { by apply (completion_setCell B b1 r c num rc_empty Hnum0) in Hb1
            as [? _]. }
        exists L1. split; [done|]. split; [|done].
        intros S HS. apply withCellIn_cons; auto.
    + destruct (IH count Hcount) as (res & -> & Hres).
      exists res. split; [done|].
      eapply searchResult_equiv; [|exact Hres].
      intros S. symmetry. by apply withCellIn_skip.
Qed.
End SolveLoop.

Lemma solve_spec fuel :
  ∀ B count, emptyCells B < fuel → wfBoard B → count ≤ 1 →
  ∃ res, solve fuel B count = Some res ∧ searchResult (completion B) B count res.
Proof.
  induction fuel as [|fuel IH]; intros B count Hfuel Hwf Hcount; [lia|].
  cbn [solve]. destruct (findEmptyCell B) as [[r c]|] eqn:Hfind.
  - apply findEmptyCell_Some in Hfind as [Hg H0]. cbn [fst snd] in H0.
    destruct (solveLoop_spec (solve fuel) B r c Hwf Hg H0) with
      (nums := digits) (count := count) as (res & Hres & Hspec).
    + intros B1 c1 Hwf1 Hlt Hc1. apply IH; [lia|done..].
    + apply NoDup_digits.
    + intros n. apply elem_of_digits.
    + done.
    + exists res. split; [done|].
      eapply searchResult_equiv; [|exact Hspec].
      intros S. unfold withCellIn. split; [tauto|].
      intros HS. split; [done|].
      destruct (solved_cell S (r, c) (proj1 HS) Hg) as (v & Hv & Hr).
      exists v. split; [by apply elem_of_digits|done].
  - exists (B, count + 1). split; [done|].
    destruct Hwf as (Hb & Hr & Hc).
    assert (completion B B) as Hself.
    { split; [by apply solved_of_full|apply extends_refl]. }
    assert (enumerates (completion B) [B]) as Henum.
    { split; [apply NoDup_singleton|]. intros S.
      rewrite list_elem_of_singleton. split; [by intros ->|].
      by apply completion_full. }
    destruct (decide (count = 0)) as [->|Hne].
    + left. cbn. split; [lia|]. split; [done|]. by exists [B].
    + right. cbn [fst snd]. split; [lia|]. split; [done|].
      exists [B]. split; [apply NoDup_singleton|].
      split; [|cbn; lia]. intros S HS. by apply Henum.
Qed.

Lemma enumerates_length (P : Board → Prop) L1 L2 :
  enumerates P L1 → enumerates P L2 → length L1 = length L2.
Proof.
  intros [Hnd1 H1] [Hnd2 H2]. apply Permutation_length.
  apply NoDup_Permutation; [done..|]. intros S. by rewrite H1, H2.
Qed.

Lemma countSolutions_result B :
  wfBoard B →
  ∃ res, countSolutions B = Some res ∧ searchResult (completion B) B 0 res.
Proof.
  intros Hwf. unfold countSolutions. apply solve_spec; [lia|done|lia].
Qed.

Lemma two_of_length_2 (P : Board → Prop) (L : list Board) :
  NoDup L → (∀ S, S ∈ L → P S) → length L = 2 →
  ∃ S1 S2, S1 ≠ S2 ∧ P S1 ∧ P S2.
Proof.
  intros Hnd HL Hlen.
  destruct L as [|S1 [|S2 [|]]]; try discriminate Hlen.
  apply list.NoDup_cons in Hnd as [Hne _].
  exists S1, S2. split; [|split].
  - intros ->. apply Hne. apply elem_of_cons. by left.
  - apply HL, elem_of_cons. by left.
  - apply HL, elem_of_cons. right. apply elem_of_cons. by left.
Qed.

(** ** Shuffling permutes *)

Lemma swap_Permutation {A} (array : list A) i j : swap array i j ≡ₚ array.
Proof.
  unfold swap.
  destruct (array !! i) as [x|] eqn:Hi; [|done].
  destruct (array !! j) as [y|] eqn:Hj; [|done].
  pose proof (lookup_lt_Some _ _ _ Hi) as Hli.
  pose proof (lookup_lt_Some _ _ _ Hj) as Hlj.
  apply Permutation_inj. split; [by rewrite !length_insert|].
  exists (fun k => if decide (k = i) then j else if decide (k = j) then i else k).
  split.
  - intros a b Hab. repeat case_decide; congruence.
  - intros k. repeat case_decide; subst.
    + destruct (decide (i = j)) as [->|Hne].
      * rewrite list_lookup_insert_eq by (by rewrite length_insert). congruence.
      * rewrite list_lookup_insert_ne by done.
        rewrite list_lookup_insert_eq by done. congruence.
    + rewrite list_lookup_insert_eq by (by rewrite length_insert). congruence.
    + by rewrite !list_lookup_insert_ne.
Qed.

Lemma shuffleFrom_Permutation {A} n :
  ∀ (array : list A) g, (shuffleFrom n array g).1 ≡ₚ array.
Proof.
  induction n as [|n IH]; intros array g; [done|].
  cbn [shuffleFrom]. destruct (randomBelow (S n + 1) g) as [j g'].
  rewrite IH. apply swap_Permutation.
Qed.

Lemma shuffle_Permutation {A} (array : list A) g :
  (shuffle array g).1 ≡ₚ array.
Proof. apply shuffleFrom_Permutation. Qed.

(** ** The generator finds a completion whenever there is one *)

(** What [generateSolvedSudokuGrid] returns on board [B], when the grids it
    looks for are the boards in [P]: [true] with the board filled to a
    completion, or [false] with the board restored and no grid in [P]. *)
Definition generateResult (P : Board → Prop) (B : Board)
    (res : bool * Board * Rng) : Prop :=
  (res.1.1 = true ∧ completion B res.1.2)
  ∨ (res.1.1 = false ∧ res.1.2 = B ∧ ∀ S, ¬ P S).

Section TryCandidates.
Variable rec : Board → Rng → option (bool * Board * Rng).
Variable B : Board.
Variables r c : nat.
Hypothesis B_wf : wfBoard B.
Hypothesis rc_grid : inGrid (r, c).
Hypothesis rc_empty : cell B r c = Some 0%Z.
Hypothesis rec_ok : ∀ B1 g1,
  wfBoard B1 → emptyCells B1 < emptyCells B →
  ∃ res, rec B1 g1 = Some res ∧ generateResult (completion B1) B1 res.

Lemma tryCandidates_spec numbers :
  (∀ n, n ∈ numbers → (1 ≤ n ≤ 9)%Z) →
  ∀ g, ∃ res, tryCandidates rec r c numbers B g = Some res ∧
              generateResult (withCellIn B r c numbers) B res.
Proof using All.
  induction numbers as [|num rest IH]; intros Hrange g.
  - exists (false, B, g). split; [done|]. right. cbn.
    split; [done|]. split; [done|].
    by intros S [_ (n & ?%elem_of_nil & _)].
  - assert (1 ≤ num ≤ 9)%Z as Hnum by (apply Hrange, elem_of_cons; by left).
    assert (num ≠ 0%Z) as Hnum0 by lia.
    assert (∀ n, n ∈ rest → (1 ≤ n ≤ 9)%Z) as Hrange'.
    { intros n Hn. apply Hrange, elem_of_cons. by right. }
    specialize (IH Hrange'). cbn [tryCandidates].
    destruct (isValidPlacement B num (r, c)) eqn:Hvalid.
    + destruct (rec_ok (setCell B r c num) g) as ([[ok1 b1] g1] & -> & Hres1).
      { by apply wfBoard_setCell. }
      { by apply emptyCells_setCell. }
      destruct Hres1 as [[Hok Hb1] | (Hok & Hb1 & Hnone)];
        cbn [fst snd] in *; subst ok1.
      * exists (true, b1, g1). split; [done|]. left. cbn [fst snd].
        split; [done|].
        by apply (completion_setCell B b1 r c num rc_empty Hnum0) in Hb1
          as [? _].
      * subst b1. rewrite (setCell_restore B r c num 0%Z rc_empty).
        destruct (IH g1) as (res & -> & Hres).
        exists res. split; [done|].
        destruct Hres as [Hres | (Hok & Hb & Hnone')]; [by left|].
        right. split; [done|]. split; [done|]. intros S HS.
        apply (withCellIn_cons B r c rc_empty num rest S Hnum0) in HS
          as [HS | HS]; [by eapply Hnone | by eapply Hnone'].
    + destruct (IH g) as (res & -> & Hres).
      exists res. split; [done|].
      destruct Hres as [Hres | (Hok & Hb & Hnone)]; [by left|].
      right. split; [done|]. split; [done|]. intros S HS.
      apply (Hnone S). by apply (withCellIn_skip B r c rc_grid num rest S).
Qed.
End TryCandidates.

Lemma generate_spec fuel :
  ∀ B g, emptyCells B < fuel → wfBoard B →
  ∃ res, generateSolvedSudokuGrid_fuel fuel B g = Some res ∧
         generateResult (completion B) B res.
Proof.
  induction fuel as [|fuel IH]; intros B g Hfuel Hwf; [lia|].
  cbn [generateSolvedSudokuGrid_fuel].
  destruct (findEmptyCell B) as [[r c]|] eqn:Hfind.
  - apply findEmptyCell_Some in Hfind as [Hg H0]. cbn [fst snd] in H0.
    pose proof (shuffle_Permutation digits g) as Hperm.
    destruct (shuffle digits g) as [numbers g']. cbn [fst] in Hperm.
    destruct (tryCandidates_spec (generateSolvedSudokuGrid_fuel fuel)
                B r c Hwf Hg H0) with (numbers := numbers) (g := g')
      as (res & Hres & Hspec).
    + intros B1 g1 Hwf1 Hlt. apply IH; [lia|done].
    + intros n Hn. apply elem_of_digits. by rewrite <- Hperm.
    + exists res. split; [done|].
      destruct Hspec as [Hspec | (Hok & Hb & Hnone)]; [by left|].
      right. split; [done|]. split; [done|]. intros S HS.
      apply (Hnone S). split; [done|].
      destruct (solved_cell S (r, c) (proj1 HS) Hg) as (v & Hv & Hr).
      exists v. split; [|done]. rewrite Hperm. by apply elem_of_digits.
  - exists (true, B, g). split; [done|]. left. cbn.
    destruct Hwf as (Hb & Hr & Hc).
    split; [done|]. split; [by apply solved_of_full|apply extends_refl].
Qed.

(** ** Deciding the board predicates *)

Lemma entriesInRange_Forall (B : Board) :
  entriesInRange B ↔ Forall (Forall (fun v => (0 ≤ v ≤ 9)%Z)) B.
Proof.
  unfold entriesInRange, cell. split.
  - intros H. apply list.Forall_forall. intros row Hrow.
    apply list.Forall_forall. intros v Hv.
    apply list_elem_of_lookup in Hrow as [i Hi], Hv as [j Hj].
    apply (H i j). by rewrite Hi.
  - intros H i j v Hv.
    destruct (B !! i) as [row|] eqn:Hi; [|done].
    rewrite list.Forall_forall in H.
    specialize (H row (list_elem_of_lookup_2 _ _ _ Hi)).
    rewrite list.Forall_forall in H.
    apply H. by eapply list_elem_of_lookup_2.
Qed.

Lemma consistent_Forall (B : Board) :
  consistent B ↔
  Forall (fun p : Pos =>
    Forall (fun q : Pos =>
      peer p q → cell B p.1 p.2 = cell B q.1 q.2 →
      cell B p.1 p.2 = Some 0%Z ∨ cell B p.1 p.2 = None) allCells) allCells.
Proof.
  unfold consistent. split.
  - intros H. apply list.Forall_forall. intros p Hp.
    apply list.Forall_forall. intros q Hq Hpeer Heq.
    destruct (cell B p.1 p.2) as [v|] eqn:Hv; [left|by right].
    f_equal. apply (H p q v); [by apply elem_of_allCells|done..].
  - intros H p q v Hp Hpeer Hvp Hvq.
    pose proof (peer_inGrid _ _ Hp Hpeer) as Hq.
    apply elem_of_allCells in Hp, Hq.
    rewrite list.Forall_forall in H. specialize (H p Hp).
    rewrite list.Forall_forall in H. specialize (H q Hq Hpeer).
    destruct H as [H|H]; congruence.
Qed.

Lemma SolvedGrid_Forall (G : Board) :
  SolvedGrid G ↔
  board9x9 G ∧ Forall (fun u : list Pos => (valueAt G <$> u) ≡ₚ digits) units.
Proof. unfold SolvedGrid. by rewrite list.Forall_forall. Qed.

#[local] Instance board9x9_dec (B : Board) : Decision (board9x9 B).
Proof. unfold board9x9. apply _. Defined.

#[local] Instance entriesInRange_dec (B : Board) : Decision (entriesInRange B).
Proof.
  refine (cast_if (decide (Forall (Forall (fun v => (0 ≤ v ≤ 9)%Z)) B)));
    abstract (by rewrite entriesInRange_Forall).
Defined.

#[local] Instance consistent_dec (B : Board) : Decision (consistent B).
Proof.
  refine (cast_if (decide (Forall (fun p : Pos =>
    Forall (fun q : Pos =>
      peer p q → cell B p.1 p.2 = cell B q.1 q.2 →
      cell B p.1 p.2 = Some 0%Z ∨ cell B p.1 p.2 = None) allCells) allCells)));
    abstract (by rewrite consistent_Forall).
Defined.

#[local] Instance SolvedGrid_dec (G : Board) : Decision (SolvedGrid G).
Proof.
  refine (cast_if (decide (board9x9 G ∧
    Forall (fun u : list Pos => (valueAt G <$> u) ≡ₚ digits) units)));
    abstract (by rewrite SolvedGrid_Forall).
Defined.

#[local] Instance wfBoard_dec (B : Board) : Decision (wfBoard B).
Proof. unfold wfBoard. apply _. Defined.

(** ** Concrete boards *)

(** [Array(9).fill(null).map(() => Array(9).fill(0))] *)
Definition emptyBoard : Board := replicate 9 (replicate 9 0%Z).

Definition sampleGrid : Board :=
  [ [1; 2; 3; 4; 5; 6; 7; 8; 9];
    [4; 5; 6; 7; 8; 9; 1; 2; 3];
    [7; 8; 9; 1; 2; 3; 4; 5; 6];
    [2; 3; 4; 5; 6; 7; 8; 9; 1];
    [5; 6; 7; 8; 9; 1; 2; 3; 4];
    [8; 9; 1; 2; 3; 4; 5; 6; 7];
    [3; 4; 5; 6; 7; 8; 9; 1; 2];
    [6; 7; 8; 9; 1; 2; 3; 4; 5];
    [9; 1; 2; 3; 4; 5; 6; 7; 8] ]%Z.

Lemma sampleGrid_solved : SolvedGrid sampleGrid.
Proof. by_computation. Qed.

Lemma emptyBoard_wf : wfBoard emptyBoard.
Proof. by_computation. Qed.

Lemma emptyBoard_completion S : SolvedGrid S → completion emptyBoard S.
Proof.
  intros HS. split; [done|]. intros i j v Hv Hv0. exfalso. apply Hv0.
  unfold cell, emptyBoard in Hv.
  destruct (replicate 9 (replicate 9 0%Z) !! i) as [row|] eqn:Hi; [|done].
  apply lookup_replicate in Hi as [-> _].
  by apply lookup_replicate in Hv as [-> _].
Qed.

(** ** Termination: the searches return on every board *)

Lemma digits_nonzero n : n ∈ digits → n ≠ 0%Z.
Proof. rewrite elem_of_digits. lia. Qed.

Lemma solveLoop_total rec B r c :
  inGrid (r, c) → cell B r c = Some 0%Z →
  (∀ B1 c1, emptyCells B1 < emptyCells B →
     ∃ res, rec B1 c1 = Some res ∧ (res.2 ≤ 1 → res.1 = B1)) →
  ∀ nums count, (∀ n, n ∈ nums → n ≠ 0%Z) →
  ∃ res, solveLoop rec r c nums B count = Some res ∧ (res.2 ≤ 1 → res.1 = B).
Proof.
  intros Hg H0 Hrec nums.
  induction nums as [|num rest IH]; intros count Hnz.
  - by exists (B, count).
  - assert (∀ n, n ∈ rest → n ≠ 0%Z) as Hnz'.
    { intros n Hn. apply Hnz, elem_of_cons. by right. }
    cbn [solveLoop]. destruct (isValidPlacement B num (r, c)); [|by apply IH].
    destruct (Hrec (setCell B r c num) count) as ([b1 c1] & -> & Hb1).
    { apply emptyCells_setCell; [done..|]. apply Hnz, elem_of_cons. by left. }
    cbn [fst snd] in Hb1.
    destruct (1 <? c1) eqn:Hc1.
    + exists (b1, c1). split; [done|]. cbn [fst snd].
      apply Nat.ltb_lt in Hc1. lia.
    + apply Nat.ltb_ge in Hc1. rewrite (Hb1 Hc1).
      rewrite (setCell_restore B r c num 0%Z H0). by apply IH.
Qed.

Lemma solve_total fuel :
  ∀ B count, emptyCells B < fuel →
  ∃ res, solve fuel B count = Some res ∧ (res.2 ≤ 1 → res.1 = B).
Proof.
  induction fuel as [|fuel IH]; intros B count Hfuel; [lia|].
  cbn [solve]. destruct (findEmptyCell B) as [[r c]|] eqn:Hfind.
  - apply findEmptyCell_Some in Hfind as [Hg H0].
    apply solveLoop_total; [done..| |apply digits_nonzero].
    intros B1 c1 Hlt. apply IH. lia.
  - by exists (B, count + 1).
Qed.

Lemma countSolutions_total B : is_Some (countSolutions B).
Proof.
  destruct (solve_total (S (emptyCells B)) B 0) as (res & Hres & _); [lia|].
  unfold countSolutions. rewrite Hres. eauto.
Qed.

Lemma solveLoop_mono (rec rec' : Board → nat → option (Board * nat)) r c :
  (∀ B count res, rec B count = Some res → rec' B count = Some res) →
  ∀ nums B count res,
    solveLoop rec r c nums B count = Some res →
    solveLoop rec' r c nums B count = Some res.
Proof.
  intros Hrec nums. induction nums as [|num rest IH]; intros B count res.
  - done.
  - cbn [solveLoop]. destruct (isValidPlacement B num (r, c)); [|apply IH].
    destruct (rec (setCell B r c num) count) as [[b1 c1]|] eqn:E; [|done].
    rewrite (Hrec _ _ _ E). destruct (1 <? c1); [done|apply IH].
Qed.

(** More fuel never changes a result. *)
Lemma solve_mono fuel :
  ∀ fuel' B count res, fuel ≤ fuel' →
    solve fuel B count = Some res → solve fuel' B count = Some res.
Proof.
  induction fuel as [|fuel IH]; intros fuel' B count res Hle; [done|].
  destruct fuel' as [|fuel']; [lia|]. cbn [solve].
  destruct (findEmptyCell B) as [[r c]|]; [|done].
  apply solveLoop_mono. intros B1 c1 res1. apply IH. lia.
Qed.

Lemma tryCandidates_total rec B r c :
  inGrid (r, c) → cell B r c = Some 0%Z →
  (∀ B1 g1, emptyCells B1 < emptyCells B →
     ∃ res, rec B1 g1 = Some res ∧ (res.1.1 = false → res.1.2 = B1)) →
  ∀ numbers g, (∀ n, n ∈ numbers → n ≠ 0%Z) →
  ∃ res, tryCandidates rec r c numbers B g = Some res ∧
         (res.1.1 = false → res.1.2 = B).
Proof.
  intros Hg H0 Hrec numbers.
  induction numbers as [|num rest IH]; intros g Hnz.
  - by exists (false, B, g).
  - assert (∀ n, n ∈ rest → n ≠ 0%Z) as Hnz'.
    { intros n Hn. apply Hnz, elem_of_cons. by right. }
    cbn [tryCandidates].
    destruct (isValidPlacement B num (r, c)); [|by apply IH].
    destruct (Hrec (setCell B r c num) g) as ([[ok1 b1] g1] & -> & Hb1).
    { apply emptyCells_setCell; [done..|]. apply Hnz, elem_of_cons. by left. }
    cbn [fst snd] in Hb1. destruct ok1.
    + by exists (true, b1, g1).
    + rewrite (Hb1 eq_refl), (setCell_restore B r c num 0%Z H0). by apply IH.
Qed.

Lemma generate_total fuel :
  ∀ B g, emptyCells B < fuel →
  ∃ res, generateSolvedSudokuGrid_fuel fuel B g = Some res ∧
         (res.1.1 = false → res.1.2 = B).
Proof.
  induction fuel as [|fuel IH]; intros B g Hfuel; [lia|].
  cbn [generateSolvedSudokuGrid_fuel].
  destruct (findEmptyCell B) as [[r c]|] eqn:Hfind.
  - apply findEmptyCell_Some in Hfind as [Hg H0].
    pose proof (shuffle_Permutation digits g) as Hperm.
    destruct (shuffle digits g) as [numbers g']. cbn [fst] in Hperm.
    apply tryCandidates_total; [done..| |].
    + intros B1 g1 Hlt. apply IH. lia.
    + intros n Hn. apply digits_nonzero. by rewrite <- Hperm.
  - by exists (true, B, g).
Qed.

Lemma tryCandidates_mono
    (rec rec' : Board → Rng → option (bool * Board * Rng)) r c :
  (∀ B g res, rec B g = Some res → rec' B g = Some res) →
  ∀ numbers B g res,
    tryCandidates rec r c numbers B g = Some res →
    tryCandidates rec' r c numbers B g = Some res.
Proof.
  intros Hrec numbers. induction numbers as [|num rest IH]; intros B g res.
  - done.
  - cbn [tryCandidates]. destruct (isValidPlacement B num (r, c)); [|apply IH].
    destruct (rec (setCell B r c num) g) as [[[ok1 b1] g1]|] eqn:E; [|done].
    rewrite (Hrec _ _ _ E). destruct ok1; [done|apply IH].
Qed.

Lemma generate_mono fuel :
  ∀ fuel' B g res, fuel ≤ fuel' →
    generateSolvedSudokuGrid_fuel fuel B g = Some res →
    generateSolvedSudokuGrid_fuel fuel' B g = Some res.
Proof.
  induction fuel as [|fuel IH]; intros fuel' B g res Hle; [done|].
  destruct fuel' as [|fuel']; [lia|]. cbn [generateSolvedSudokuGrid_fuel].
  destruct (findEmptyCell B) as [[r c]|]; [|done].
  destruct (shuffle digits g) as [numbers g'].
  apply tryCandidates_mono. intros B1 g1 res1. apply IH. lia.
Qed.

(** ** The store of board objects

    A reference names a board object; the store gives the contents of every
    object allocated so far.  A new object gets the next free reference. *)

Abbreviation Ref := nat.
Abbreviation Store := (list (list (list Z))).

Definition deref (σ : Store) (ref : Ref) : Board := default [] (σ !! ref).

Definition alloc (σ : Store) (board : Board) : Store * Ref :=
  (σ ++ [board], length σ).

(** [ref.map(row => [...row])]: a new object with the same contents *)
Definition copyBoardAt (σ : Store) (ref : Ref) : Store * Ref :=
  alloc σ (copyBoard (deref σ ref)).

(** [ref[i][j]] *)
Definition readCell (σ : Store) (ref : Ref) (i j : nat) : option Z :=
  cell (deref σ ref) i j.

(** [ref[i][j] = v] *)
Definition writeCell (σ : Store) (ref : Ref) (i j : nat) (v : Z) : Store :=
  alter (fun board : list (list Z) => setCell board i j v) ref σ.

(** [countSolutions(ref)]: the search runs on the object itself. *)
Definition countSolutionsAt (σ : Store) (ref : Ref) : option (Store * nat) :=
  match countSolutions (deref σ ref) with
  | Some (board', count) => Some (<[ref := board']> σ, count)
  | None => None
  end.

(** [generateSolvedSudokuGrid(ref)] *)
Definition generateSolvedSudokuGridAt (σ : Store) (ref : Ref) (g : Rng)
    : option (bool * Store * Rng) :=
  match generateSolvedSudokuGrid (deref σ ref) g with
  | Some (ok, board', g') => Some (ok, <[ref := board']> σ, g')
  | None => None
  end.

(** ** The puzzle carver *)

(** [countSolutions(puzzle.map(r => [...r]))] *)
Definition probe (σ : Store) (puzzle : Ref) : option (Store * nat) :=
  let '(σ1, fresh) := copyBoardAt σ puzzle in
  countSolutionsAt σ1 fresh.

(** The loop [for (let [row, col] of cells)] of [createPuzzle]; the state is
    the store and the local [removed]. *)
Fixpoint carve (puzzle : Ref) (holes : nat) (cells : list Pos)
    (σ : Store) (removed : nat) : option (Store * nat) :=
  match cells with
  | [] => Some (σ, removed)
  | (row, col) :: rest =>
      if holes <=? removed then Some (σ, removed)
      else
        match readCell σ puzzle row col with
        | None => None
        | Some temp =>
            let σ1 := writeCell σ puzzle row col 0 in
            match probe σ1 puzzle with
            | None => None
            | Some (σ2, solutionCount) =>
                if negb (solutionCount =? 1) then
                  carve puzzle holes rest
                    (writeCell σ2 puzzle row col temp) removed
                else carve puzzle holes rest σ2 (removed + 1)
            end
        end
  end.

(** [createPuzzle(board, holes)]: the store afterwards, the reference of
    the returned puzzle and the random source afterwards. *)
Definition createPuzzle (σ : Store) (board : Ref) (holes : nat) (g : Rng)
    : option (Store * Ref * Rng) :=
  let '(σ1, puzzle) := copyBoardAt σ board in
  let '(cells, g') := shuffle allCells g in
  match carve puzzle holes cells σ1 0 with
  | Some (σ2, _) => Some (σ2, puzzle, g')
  | None => None
  end.

(** ** The carver when [holes] is not a number

    [startNewGame] passes whatever [DIFFICULTY_LEVELS[difficulty]] gives,
    which for a name the table inherits is a function or an object.  Only
    one thing is done with [holes]: the test [removed >= holes], where such
    a value converts to [NaN] and the test is false. *)
Inductive HolesValue :=
  | HolesNumber (n : nat)
  | HolesNotANumber.

(** [removed >= holes] *)
Definition holesReached (removed : nat) (holes : HolesValue) : bool :=
  match holes with
  | HolesNumber n => n <=? removed
  | HolesNotANumber => false
  end.

Fixpoint carveWith (puzzle : Ref) (holes : HolesValue) (cells : list Pos)
    (σ : Store) (removed : nat) : option (Store * nat) :=
  match cells with
  | [] => Some (σ, removed)
  | (row, col) :: rest =>
      if holesReached removed holes then Some (σ, removed)
      else
        match readCell σ puzzle row col with
        | None => None
        | Some temp =>
            let σ1 := writeCell σ puzzle row col 0 in
            match probe σ1 puzzle with
            | None => None
            | Some (σ2, solutionCount) =>
                if negb (solutionCount =? 1) then
                  carveWith puzzle holes rest
                    (writeCell σ2 puzzle row col temp) removed
                else carveWith puzzle holes rest σ2 (removed + 1)
            end
        end
  end.

Definition createPuzzleWith (σ : Store) (board : Ref) (holes : HolesValue)
    (g : Rng) : option (Store * Ref * Rng) :=
  let '(σ1, puzzle) := copyBoardAt σ board in
  let '(cells, g') := shuffle allCells g in
  match carveWith puzzle holes cells σ1 0 with
  | Some (σ2, _) => Some (σ2, puzzle, g')
  | None => None
  end.

(** ** Store lemmas *)

Lemma deref_lookup (σ : Store) ref B : σ !! ref = Some B → deref σ ref = B.
Proof. unfold deref. by intros ->. Qed.

Lemma lookup_deref (σ : Store) ref :
  ref < length σ → σ !! ref = Some (deref σ ref).
Proof.
  intros H. unfold deref.
  by destruct (lookup_lt_is_Some_2 σ ref H) as [B ->].
Qed.

Lemma deref_writeCell_eq (σ : Store) ref i j v :
  deref (writeCell σ ref i j v) ref = setCell (deref σ ref) i j v.
Proof.
  unfold deref, writeCell. rewrite list_lookup_alter_eq.
  by destruct (σ !! ref).
Qed.

Lemma lookup_writeCell_ne (σ : Store) ref i j v r :
  r ≠ ref → writeCell σ ref i j v !! r = σ !! r.
Proof. intros H. unfold writeCell. by rewrite list_lookup_alter_ne. Qed.

Lemma length_writeCell (σ : Store) ref i j v :
  length (writeCell σ ref i j v) = length σ.
Proof. unfold writeCell. by rewrite length_alter. Qed.

(** A probe leaves every object that existed before it as it was; what it
    returns is the count of the puzzle's contents. *)
Lemma probe_frame (σ σ' : Store) puzzle n :
  probe σ puzzle = Some (σ', n) →
  length σ' = S (length σ) ∧
  (∀ r, r < length σ → σ' !! r = σ !! r) ∧
  ∃ B', countSolutions (deref σ puzzle) = Some (B', n).
Proof.
  unfold probe, copyBoardAt, alloc, countSolutionsAt.
  rewrite copyBoard_id.
  assert (deref (σ ++ [deref σ puzzle]) (length σ) = deref σ puzzle) as ->.
  { unfold deref at 1. by rewrite lookup_app_r, Nat.sub_diag by lia. }
  destruct (countSolutions (deref σ puzzle)) as [[B' k]|]; [|done].
  intros [= <- <-]. split; [|split].
  - rewrite length_insert, length_app. cbn. lia.
  - intros r Hr. rewrite list_lookup_insert_ne by lia.
    by rewrite lookup_app_l.
  - eauto.
Qed.

Lemma probe_total (σ : Store) puzzle : is_Some (probe σ puzzle).
Proof.
  unfold probe, copyBoardAt, alloc, countSolutionsAt.
  destruct (countSolutions_total
              (deref (σ ++ [copyBoard (deref σ puzzle)]) (length σ)))
    as [[B' k] ->].
  eauto.
Qed.

Lemma cell_setCell_inv B i j v i' j' w :
  cell (setCell B i j v) i' j' = Some w →
  ((i, j) = (i', j') ∧ w = v) ∨ cell B i' j' = Some w.
Proof.
  intros H. destruct (decide ((i, j) = (i', j'))) as [[= <- <-]|Hne].
  - destruct (cell B i j) as [x|] eqn:Hx.
    + rewrite cell_setCell_eq in H by (rewrite Hx; eauto). left.
      split; congruence.
    + exfalso. unfold cell, setCell in *.
      rewrite list_lookup_alter_eq in H.
      destruct (B !! i) as [row|]; [|done]. cbn in H.
      apply lookup_lt_Some in H. rewrite length_insert in H.
      apply lookup_ge_None in Hx. lia.
  - right. by rewrite cell_setCell_ne in H.
Qed.

Lemma extends_setCell_zero P G r c :
  extends P G → extends (setCell P r c 0) G.
Proof.
  intros H i j v Hv Hv0.
  apply cell_setCell_inv in Hv as [[_ ->]|Hv]; [done|]. by apply H.
Qed.

Lemma NoDup_allCells : NoDup allCells.
Proof. by_computation. Qed.

Lemma filter_length_le_S `{EqDecision A} (f f' : A → bool) (l : list A) x :
  NoDup l → (∀ y, y ≠ x → f' y = true → f y = true) →
  length (List.filter f' l) ≤ S (length (List.filter f l)).
Proof.
  intros Hnd Himp.
  assert (∀ k, x ∉ k → length (List.filter f' k) ≤ length (List.filter f k))
    as Hle.
  { induction k as [|y k IH]; intros Hx; [done|].
    apply not_elem_of_cons in Hx as [Hxy Hx]. specialize (IH Hx). cbn.
    destruct (f' y) eqn:E'.
    - rewrite (Himp y (not_eq_sym Hxy) E'). cbn. lia.
    - destruct (f y); cbn; lia. }
  induction l as [|y l IH]; [cbn; lia|].
  apply list.NoDup_cons in Hnd as [Hy Hnd]. cbn.
  destruct (decide (y = x)) as [->|Hne].
  - specialize (Hle l Hy). destruct (f' x), (f x); cbn; lia.
  - specialize (IH Hnd). destruct (f' y) eqn:E'.
    + rewrite (Himp y Hne E'). cbn. lia.
    + destruct (f y); cbn; lia.
Qed.

Lemma emptyCells_setCell_le B r c v :
  emptyCells (setCell B r c v) ≤ S (emptyCells B).
Proof.
  unfold emptyCells. apply (filter_length_le_S _ _ _ (r, c)).
  - apply NoDup_allCells.
  - intros [i j] Hne. cbn [fst snd]. rewrite !strictEq_true.
    by rewrite cell_setCell_ne.
Qed.

(** ** The carver keeps exactly one solution *)

Definition carveInv (G : Board) (holes : nat) (puzzle : Ref)
    (σ : Store) (removed : nat) : Prop :=
  puzzle < length σ ∧
  board9x9 (deref σ puzzle) ∧
  extends (deref σ puzzle) G ∧
  (∃ B', countSolutions (deref σ puzzle) = Some (B', 1)) ∧
  emptyCells (deref σ puzzle) ≤ removed ∧
  removed ≤ holes.

Lemma carve_spec G holes puzzle cells :
  Forall inGrid cells →
  ∀ σ removed, carveInv G holes puzzle σ removed →
  ∃ σ' removed',
    carve puzzle holes cells σ removed = Some (σ', removed') ∧
    carveInv G holes puzzle σ' removed' ∧
    length σ ≤ length σ' ∧
    (∀ r, r < length σ → r ≠ puzzle → σ' !! r = σ !! r).
Proof.
  induction cells as [|[row col] rest IH]; intros Hcells σ removed Hinv.
  - exists σ, removed. split; [done|]. split; [done|]. split; [lia|done].
  - apply list.Forall_cons in Hcells as [[Hrow Hcol] Hrest].
    cbn [fst snd] in Hrow, Hcol. specialize (IH Hrest). cbn [carve].
    destruct (holes <=? removed) eqn:Hbreak.
    { exists σ, removed. split; [done|]. split; [done|]. split; [lia|done]. }
    apply Nat.leb_gt in Hbreak.
    destruct Hinv as (Hp & Hb & Hext & Hone & Hempty & Hrem).
    unfold readCell.
    destruct (cell_is_Some (deref σ puzzle) row col Hb Hrow Hcol)
      as [temp Htemp].
    rewrite Htemp.
    destruct (probe_total (writeCell σ puzzle row col 0) puzzle)
      as [[σ2 n] Hprobe].
    rewrite Hprobe.
    apply probe_frame in Hprobe as (Hlen2 & Hframe2 & B' & Hcount).
    rewrite length_writeCell in Hlen2, Hframe2.
    rewrite deref_writeCell_eq in Hcount.
    assert (deref σ2 puzzle = setCell (deref σ puzzle) row col 0) as Hp2.
    { unfold deref at 1. rewrite (Hframe2 puzzle Hp).
      apply deref_writeCell_eq. }
    destruct (n =? 1) eqn:Hn; cbn [negb].
    + apply Nat.eqb_eq in Hn. subst n.
      destruct (IH σ2 (removed + 1)) as (σ' & removed' & -> & Hinv' & Hl & Hf).
      { split; [lia|]. rewrite Hp2. split; [by apply setCell_board9x9|].
        split; [by apply extends_setCell_zero|]. split; [eauto|].
        pose proof (emptyCells_setCell_le (deref σ puzzle) row col 0). lia. }
      exists σ', removed'. split; [done|]. split; [done|]. split; [lia|].
      intros r Hr Hne. rewrite Hf by (done || lia). rewrite Hframe2 by done.
      by apply lookup_writeCell_ne.
    + destruct (IH (writeCell σ2 puzzle row col temp) removed)
        as (σ' & removed' & -> & Hinv' & Hl & Hf).
      { split; [rewrite length_writeCell; lia|].
        rewrite deref_writeCell_eq, Hp2, (setCell_restore _ _ _ _ _ Htemp).
        split; [done|]. split; [done|]. split; [done|]. split; [done|lia]. }
      rewrite length_writeCell in Hl, Hf.
      exists σ', removed'. split; [done|]. split; [done|]. split; [lia|].
      intros r Hr Hne. rewrite Hf by (done || lia).
      rewrite lookup_writeCell_ne by done. rewrite Hframe2 by done.
      by apply lookup_writeCell_ne.
Qed.

Lemma full_emptyCells B : findEmptyCell B = None → emptyCells B = 0.
Proof.
  intros H. unfold emptyCells, findEmptyCell in *.
  induction allCells as [|p l IH]; [done|]. cbn in *.
  destruct (strictEq (cell B p.1 p.2) 0); [done|]. by apply IH.
Qed.

Lemma solved_full G : SolvedGrid G → findEmptyCell G = None.
Proof.
  intros HG. apply findEmptyCell_None. intros p Hp Hv.
  destruct (solved_cell G p HG Hp) as (v & Hv' & Hr).
  assert (v = 0%Z) by congruence. lia.
Qed.

Lemma countSolutions_full B :
  findEmptyCell B = None → countSolutions B = Some (B, 1).
Proof.
  intros H. unfold countSolutions. rewrite (full_emptyCells B H).
  cbn [solve]. by rewrite H.
Qed.

Lemma shuffle_allCells_inGrid g : Forall inGrid (shuffle allCells g).1.
Proof.
  rewrite shuffle_Permutation. apply list.Forall_forall.
  intros p. apply elem_of_allCells.
Qed.

Lemma createPuzzle_spec (σ : Store) board G holes g :
  σ !! board = Some G → SolvedGrid G →
  ∃ σ' puzzle g' P B',
    createPuzzle σ board holes g = Some (σ', puzzle, g') ∧
    σ' !! puzzle = Some P ∧
    puzzle = length σ ∧
    length σ < length σ' ∧
    (∀ r, r < length σ → σ' !! r = σ !! r) ∧
    board9x9 P ∧
    countSolutions P = Some (B', 1) ∧
    extends P G ∧
    emptyCells P ≤ holes.
Proof.
  intros HG Hsolved. unfold createPuzzle, copyBoardAt, alloc.
  rewrite copyBoard_id, (deref_lookup σ board G HG).
  pose proof (shuffle_allCells_inGrid g) as Hcells.
  destruct (shuffle allCells g) as [cells g']. cbn [fst] in Hcells.
  assert (deref (σ ++ [G]) (length σ) = G) as Hd.
  { unfold deref. by rewrite lookup_app_r, Nat.sub_diag by lia. }
  destruct (carve_spec G holes (length σ) cells Hcells (σ ++ [G]) 0)
    as (σ' & removed' & -> & Hinv & Hl & Hf).
  { split; [rewrite length_app; cbn; lia|]. rewrite Hd.
    split; [apply Hsolved|]. split; [apply extends_refl|].
    split; [exists G; apply countSolutions_full; by apply solved_full|].
    rewrite full_emptyCells by by apply solved_full. lia. }
  destruct Hinv as (Hp & Hb & Hext & [B' Hone] & Hempty & Hrem).
  rewrite length_app in Hl. cbn in Hl.
  exists σ', (length σ), g', (deref σ' (length σ)), B'.
  split; [done|]. split; [by apply lookup_deref|]. split; [done|].
  split; [lia|]. split; [|split; [done|split; [done|split; [done|lia]]]].
  intros r Hr. rewrite Hf by (rewrite ?length_app; cbn; lia).
  by apply lookup_app_l.
Qed.

(** ** The game session

    The globals of [script.js] and the parts of the page the handlers
    write.  [solvedBoard], [puzzleBoard] and [initialPuzzle] are references
    into the store: the Solved Grid, the Play State and the Initial Puzzle
    of the specification. *)

(** One [div.cell] of [#sudoku-board] as [renderBoard] builds it. *)
Record CellView := {
  textContent : option Z;
  puzzleCell : bool;     (* class [puzzle-cell] *)
  userCell : bool;       (* class [user-cell] *)
  incorrect : bool;      (* class [incorrect] *)
  clickable : bool;      (* carries the click listener *)
  selected : bool        (* class [selected] *)
}.

Record Session := {
  heap : Store;
  solvedBoard : Ref;
  puzzleBoard : Ref;
  initialPuzzle : Ref;
  selectedCell : option Pos;
  gameActive : bool;
  boardView : list CellView;          (* children of [#sudoku-board] *)
  statusMessage : option (string * bool);  (* text, success colour *)
  numberPadShown : bool;              (* [#number-pad] displayed as flex *)
  confettiShown : bool
}.

(** The property names a plain object inherits from [Object.prototype]
    (ECMAScript, with its Annex B): looking one of them up in
    [DIFFICULTY_LEVELS] gives a function or, for [__proto__], an object. *)
Definition objectPrototypeNames : list string :=
  ["constructor"; "hasOwnProperty"; "isPrototypeOf"; "propertyIsEnumerable";
   "toLocaleString"; "toString"; "valueOf"; "__proto__";
   "__defineGetter__"; "__defineSetter__"; "__lookupGetter__";
   "__lookupSetter__"]%string.

(** [DIFFICULTY_LEVELS[difficulty]]; [None] is [undefined]. *)
Definition DIFFICULTY_LEVELS (difficulty : string) : option HolesValue :=
  if String.eqb difficulty "easy" then Some (HolesNumber 30)
  else if String.eqb difficulty "medium" then Some (HolesNumber 40)
  else if String.eqb difficulty "hard" then Some (HolesNumber 50)
  else if String.eqb difficulty "expert" then Some (HolesNumber 60)
  else if existsb (String.eqb difficulty) objectPrototypeNames
  then Some HolesNotANumber
  else None.

Definition withHeap (s : Session) (σ : Store) : Session :=
  {| heap := σ; solvedBoard := solvedBoard s; puzzleBoard := puzzleBoard s;
     initialPuzzle := initialPuzzle s; selectedCell := selectedCell s;
     gameActive := gameActive s; boardView := boardView s;
     statusMessage := statusMessage s; numberPadShown := numberPadShown s;
     confettiShown := confettiShown s |}.

Definition withSelectedCell (s : Session) (sel : option Pos) : Session :=
  {| heap := heap s; solvedBoard := solvedBoard s; puzzleBoard := puzzleBoard s;
     initialPuzzle := initialPuzzle s; selectedCell := sel;
     gameActive := gameActive s; boardView := boardView s;
     statusMessage := statusMessage s; numberPadShown := numberPadShown s;
     confettiShown := confettiShown s |}.

Definition withGameActive (s : Session) (active : bool) : Session :=
  {| heap := heap s; solvedBoard := solvedBoard s; puzzleBoard := puzzleBoard s;
     initialPuzzle := initialPuzzle s; selectedCell := selectedCell s;
     gameActive := active; boardView := boardView s;
     statusMessage := statusMessage s; numberPadShown := numberPadShown s;
     confettiShown := confettiShown s |}.

Definition withBoardView (s : Session) (view : list CellView) : Session :=
  {| heap := heap s; solvedBoard := solvedBoard s; puzzleBoard := puzzleBoard s;
     initialPuzzle := initialPuzzle s; selectedCell := selectedCell s;
     gameActive := gameActive s; boardView := view;
     statusMessage := statusMessage s; numberPadShown := numberPadShown s;
     confettiShown := confettiShown s |}.

Definition withNumberPad (s : Session) (shown : bool) : Session :=
  {| heap := heap s; solvedBoard := solvedBoard s; puzzleBoard := puzzleBoard s;
     initialPuzzle := initialPuzzle s; selectedCell := selectedCell s;
     gameActive := gameActive s; boardView := boardView s;
     statusMessage := statusMessage s; numberPadShown := shown;
     confettiShown := confettiShown s |}.

Definition withPuzzleBoard (s : Session) (ref : Ref) : Session :=
  {| heap := heap s; solvedBoard := solvedBoard s; puzzleBoard := ref;
     initialPuzzle := initialPuzzle s; selectedCell := selectedCell s;
     gameActive := gameActive s; boardView := boardView s;
     statusMessage := statusMessage s; numberPadShown := numberPadShown s;
     confettiShown := confettiShown s |}.

Definition setStatusMessage (message : string) (isSuccess : bool)
    (s : Session) : Session :=
  {| heap := heap s; solvedBoard := solvedBoard s; puzzleBoard := puzzleBoard s;
     initialPuzzle := initialPuzzle s; selectedCell := selectedCell s;
     gameActive := gameActive s; boardView := boardView s;
     statusMessage := Some (message, isSuccess);
     numberPadShown := numberPadShown s; confettiShown := confettiShown s |}.

Definition showConfetti (s : Session) : Session :=
  {| heap := heap s; solvedBoard := solvedBoard s; puzzleBoard := puzzleBoard s;
     initialPuzzle := initialPuzzle s; selectedCell := selectedCell s;
     gameActive := gameActive s; boardView := boardView s;
     statusMessage := statusMessage s; numberPadShown := numberPadShown s;
     confettiShown := true |}.

(** The cell that [renderBoard(board)] builds for position [(i, j)].  A
    cell value that is [undefined] does not occur on a 9x9 board; it is
    shown as a user cell without the [incorrect] mark. *)
Definition renderCell (s : Session) (board : Ref) (p : Pos) : CellView :=
  let '(i, j) := p in
  let isPuzzleCell := negb (strictEq (readCell (heap s) (initialPuzzle s) i j) 0) in
  let cellValue := readCell (heap s) board i j in
  let isSelected :=
    match selectedCell s with
    | Some (row, col) => (row =? i) && (col =? j)
    | None => false
    end in
  if isPuzzleCell then
    {| textContent := cellValue; puzzleCell := true; userCell := false;
       incorrect := false; clickable := false; selected := isSelected |}
  else if negb (strictEq cellValue 0) then
    {| textContent := cellValue; puzzleCell := false; userCell := true;
       incorrect :=
         match cellValue with
         | Some v => negb (isValidPlacement (deref (heap s) board) v (i, j))
         | None => false
         end;
       clickable := true; selected := isSelected |}
  else
    {| textContent := None; puzzleCell := false; userCell := false;
       incorrect := false; clickable := true; selected := isSelected |}.

Definition renderBoard (board : Ref) (s : Session) : Session :=
  withBoardView s (renderCell s board <$> allCells).

Definition handleCellClick (row col : nat) (narrow : bool) (s : Session)
    : Session :=
  let s1 := renderBoard (puzzleBoard s) (withSelectedCell s (Some (row, col))) in
  if narrow then withNumberPad s1 true else s1.

(** A click on the cell element at [(i, j)]; [narrow] tells whether
    [window.innerWidth < 992].  Only elements rendered with a listener
    react. *)
Definition clickCell (i j : nat) (narrow : bool) (s : Session) : Session :=
  match boardView s !! (i * 9 + j) with
  | Some view =>
      if clickable view && gameActive s then handleCellClick i j narrow s
      else s
  | None => s
  end.

(** The loops of [checkWinCondition]: [true] when they run to their end. *)
Definition boardPerfect (σ : Store) (puzzle solved : Ref) : bool :=
  forallb (fun p : Pos =>
      negb (strictEq (readCell σ puzzle p.1 p.2) 0
            || negb (bool_decide
                       (readCell σ puzzle p.1 p.2 = readCell σ solved p.1 p.2))))
    allCells.

Definition checkWinCondition (s : Session) : Session :=
  if boardPerfect (heap s) (puzzleBoard s) (solvedBoard s) then
    showConfetti
      (setStatusMessage "Congratulations! You solved the puzzle!" true
         (withGameActive s false))
  else s.

(** [parseInt] on a string that starts with a decimal digit: the value of
    its longest prefix of digits.  The value is exact here; JavaScript
    rounds it to a double, which makes a difference from 2^53 on, on keys
    of 16 digits and more.  The keys a keyboard sends and the statements
    below stay far from there. *)
Fixpoint parseDigits (key : string) (acc : Z) : Z :=
  match key with
  | EmptyString => acc
  | String ch rest =>
      let code := nat_of_ascii ch in
      if (48 <=? code) && (code <=? 57)
      then parseDigits rest (10 * acc + Z.of_nat (code - 48))
      else acc
  end.

Definition parseInt (key : string) : Z := parseDigits key 0.

(** The number the [keydown] handler derives from [event.key], if any. *)
Definition keyNumber (key : string) : option Z :=
  if String.leb "1" key && String.leb key "9" then Some (parseInt key)
  else if String.eqb key "Backspace" || String.eqb key "Delete"
          || String.eqb key "0"
  then Some 0%Z
  else None.

(** [puzzleBoard[row][col] = num] *)
Definition placeNumber (row col : nat) (num : Z) (s : Session) : Session :=
  withHeap s (writeCell (heap s) (puzzleBoard s) row col num).

(** The [keydown] listener. *)
Definition onKeyDown (key : string) (s : Session) : Session :=
  match selectedCell s with
  | None => s
  | Some (row, col) =>
      if negb (gameActive s) then s
      else if negb (strictEq (readCell (heap s) (initialPuzzle s) row col) 0)
      then s
      else
        match keyNumber key with
        | None => s
        | Some num =>
            checkWinCondition
              (renderBoard (puzzleBoard s) (placeNumber row col num s))
        end
  end.

(** The click listener of a [.num-btn]; [value] is [parseInt] of its
    [data-value]. *)
Definition onNumberButton (value : Z) (s : Session) : Session :=
  match selectedCell s with
  | None => s
  | Some (row, col) =>
      if negb (gameActive s) then s
      else if negb (strictEq (readCell (heap s) (initialPuzzle s) row col) 0)
      then s
      else
        checkWinCondition
          (renderBoard (puzzleBoard s) (placeNumber row col value s))
  end.

(** The click listener of [.clear-btn]. *)
Definition onClearButton (s : Session) : Session :=
  match selectedCell s with
  | None => s
  | Some (row, col) =>
      if negb (gameActive s) then s
      else if negb (strictEq (readCell (heap s) (initialPuzzle s) row col) 0)
      then s
      else renderBoard (puzzleBoard s) (placeNumber row col 0 s)
  end.

Definition onKeyboardToggle (s : Session) : Session :=
  withNumberPad s (negb (numberPadShown s)).

(** The two nested tests of the loops of [checkAnswers] at the cell [p]:
    where they hold the loop sets [hasErrors]. *)
Definition flagsError (s : Session) (p : Pos) : bool :=
  strictEq (readCell (heap s) (initialPuzzle s) p.1 p.2) 0
  && negb (strictEq (readCell (heap s) (puzzleBoard s) p.1 p.2) 0)
  && negb (bool_decide
             (readCell (heap s) (puzzleBoard s) p.1 p.2
              = readCell (heap s) (solvedBoard s) p.1 p.2)).

(** The loops of [checkAnswers]: the final value of [hasErrors]. *)
Definition hasErrors (s : Session) : bool :=
  existsb (flagsError s) allCells.

Definition checkAnswers (s : Session) : Session :=
  let s1 :=
    if hasErrors s
    then setStatusMessage "Some answers are incorrect. Keep trying!" false s
    else setStatusMessage "All your answers are correct so far! Keep going!"
           true s in
  renderBoard (puzzleBoard s1) s1.

Definition resetPuzzle (s : Session) : Session :=
  let '(σ1, fresh) := copyBoardAt (heap s) (initialPuzzle s) in
  let s1 := withPuzzleBoard (withHeap s σ1) fresh in
  let s2 := withGameActive (withSelectedCell s1 None) true in
  setStatusMessage "Puzzle has been reset" true (renderBoard (puzzleBoard s2) s2).

(** [initializeGame(holes)]; [None] for [holes] is the omitted or
    [undefined] argument, which takes the default 40. *)
Definition initializeGame (holes : option nat) (g : Rng) (s : Session)
    : option (Session * Rng) :=
  let holes := default 40 holes in
  let '(σ1, baseBoard) := alloc (heap s) emptyBoard in
  match generateSolvedSudokuGridAt σ1 baseBoard g with
  | None => None
  | Some (_, σ2, g1) =>
      let '(σ3, solved) := copyBoardAt σ2 baseBoard in
      match createPuzzle σ3 solved holes g1 with
      | None => None
      | Some (σ4, puzzle, g2) =>
          let '(σ5, initial) := copyBoardAt σ4 puzzle in
          let s1 :=
            {| heap := σ5; solvedBoard := solved; puzzleBoard := puzzle;
               initialPuzzle := initial; selectedCell := None;
               gameActive := true; boardView := boardView s;
               statusMessage := statusMessage s;
               numberPadShown := numberPadShown s;
               confettiShown := confettiShown s |} in
          Some (renderBoard puzzle s1, g2)
      end
  end.

(** [initializeGame(holes)] for any value of [holes]; the default 40
    replaces [undefined] only. *)
Definition initializeGameWith (holes : option HolesValue) (g : Rng)
    (s : Session) : option (Session * Rng) :=
  let holes := default (HolesNumber 40) holes in
  let '(σ1, baseBoard) := alloc (heap s) emptyBoard in
  match generateSolvedSudokuGridAt σ1 baseBoard g with
  | None => None
  | Some (_, σ2, g1) =>
      let '(σ3, solved) := copyBoardAt σ2 baseBoard in
      match createPuzzleWith σ3 solved holes g1 with
      | None => None
      | Some (σ4, puzzle, g2) =>
          let '(σ5, initial) := copyBoardAt σ4 puzzle in
          let s1 :=
            {| heap := σ5; solvedBoard := solved; puzzleBoard := puzzle;
               initialPuzzle := initial; selectedCell := None;
               gameActive := true; boardView := boardView s;
               statusMessage := statusMessage s;
               numberPadShown := numberPadShown s;
               confettiShown := confettiShown s |} in
          Some (renderBoard puzzle s1, g2)
      end
  end.

Definition startNewGame (difficulty : string) (g : Rng) (s : Session)
    : option (Session * Rng) :=
  let holes := DIFFICULTY_LEVELS difficulty in
  match initializeGameWith holes g s with
  | None => None
  | Some (s1, g1) =>
      Some (setStatusMessage ("New " ++ difficulty ++ " game started!") true s1,
            g1)
  end.

(** [newGame()]; [difficulty] is the value of the [#difficulty] select. *)
Definition newGame (difficulty : string) (g : Rng) (s : Session)
    : option (Session * Rng) :=
  startNewGame difficulty g s.

(** ** Moves *)

(** The inputs through which the player edits the Play State. *)
Inductive Move :=
| KeyDown (key : string)
| NumberButton (value : Z)
| ClearButton
| CellClick (i j : nat) (narrow : bool).

Definition applyMove (s : Session) (m : Move) : Session :=
  match m with
  | KeyDown key => onKeyDown key s
  | NumberButton value => onNumberButton value s
  | ClearButton => onClearButton s
  | CellClick i j narrow => clickCell i j narrow s
  end.

Definition applyMoves (s : Session) (moves : list Move) : Session :=
  foldl applyMove s moves.

(** What a session shows of its three boards and of the store. *)
Definition sameBoards (s s' : Session) : Prop :=
  heap s' = heap s ∧ solvedBoard s' = solvedBoard s ∧
  puzzleBoard s' = puzzleBoard s ∧ initialPuzzle s' = initialPuzzle s.

Lemma sameBoards_trans s1 s2 s3 :
  sameBoards s1 s2 → sameBoards s2 s3 → sameBoards s1 s3.
Proof.
  intros (H1 & H2 & H3 & H4) (H1' & H2' & H3' & H4').
  unfold sameBoards. by rewrite H1', H2', H3', H4'.
Qed.

Lemma renderBoard_sameBoards board s : sameBoards s (renderBoard board s).
Proof. by repeat split. Qed.

Lemma checkWinCondition_sameBoards s : sameBoards s (checkWinCondition s).
Proof. unfold checkWinCondition. by destruct (boardPerfect _ _ _). Qed.

Lemma clickCell_sameBoards i j narrow s : sameBoards s (clickCell i j narrow s).
Proof.
  unfold clickCell. destruct (boardView s !! _) as [view|]; [|done].
  destruct (clickable view && gameActive s); [|done].
  unfold handleCellClick. by destruct narrow.
Qed.

Lemma readCell_writeCell_ne (σ : Store) ref r c x ref' i j :
  (r, c) ≠ (i, j) →
  readCell (writeCell σ ref r c x) ref' i j = readCell σ ref' i j.
Proof.
  intros Hne. unfold readCell.
  destruct (decide (ref' = ref)) as [->|Href].
  - rewrite deref_writeCell_eq. by apply cell_setCell_ne.
  - unfold deref. by rewrite lookup_writeCell_ne.
Qed.

(** The effect of a move on the boards: none, or one write to the Play
    State at a cell where the Initial Puzzle holds 0. *)
Definition editsHole (s s' : Session) : Prop :=
  sameBoards s s' ∨
  ∃ row col num,
    readCell (heap s) (initialPuzzle s) row col = Some 0%Z ∧
    heap s' = writeCell (heap s) (puzzleBoard s) row col num ∧
    solvedBoard s' = solvedBoard s ∧ puzzleBoard s' = puzzleBoard s ∧
    initialPuzzle s' = initialPuzzle s.

Lemma placeNumber_editsHole row col num s s' :
  readCell (heap s) (initialPuzzle s) row col = Some 0%Z →
  sameBoards (placeNumber row col num s) s' → editsHole s s'.
Proof.
  intros H0 (Hh & Hs & Hp & Hi). right. exists row, col, num.
  by repeat split.
Qed.

Lemma applyMove_editsHole s m : editsHole s (applyMove s m).
Proof.
  destruct m as [key|value| |i j narrow]; cbn [applyMove].
  - unfold onKeyDown. destruct (selectedCell s) as [[row col]|]; [|by left].
    destruct (gameActive s); cbn [negb]; [|by left].
    destruct (strictEq _ 0) eqn:E0; cbn [negb]; [|by left].
    apply strictEq_true in E0.
    destruct (keyNumber key) as [num|]; [|by left].
    apply (placeNumber_editsHole row col num); [done|].
    eapply sameBoards_trans;
      [apply renderBoard_sameBoards | apply checkWinCondition_sameBoards].
  - unfold onNumberButton. destruct (selectedCell s) as [[row col]|]; [|by left].
    destruct (gameActive s); cbn [negb]; [|by left].
    destruct (strictEq _ 0) eqn:E0; cbn [negb]; [|by left].
    apply strictEq_true in E0.
    apply (placeNumber_editsHole row col value); [done|].
    eapply sameBoards_trans;
      [apply renderBoard_sameBoards | apply checkWinCondition_sameBoards].
  - unfold onClearButton. destruct (selectedCell s) as [[row col]|]; [|by left].
    destruct (gameActive s); cbn [negb]; [|by left].
    destruct (strictEq _ 0) eqn:E0; cbn [negb]; [|by left].
    apply strictEq_true in E0.
    apply (placeNumber_editsHole row col 0%Z); [done|].
    apply renderBoard_sameBoards.
  - left. apply clickCell_sameBoards.
Qed.

Lemma editsHole_given s s' i j v :
  editsHole s s' →
  readCell (heap s) (initialPuzzle s) i j = Some v → v ≠ 0%Z →
  readCell (heap s') (puzzleBoard s') i j
    = readCell (heap s) (puzzleBoard s) i j ∧
  readCell (heap s') (initialPuzzle s') i j = Some v.
Proof.
  intros [(-> & _ & -> & ->) | (row & col & num & H0 & -> & _ & -> & ->)]
    Hv Hv0; [done|].
  assert ((row, col) ≠ (i, j)) as Hne by (intros [= -> ->]; congruence).
  by rewrite !readCell_writeCell_ne.
Qed.

Lemma applyMoves_given moves :
  ∀ s i j v,
    readCell (heap s) (initialPuzzle s) i j = Some v → v ≠ 0%Z →
    readCell (heap (applyMoves s moves)) (puzzleBoard (applyMoves s moves)) i j
      = readCell (heap s) (puzzleBoard s) i j ∧
    readCell (heap (applyMoves s moves)) (initialPuzzle (applyMoves s moves)) i j
      = Some v.
Proof.
  induction moves as [|m moves IH]; intros s i j v Hv Hv0; [done|].
  cbn [applyMoves foldl].
  destruct (editsHole_given s (applyMove s m) i j v
              (applyMove_editsHole s m) Hv Hv0) as [Hp Hi].
  destruct (IH (applyMove s m) i j v Hi Hv0) as [Hp' Hi'].
  unfold applyMoves in *. by rewrite Hp'.
Qed.

(** A move made while a given cell is selected changes nothing. *)
Lemma move_on_given_noop s row col v m :
  selectedCell s = Some (row, col) →
  readCell (heap s) (initialPuzzle s) row col = Some v → v ≠ 0%Z →
  (∀ i j narrow, m ≠ CellClick i j narrow) →
  applyMove s m = s.
Proof.
  intros Hsel Hv Hv0 Hm.
  assert (strictEq (readCell (heap s) (initialPuzzle s) row col) 0 = false)
    as E0.
  { apply not_true_iff_false. rewrite strictEq_true. congruence. }
  destruct m as [key|value| |i j narrow]; cbn [applyMove].
  - unfold onKeyDown. rewrite Hsel, E0. by destruct (gameActive s).
  - unfold onNumberButton. rewrite Hsel, E0. by destruct (gameActive s).
  - unfold onClearButton. rewrite Hsel, E0. by destruct (gameActive s).
  - by destruct (Hm i j narrow).
Qed.

(** ** Starting a game *)

Lemma generate_emptyBoard g :
  ∃ G g', generateSolvedSudokuGrid emptyBoard g = Some (true, G, g') ∧
          SolvedGrid G.
Proof.
  destruct (generate_spec (S (emptyCells emptyBoard)) emptyBoard g)
    as ([[ok G] g'] & Hres & Hspec); [lia|apply emptyBoard_wf|].
  destruct Hspec as [[Hok HG] | (_ & _ & Hnone)]; cbn [fst snd] in *.
  - subst ok. exists G, g'. split; [done|apply HG].
  - destruct (Hnone sampleGrid).
    apply emptyBoard_completion, sampleGrid_solved.
Qed.

Lemma initializeGame_spec holes g s :
  ∃ s' g' G P B',
    initializeGame holes g s = Some (s', g') ∧
    heap s' !! solvedBoard s' = Some G ∧
    heap s' !! puzzleBoard s' = Some P ∧
    heap s' !! initialPuzzle s' = Some P ∧
    solvedBoard s' < puzzleBoard s' < initialPuzzle s' ∧
    selectedCell s' = None ∧ gameActive s' = true ∧
    SolvedGrid G ∧ board9x9 P ∧ extends P G ∧
    countSolutions P = Some (B', 1) ∧
    emptyCells P ≤ default 40 holes.
Proof.
  unfold initializeGame, alloc, generateSolvedSudokuGridAt, copyBoardAt, alloc.
  assert (deref (heap s ++ [emptyBoard]) (length (heap s)) = emptyBoard) as ->.
  { unfold deref. by rewrite lookup_app_r, Nat.sub_diag by lia. }
  destruct (generate_emptyBoard g) as (G & g1 & -> & HG).
  set (σ2 := <[length (heap s) := G]> (heap s ++ [emptyBoard])).
  assert (length σ2 = S (length (heap s))) as Hl2.
  { unfold σ2. rewrite length_insert, length_app. cbn. lia. }
  assert (deref σ2 (length (heap s)) = G) as ->.
  { unfold deref, σ2. rewrite list_lookup_insert_eq; [done|].
    rewrite length_app. cbn. lia. }
  rewrite copyBoard_id.
  destruct (createPuzzle_spec (σ2 ++ [G]) (length σ2) G (default 40 holes) g1)
    as (σ4 & puzzle & g2 & P & B' & -> & HP & Hpz & Hl4 & Hf4 & Hb & Hone
        & Hext & Hempty).
  { by rewrite lookup_app_r, Nat.sub_diag by lia. }
  { done. }
  rewrite length_app in Hpz, Hl4, Hf4. cbn in Hpz, Hl4, Hf4.
  rewrite copyBoard_id, (deref_lookup σ4 puzzle P HP).
  exists (renderBoard puzzle
            {| heap := σ4 ++ [P]; solvedBoard := length σ2;
               puzzleBoard := puzzle; initialPuzzle := length σ4;
               selectedCell := None; gameActive := true;
               boardView := boardView s; statusMessage := statusMessage s;
               numberPadShown := numberPadShown s;
               confettiShown := confettiShown s |}), g2, G, P, B'.
  cbn [heap solvedBoard puzzleBoard initialPuzzle selectedCell gameActive
       renderBoard withBoardView].
  split; [done|]. split.
  { rewrite lookup_app_l by lia. rewrite Hf4 by lia.
    by rewrite lookup_app_r, Nat.sub_diag by lia. }
  split; [rewrite lookup_app_l by lia; done|].
  split; [by rewrite lookup_app_r, Nat.sub_diag by lia|].
  split; [lia|]. split; [done|]. split; [done|]. split; [done|].
  split; [done|]. split; [done|]. split; [done|]. done.
Qed.

(** ** Winning *)

Lemma boardPerfect_true (σ : Store) puzzle solved :
  boardPerfect σ puzzle solved = true ↔
  ∀ i j, i < 9 → j < 9 →
    readCell σ puzzle i j ≠ Some 0%Z ∧
    readCell σ puzzle i j = readCell σ solved i j.
Proof.
  unfold boardPerfect. rewrite forallb_forall. split.
  - intros H i j Hi Hj.
    specialize (H (i, j)). cbn [fst snd] in H.
    rewrite negb_true_iff, orb_false_iff, negb_false_iff in H.
    rewrite bool_decide_eq_true in H.
    destruct H as [H0 Heq].
    { by apply list_elem_of_In, elem_of_allCells. }
    split; [|done]. intros E. apply strictEq_true in E. congruence.
  - intros H [i j] Hin. cbn [fst snd].
    apply list_elem_of_In, elem_of_allCells in Hin as [Hi Hj].
    destruct (H i j Hi Hj) as [H0 Heq].
    rewrite negb_true_iff, orb_false_iff, negb_false_iff.
    rewrite bool_decide_eq_true. split; [|done].
    apply not_true_iff_false. by rewrite strictEq_true.
Qed.

(** The session after the win has been declared. *)
Definition wonSession (s : Session) : Session :=
  showConfetti
    (setStatusMessage "Congratulations! You solved the puzzle!" true
       (withGameActive s false)).

(** ** Checking the answers *)

(** The positions the specification calls errors: user-editable, non-empty
    and different from the Solved Grid. *)
Definition isErrorPosition (s : Session) (p : Pos) : Prop :=
  readCell (heap s) (initialPuzzle s) p.1 p.2 = Some 0%Z ∧
  readCell (heap s) (puzzleBoard s) p.1 p.2 ≠ Some 0%Z ∧
  readCell (heap s) (puzzleBoard s) p.1 p.2
    ≠ readCell (heap s) (solvedBoard s) p.1 p.2.

#[local] Instance isErrorPosition_dec s p : Decision (isErrorPosition s p).
Proof. unfold isErrorPosition. apply _. Defined.

Definition errorPositions (s : Session) : list Pos :=
  filter (isErrorPosition s) allCells.

Lemma flagsError_true s p : flagsError s p = true ↔ isErrorPosition s p.
Proof.
  unfold flagsError, isErrorPosition.
  rewrite !andb_true_iff, !negb_true_iff, strictEq_true.
  rewrite bool_decide_eq_false, <- not_true_iff_false, strictEq_true.
  tauto.
Qed.

Lemma hasErrors_true s :
  hasErrors s = true ↔ ∃ p, inGrid p ∧ isErrorPosition s p.
Proof.
  unfold hasErrors. rewrite existsb_exists.
  apply exist_proper. intros p.
  rewrite <- list_elem_of_In, elem_of_allCells, flagsError_true. tauto.
Qed.

Lemma elem_of_errorPositions s p :
  p ∈ errorPositions s ↔ inGrid p ∧ isErrorPosition s p.
Proof.
  unfold errorPositions. rewrite list_elem_of_filter, elem_of_allCells. tauto.
Qed.

Lemma hasErrors_errorPositions s :
  hasErrors s = true ↔ errorPositions s ≠ [].
Proof.
  rewrite hasErrors_true. split.
  - intros (p & Hp) E. apply elem_of_errorPositions in Hp.
    rewrite E in Hp. by apply elem_of_nil in Hp.
  - intros Hne. destruct (errorPositions s) as [|p l] eqn:E; [done|].
    exists p. apply elem_of_errorPositions. rewrite E.
    apply elem_of_cons. by left.
Qed.

(** ** Puzzles carved from a Solved Grid *)

Lemma extends_wfBoard P G :
  board9x9 P → (∀ i j, cell P i j = Some 0%Z ∨ cell P i j = cell G i j) →
  SolvedGrid G → wfBoard P.
Proof.
  intros Hb Hcells HG. split; [done|]. split.
  - intros i j v Hv. destruct (Hcells i j) as [H|H].
    + rewrite H in Hv. injection Hv as <-. lia.
    + rewrite H in Hv. by eapply solved_entriesInRange.
  - intros p q v Hp Hpeer Hvp Hvq.
    destruct (decide (v = 0%Z)) as [|Hv0]; [done|]. exfalso.
    apply (solved_peer_ne G p q v HG Hp Hpeer).
    + destruct (Hcells p.1 p.2) as [H|H]; congruence.
    + destruct (Hcells q.1 q.2) as [H|H]; congruence.
Qed.

Lemma length_two_elements (L : list Board) S1 S2 :
  S1 ≠ S2 → S1 ∈ L → S2 ∈ L → 2 ≤ length L.
Proof.
  intros Hne H1 H2. destruct L as [|a [|b l]]; cbn; [|exfalso|lia].
  - by apply elem_of_nil in H1.
  - apply list_elem_of_singleton in H1, H2. congruence.
Qed.

(** The meaning of the count: the number of completions, capped at 2. *)
Lemma countSolutions_meaning B :
  wfBoard B →
  ∃ B' n, countSolutions B = Some (B', n) ∧ n ≤ 2 ∧
    (n = 0 ↔ ∀ S, ¬ completion B S) ∧
    (n = 1 ↔ ∃ S, completion B S ∧ ∀ S', completion B S' → S' = S) ∧
    (n = 2 ↔ ∃ S1 S2, S1 ≠ S2 ∧ completion B S1 ∧ completion B S2) ∧
    (∀ L, enumerates (completion B) L → n = Nat.min (length L) 2) ∧
    (n = 2 → completion B B' ∧ B' ≠ B) ∧
    (n ≤ 1 → B' = B).
Proof.
  intros Hwf.
  destruct (countSolutions_result B Hwf) as ([B' n] & Hres & Hspec).
  exists B', n. split; [done|].
  destruct Hspec as [(Hn & HB' & L0 & [Hnd HL] & Hlen)
                    | (Hn & HB' & L1 & Hnd & HL & Hlen)];
    cbn [fst snd] in *.
  - cbn in Hlen. subst n. split; [lia|]. split; [|split; [|split; [|split]]].
    + split.
      * intros E S HS. apply HL in HS. destruct L0; [|done].
        by apply elem_of_nil in HS.
      * intros Hnone. destruct L0 as [|S l]; [done|].
        destruct (Hnone S). apply HL, elem_of_cons. by left.
    + split.
      * intros E. destruct L0 as [|S [|]]; try discriminate E.
        exists S. split; [apply HL, elem_of_cons; by left|].
        intros S' HS'. apply HL in HS'. by apply list_elem_of_singleton in HS'.
      * intros (S & HS & Huniq). apply HL in HS.
        destruct L0 as [|a [|b l]]; [by apply elem_of_nil in HS|done|].
        cbn in Hn. lia.
    + split; [lia|]. intros (S1 & S2 & Hne & H1 & H2).
      apply HL in H1, H2.
      pose proof (length_two_elements L0 S1 S2 Hne H1 H2). lia.
    + intros L HLenum.
      rewrite (enumerates_length (completion B) L L0 HLenum); [lia|done].
    + split; [lia|done].
  - subst n. assert (length L1 = 2) as Hlen2 by lia.
    destruct (two_of_length_2 (completion B) L1 Hnd HL Hlen2)
      as (S1 & S2 & Hne & H1 & H2).
    split; [lia|]. split; [|split; [|split; [|split; [|split]]]].
    + split; [lia|]. intros Hnone. by destruct (Hnone S1).
    + split; [lia|]. intros (S & HS & Huniq).
      destruct Hne. by rewrite (Huniq S1 H1), (Huniq S2 H2).
    + split; [|done]. intros _. by exists S1, S2.
    + intros L [_ HLenum].
      pose proof (length_two_elements L S1 S2 Hne) as Hge.
      rewrite <- !HLenum in H1, H2. specialize (Hge H1 H2). lia.
    + intros _. split; [done|]. intros ->.
      destruct Hwf as (Hb & _).
      destruct (findEmptyCell B) as [p|] eqn:Hfind.
      * apply findEmptyCell_Some in Hfind as [Hp H0].
        destruct (solved_cell B p (proj1 HB') Hp) as (v & Hv & Hr).
        assert (v = 0%Z) by congruence. lia.
      * rewrite (countSolutions_full B Hfind) in Hres. by injection Hres.
    + lia.
Qed.

(** A carved puzzle with count 1 has the grid it was carved from as its
    only completion. *)
Lemma carved_unique P G B' :
  board9x9 P → extends P G → SolvedGrid G →
  (∀ i j, cell P i j = Some 0%Z ∨ cell P i j = cell G i j) →
  countSolutions P = Some (B', 1) →
  ∀ S, completion P S ↔ S = G.
Proof.
  intros Hb Hext HG Hcells Hone S.
  destruct (countSolutions_meaning P (extends_wfBoard P G Hb Hcells HG))
    as (B'' & n & Hres & _ & _ & H1 & _).
  rewrite Hone in Hres. injection Hres as <- <-.
  destruct (proj1 H1 eq_refl) as (S0 & HS0 & Huniq).
  assert (completion P G) as HGc by done.
  split.
  - intros HS. by rewrite (Huniq S HS), (Huniq G HGc).
  - by intros ->.
Qed.

Lemma extends_cells P G :
  board9x9 P → board9x9 G → extends P G →
  ∀ i j, cell P i j = Some 0%Z ∨ cell P i j = cell G i j.
Proof.
  intros HP HG Hext i j.
  destruct (cell P i j) as [v|] eqn:Hv.
  - destruct (decide (v = 0%Z)) as [->|Hv0]; [by left|].
    right. symmetry. by apply Hext.
  - right. destruct (cell G i j) as [w|] eqn:Hw; [|done].
    destruct (cell_lt G i j w HG Hw) as [Hi Hj].
    destruct (cell_is_Some P i j HP Hi Hj) as [x Hx]. congruence.
Qed.

Lemma carve_total puzzle holes cells :
  Forall inGrid cells →
  ∀ σ removed, puzzle < length σ → board9x9 (deref σ puzzle) →
  is_Some (carve puzzle holes cells σ removed).
Proof.
  induction cells as [|[row col] rest IH]; intros Hcells σ removed Hp Hb.
  - by eexists.
  - apply list.Forall_cons in Hcells as [[Hrow Hcol] Hrest].
    cbn [fst snd] in Hrow, Hcol. specialize (IH Hrest). cbn [carve].
    destruct (holes <=? removed); [by eexists|].
    unfold readCell.
    destruct (cell_is_Some (deref σ puzzle) row col Hb Hrow Hcol)
      as [temp Htemp].
    rewrite Htemp.
    destruct (probe_total (writeCell σ puzzle row col 0) puzzle)
      as [[σ2 n] Hprobe].
    rewrite Hprobe.
    apply probe_frame in Hprobe as (Hlen2 & Hframe2 & _).
    rewrite length_writeCell in Hlen2, Hframe2.
    assert (deref σ2 puzzle = setCell (deref σ puzzle) row col 0) as Hp2.
    { unfold deref at 1. rewrite (Hframe2 puzzle Hp).
      apply deref_writeCell_eq. }
    destruct (negb (n =? 1)).
    + apply IH; [rewrite length_writeCell; lia|].
      rewrite deref_writeCell_eq, Hp2. by do 2 apply setCell_board9x9.
    + apply IH; [lia|]. rewrite Hp2. by apply setCell_board9x9.
Qed.

Lemma createPuzzle_total (σ : Store) board B holes g :
  σ !! board = Some B → board9x9 B →
  is_Some (createPuzzle σ board holes g).
Proof.
  intros HB Hb. unfold createPuzzle, copyBoardAt, alloc.
  rewrite copyBoard_id, (deref_lookup σ board B HB).
  pose proof (shuffle_allCells_inGrid g) as Hcells.
  destruct (shuffle allCells g) as [cells g']. cbn [fst] in Hcells.
  destruct (carve_total (length σ) holes cells Hcells (σ ++ [B]) 0)
    as [[σ2 removed] ->].
  - rewrite length_app. cbn. lia.
  - unfold deref. by rewrite lookup_app_r, Nat.sub_diag by lia.
  - by eexists.
Qed.

(** ** Givens that cannot be removed *)

(** The given at [p] cannot be removed: without it the board has two
    completions. *)
Definition necessary (P : Board) (p : Pos) : Prop :=
  ∃ S1 S2, S1 ≠ S2 ∧
    completion (setCell P p.1 p.2 0) S1 ∧ completion (setCell P p.1 p.2 0) S2.

Lemma completion_weaken B B' S :
  (∀ i j v, cell B' i j = Some v → v ≠ 0%Z → cell B i j = Some v) →
  completion B S → completion B' S.
Proof.
  intros Hsub [HS Hext]. split; [done|].
  intros i j v Hv Hv0. apply Hext; [|done]. by apply Hsub.
Qed.

Lemma setCell_zero_twice_sub P p r c i j v :
  cell (setCell (setCell P r c 0) p.1 p.2 0) i j = Some v → v ≠ 0%Z →
  cell (setCell P p.1 p.2 0) i j = Some v.
Proof.
  intros Hv Hv0. destruct (decide ((p.1, p.2) = (i, j))) as [[= <- <-]|Hnp].
  - exfalso. pose proof Hv as Hv'.
    apply cell_setCell_inv in Hv' as [[_ ->]|Hv']; [done|].
    rewrite cell_setCell_eq in Hv by (rewrite Hv'; eauto). congruence.
  - rewrite cell_setCell_ne in Hv by done. rewrite cell_setCell_ne by done.
    by apply cell_setCell_inv in Hv as [[_ ->]|Hv].
Qed.

Lemma necessary_setCell_zero P p r c :
  necessary P p → necessary (setCell P r c 0) p.
Proof.
  intros (S1 & S2 & Hne & H1 & H2). exists S1, S2. split; [done|].
  split; (eapply completion_weaken; [|eassumption]);
    intros i j v; apply setCell_zero_twice_sub.
Qed.

Lemma emptyCells_setCell_zero P r c t :
  inGrid (r, c) → cell P r c = Some t → t ≠ 0%Z →
  emptyCells (setCell P r c 0) = S (emptyCells P).
Proof.
  intros Hg Ht Ht0.
  pose proof (emptyCells_setCell_le P r c 0) as Hle.
  pose proof (emptyCells_setCell (setCell P r c 0) r c t Hg) as Hlt.
  rewrite (setCell_restore P r c 0%Z t Ht) in Hlt.
  specialize (Hlt (cell_setCell_eq P r c 0%Z ltac:(rewrite Ht; eauto)) Ht0).
  lia.
Qed.

(** The state of the carver between two rounds: besides [carveInv], the
    holes are exactly the removals counted, the cells still to visit are
    untouched, and every visited cell is a hole or a given that cannot be
    removed. *)
Definition carveProgress (G : Board) (puzzle : Ref) (rest : list Pos)
    (σ : Store) (removed : nat) : Prop :=
  emptyCells (deref σ puzzle) = removed ∧
  (∀ p, p ∈ rest → cell (deref σ puzzle) p.1 p.2 = cell G p.1 p.2) ∧
  (∀ p, inGrid p → p ∉ rest →
        cell (deref σ puzzle) p.1 p.2 = Some 0%Z ∨ necessary (deref σ puzzle) p).

Lemma carve_maximal G holes puzzle cells :
  SolvedGrid G → Forall inGrid cells → NoDup cells →
  ∀ σ removed σ' removed',
    carveInv G holes puzzle σ removed →
    carveProgress G puzzle cells σ removed →
    carve puzzle holes cells σ removed = Some (σ', removed') →
    emptyCells (deref σ' puzzle) = removed' ∧
    (removed' = holes ∨
     ∀ p, inGrid p →
       cell (deref σ' puzzle) p.1 p.2 = Some 0%Z ∨ necessary (deref σ' puzzle) p).
Proof.
  intros HG.
  induction cells as [|[row col] rest IH];
    intros Hcells Hnd σ removed σ' removed' Hinv Hprog Hrun.
  - injection Hrun as <- <-. destruct Hprog as (Hcount & _ & Hvisited).
    split; [done|]. right. intros p Hp. apply Hvisited; [done|].
    apply not_elem_of_nil.
  - apply list.Forall_cons in Hcells as [Hg Hrest].
    apply list.NoDup_cons in Hnd as [Hnotin Hnd].
    specialize (IH Hrest Hnd). cbn [carve] in Hrun.
    destruct Hinv as (Hp & Hb & Hext & Hone & Hempty & Hrem).
    destruct Hprog as (Hcount & Huntouched & Hvisited).
    destruct (holes <=? removed) eqn:Hbreak.
    { injection Hrun as <- <-. apply Nat.leb_le in Hbreak.
      split; [done|]. left. lia. }
    apply Nat.leb_gt in Hbreak.
    destruct (solved_cell G (row, col) HG Hg) as (t & Ht & Htr).
    cbn [fst snd] in Ht.
    assert (cell (deref σ puzzle) row col = Some t) as Htemp.
    { rewrite <- Ht. apply (Huntouched (row, col)), elem_of_cons. by left. }
    unfold readCell in Hrun. rewrite Htemp in Hrun.
    destruct (probe (writeCell σ puzzle row col 0) puzzle)
      as [[σ2 n]|] eqn:Hprobe; [|done].
    apply probe_frame in Hprobe as (Hlen2 & Hframe2 & B' & Hcountn).
    rewrite length_writeCell in Hlen2, Hframe2.
    rewrite deref_writeCell_eq in Hcountn.
    assert (deref σ2 puzzle = setCell (deref σ puzzle) row col 0) as Hp2.
    { unfold deref at 1. rewrite (Hframe2 puzzle Hp).
      apply deref_writeCell_eq. }
    set (P := deref σ puzzle) in *.
    assert (extends (setCell P row col 0) G) as Hext0
      by by apply extends_setCell_zero.
    assert (board9x9 (setCell P row col 0)) as Hb0
      by by apply setCell_board9x9.
    destruct (n =? 1) eqn:Hn; cbn [negb] in Hrun.
    + apply Nat.eqb_eq in Hn. subst n.
      apply (IH σ2 (removed + 1) σ' removed'); [| |done].
      * split; [lia|]. rewrite Hp2. split; [done|]. split; [done|].
        split; [eauto|].
        rewrite (emptyCells_setCell_zero P row col t Hg Htemp); lia.
      * unfold carveProgress. rewrite Hp2. split; [|split].
        -- rewrite (emptyCells_setCell_zero P row col t Hg Htemp); lia.
        -- intros [i j] Hq. cbn [fst snd].
           rewrite cell_setCell_ne by (intros [= -> ->]; done).
           apply (Huntouched (i, j)), elem_of_cons. by right.
        -- intros [i j] Hq Hnot. cbn [fst snd].
           destruct (decide ((row, col) = (i, j))) as [[= <- <-]|Hne].
           ++ left. apply cell_setCell_eq. fold P. rewrite Htemp. eauto.
           ++ rewrite cell_setCell_ne by done.
              destruct (Hvisited (i, j) Hq) as [H0|Hnec]; [|by left|].
              ** apply not_elem_of_cons. split; [congruence|done].
              ** right. by apply necessary_setCell_zero.
    + apply (IH (writeCell σ2 puzzle row col t) removed σ' removed');
        [| |done].
      * split; [rewrite length_writeCell; lia|].
        rewrite deref_writeCell_eq, Hp2, (setCell_restore _ _ _ _ _ Htemp).
        split; [done|]. split; [done|]. split; [done|]. split; [lia|lia].
      * unfold carveProgress.
        rewrite deref_writeCell_eq, Hp2, (setCell_restore _ _ _ _ _ Htemp).
        split; [done|]. split.
        -- intros q Hq. apply Huntouched, elem_of_cons. by right.
        -- intros [i j] Hq Hnot.
           destruct (decide ((row, col) = (i, j))) as [[= <- <-]|Hne].
           ++ right.
              destruct (countSolutions_meaning (setCell P row col 0))
                as (B'' & k & Hk & Hle & Hk0 & _ & Hk2 & _).
              { apply (extends_wfBoard _ G); [done| |done].
                apply extends_cells; [done|apply HG|done]. }
              rewrite Hcountn in Hk. injection Hk as <- <-.
              apply Hk2. apply Nat.eqb_neq in Hn.
              assert (n ≠ 0) as Hn0.
              { intros Hz. apply (proj1 Hk0 Hz G). by split. }
              lia.
           ++ apply Hvisited; [done|].
              apply not_elem_of_cons. split; [congruence|done].
Qed.

(** What [createPuzzle] returns on a Solved Grid. *)
Lemma createPuzzle_carved (σ : Store) board G holes g :
  σ !! board = Some G → SolvedGrid G →
  ∃ σ' puzzle g' P B',
    createPuzzle σ board holes g = Some (σ', puzzle, g') ∧
    σ' !! puzzle = Some P ∧
    board9x9 P ∧
    countSolutions P = Some (B', 1) ∧
    extends P G ∧
    emptyCells P ≤ holes ∧
    (emptyCells P = holes ∨
     (emptyCells P < holes ∧
      ∀ i j v, i < 9 → j < 9 → cell P i j = Some v → v ≠ 0%Z →
        ∃ B'', countSolutions (setCell P i j 0) = Some (B'', 2))).
Proof.
  intros HG Hsolved. unfold createPuzzle, copyBoardAt, alloc.
  rewrite copyBoard_id, (deref_lookup σ board G HG).
  pose proof (shuffle_allCells_inGrid g) as Hcells.
  pose proof (shuffle_Permutation allCells g) as Hperm.
  destruct (shuffle allCells g) as [cells g']. cbn [fst] in Hcells, Hperm.
  assert (deref (σ ++ [G]) (length σ) = G) as Hd.
  { unfold deref. by rewrite lookup_app_r, Nat.sub_diag by lia. }
  assert (carveInv G holes (length σ) (σ ++ [G]) 0) as Hinv.
  { split; [rewrite length_app; cbn; lia|]. rewrite Hd.
    split; [apply Hsolved|]. split; [apply extends_refl|].
    split; [exists G; apply countSolutions_full; by apply solved_full|].
    rewrite full_emptyCells by by apply solved_full. lia. }
  destruct (carve_spec G holes (length σ) cells Hcells (σ ++ [G]) 0 Hinv)
    as (σ' & removed' & Hrun & Hinv' & _ & _).
  destruct (carve_maximal G holes (length σ) cells Hsolved Hcells
              ltac:(rewrite Hperm; apply NoDup_allCells)
              (σ ++ [G]) 0 σ' removed' Hinv) as [Hcount Hmax]; [|done|].
  { unfold carveProgress. rewrite Hd. split; [|split].
    - apply full_emptyCells. by apply solved_full.
    - done.
    - intros p Hp Hnot. destruct Hnot. rewrite Hperm.
      by apply elem_of_allCells. }
  rewrite Hrun.
  destruct Hinv' as (Hp & Hb & Hext & [B' Hone] & _ & Hrem).
  set (P := deref σ' (length σ)) in *.
  exists σ', (length σ), g', P, B'.
  split; [done|]. split; [by apply lookup_deref|]. split; [done|].
  split; [done|]. split; [done|]. split; [lia|].
  destruct (decide (removed' = holes)) as [->|Hne]; [by left|].
  right. split; [lia|]. intros i j v Hi Hj Hv Hv0.
  destruct Hmax as [|Hmax]; [done|].
  destruct (Hmax (i, j)) as [H0|(S1 & S2 & Hne12 & H1 & H2)];
    [done|cbn [fst snd] in H0; congruence|].
  cbn [fst snd] in H1, H2.
  destruct (countSolutions_meaning (setCell P i j 0))
    as (B'' & n & Hn & _ & _ & _ & Hn2 & _).
  { apply (extends_wfBoard _ G); [by apply setCell_board9x9| |done].
    apply extends_cells; [by apply setCell_board9x9|apply Hsolved|].
    by apply extends_setCell_zero. }
  exists B''. rewrite Hn. do 2 f_equal. apply Hn2. eauto.
Qed.

(** ** The carver seen from the working puzzle

    The loop of [createPuzzle] written on the contents of the working
    puzzle alone: a round empties a cell, takes the count of the resulting
    contents and either puts the value back or counts the removal.  Nothing
    but the count comes back from the probe. *)
Fixpoint carveContents (holes : nat) (cells : list Pos) (P : Board)
    (removed : nat) : Board :=
  match cells with
  | [] => P
  | (row, col) :: rest =>
      if holes <=? removed then P
      else
        match countSolutions (setCell P row col 0) with
        | None => P
        | Some (_, solutionCount) =>
            if negb (solutionCount =? 1)
            then carveContents holes rest P removed
            else carveContents holes rest (setCell P row col 0) (removed + 1)
        end
  end.

(** One round of the loop: after the probe the working puzzle is the
    puzzle with the cell emptied, the objects that existed are as they
    were, and the loop goes on by the count alone. *)
Lemma carve_round puzzle holes row col rest (σ : Store) removed temp :
  puzzle < length σ → removed < holes →
  readCell σ puzzle row col = Some temp →
  ∃ (σ2 : Store) n B',
    probe (writeCell σ puzzle row col 0) puzzle = Some (σ2, n) ∧
    σ2 !! puzzle = Some (setCell (deref σ puzzle) row col 0) ∧
    (∀ ref, ref < length σ → ref ≠ puzzle → σ2 !! ref = σ !! ref) ∧
    countSolutions (setCell (deref σ puzzle) row col 0) = Some (B', n) ∧
    carve puzzle holes ((row, col) :: rest) σ removed
      = (if negb (n =? 1)
         then carve puzzle holes rest (writeCell σ2 puzzle row col temp)
                removed
         else carve puzzle holes rest σ2 (removed + 1)) ∧
    deref (writeCell σ2 puzzle row col temp) puzzle = deref σ puzzle.
Proof.
  intros Hp Hlt Htemp.
  destruct (probe_total (writeCell σ puzzle row col 0) puzzle)
    as [[σ2 n] Hprobe].
  pose proof Hprobe as Hprobe'.
  apply probe_frame in Hprobe' as (Hlen2 & Hframe2 & B' & Hcount).
  rewrite length_writeCell in Hlen2, Hframe2.
  rewrite deref_writeCell_eq in Hcount.
  assert (σ2 !! puzzle = Some (setCell (deref σ puzzle) row col 0)) as Hp2.
  { rewrite (Hframe2 puzzle Hp), <- deref_writeCell_eq.
    apply lookup_deref. by rewrite length_writeCell. }
  exists σ2, n, B'. split; [done|]. split; [done|]. split.
  { intros ref Href Hne. rewrite Hframe2 by done.
    by apply lookup_writeCell_ne. }
  split; [done|]. split.
  - cbn [carve]. apply Nat.leb_gt in Hlt. by rewrite Hlt, Htemp, Hprobe.
  - rewrite deref_writeCell_eq, (deref_lookup _ _ _ Hp2).
    by apply setCell_restore.
Qed.

Lemma carve_contents holes puzzle cells :
  Forall inGrid cells →
  ∀ (σ : Store) removed, puzzle < length σ → board9x9 (deref σ puzzle) →
  ∃ (σ' : Store) removed',
    carve puzzle holes cells σ removed = Some (σ', removed') ∧
    σ' !! puzzle
      = Some (carveContents holes cells (deref σ puzzle) removed) ∧
    length σ ≤ length σ' ∧
    (∀ ref, ref < length σ → ref ≠ puzzle → σ' !! ref = σ !! ref).
Proof.
  induction cells as [|[row col] rest IH]; intros Hcells σ removed Hp Hb.
  - exists σ, removed. split; [done|]. split; [by apply lookup_deref|].
    split; [lia|done].
  - apply list.Forall_cons in Hcells as [[Hrow Hcol] Hrest].
    cbn [fst snd] in Hrow, Hcol. specialize (IH Hrest).
    destruct (Nat.leb_spec holes removed) as [Hbreak|Hbreak].
    { exists σ, removed. cbn [carve carveContents].
      apply Nat.leb_le in Hbreak. rewrite Hbreak.
      split; [done|]. split; [by apply lookup_deref|]. split; [lia|done]. }
    destruct (cell_is_Some (deref σ puzzle) row col Hb Hrow Hcol)
      as [temp Htemp].
    destruct (carve_round puzzle holes row col rest σ removed temp Hp Hbreak
                Htemp)
      as (σ2 & n & B' & Hprobe & Hp2 & Hframe2 & Hcount & -> & Hback).
    apply probe_frame in Hprobe as (Hlen2 & _ & _).
    rewrite length_writeCell in Hlen2.
    cbn [carveContents]. apply Nat.leb_gt in Hbreak. rewrite Hbreak, Hcount.
    destruct (negb (n =? 1)).
    + destruct (IH (writeCell σ2 puzzle row col temp) removed)
        as (σ' & removed' & -> & Hcontents & Hl & Hf).
      { rewrite length_writeCell. lia. }
      { by rewrite Hback. }
      rewrite length_writeCell in Hl, Hf. rewrite Hback in Hcontents.
      exists σ', removed'. split; [done|]. split; [done|]. split; [lia|].
      intros ref Href Hne. rewrite Hf by (done || lia).
      rewrite lookup_writeCell_ne by done. by apply Hframe2.
    + destruct (IH σ2 (removed + 1))
        as (σ' & removed' & -> & Hcontents & Hl & Hf).
      { lia. }
      { rewrite (deref_lookup _ _ _ Hp2). by apply setCell_board9x9. }
      rewrite (deref_lookup _ _ _ Hp2) in Hcontents.
      exists σ', removed'. split; [done|]. split; [done|]. split; [lia|].
      intros ref Href Hne. rewrite Hf by (done || lia). by apply Hframe2.
Qed.

Lemma createPuzzle_contents (σ : Store) board B holes g :
  σ !! board = Some B → board9x9 B →
  ∃ (σ' : Store) puzzle g',
    createPuzzle σ board holes g = Some (σ', puzzle, g') ∧
    σ' !! puzzle = Some (carveContents holes (shuffle allCells g).1 B 0) ∧
    (∀ ref, ref < length σ → σ' !! ref = σ !! ref).
Proof.
  intros HB Hb. unfold createPuzzle, copyBoardAt, alloc.
  rewrite copyBoard_id, (deref_lookup σ board B HB).
  pose proof (shuffle_allCells_inGrid g) as Hcells.
  destruct (shuffle allCells g) as [cells g']. cbn [fst] in Hcells |- *.
  assert (deref (σ ++ [B]) (length σ) = B) as Hd.
  { unfold deref. by rewrite lookup_app_r, Nat.sub_diag by lia. }
  destruct (carve_contents holes (length σ) cells Hcells (σ ++ [B]) 0)
    as (σ' & removed' & -> & Hcontents & Hl & Hf).
  { rewrite length_app. cbn. lia. }
  { by rewrite Hd. }
  rewrite Hd in Hcontents.
  exists σ', (length σ), g'. split; [done|]. split; [done|].
  intros ref Href. rewrite Hf by (rewrite ?length_app; cbn; lia).
  by apply lookup_app_l.
Qed.

(** ** Sample sessions *)

(** [sampleGrid] with the cells (0,0), (0,1) and (3,0) emptied. *)
Definition samplePuzzle : Board :=
  [ [0; 0; 3; 4; 5; 6; 7; 8; 9];
    [4; 5; 6; 7; 8; 9; 1; 2; 3];
    [7; 8; 9; 1; 2; 3; 4; 5; 6];
    [0; 3; 4; 5; 6; 7; 8; 9; 1];
    [5; 6; 7; 8; 9; 1; 2; 3; 4];
    [8; 9; 1; 2; 3; 4; 5; 6; 7];
    [3; 4; 5; 6; 7; 8; 9; 1; 2];
    [6; 7; 8; 9; 1; 2; 3; 4; 5];
    [9; 1; 2; 3; 4; 5; 6; 7; 8] ]%Z.

(** [sampleGrid] with its first two rows emptied. *)
Definition twoRowsBlank : Board :=
  [ [0; 0; 0; 0; 0; 0; 0; 0; 0];
    [0; 0; 0; 0; 0; 0; 0; 0; 0];
    [7; 8; 9; 1; 2; 3; 4; 5; 6];
    [2; 3; 4; 5; 6; 7; 8; 9; 1];
    [5; 6; 7; 8; 9; 1; 2; 3; 4];
    [8; 9; 1; 2; 3; 4; 5; 6; 7];
    [3; 4; 5; 6; 7; 8; 9; 1; 2];
    [6; 7; 8; 9; 1; 2; 3; 4; 5];
    [9; 1; 2; 3; 4; 5; 6; 7; 8] ]%Z.

(** A session in play: the store holds the Solved Grid, the Play State and
    the Initial Puzzle; the player has selected [sel]. *)
Definition sessionWith (play : Board) (sel : option Pos) : Session :=
  {| heap := [sampleGrid; play; samplePuzzle];
     solvedBoard := 0; puzzleBoard := 1; initialPuzzle := 2;
     selectedCell := sel; gameActive := true; boardView := [];
     statusMessage := None; numberPadShown := false;
     confettiShown := false |}.

(** The random source that always draws 0. *)
Definition zeroRng : Rng := fun _ => 0.

(** ** Cells marked incorrect *)

Lemma incorrect_renderCell s board p :
  incorrect (renderCell s board p) = true ↔
  readCell (heap s) (initialPuzzle s) p.1 p.2 = Some 0%Z ∧
  ∃ v, readCell (heap s) board p.1 p.2 = Some v ∧ v ≠ 0%Z ∧
       isValidPlacement (deref (heap s) board) v p = false.
Proof.
  destruct p as [i j]. unfold renderCell. cbn [fst snd].
  destruct (strictEq (readCell (heap s) (initialPuzzle s) i j) 0) eqn:E0;
    cbn [negb].
  - apply strictEq_true in E0.
    destruct (strictEq (readCell (heap s) board i j) 0) eqn:Ev; cbn [negb].
    + apply strictEq_true in Ev. cbn [incorrect]. split; [done|].
      intros (_ & v & Hv & Hv0 & _). congruence.
    + cbn [incorrect]. apply not_true_iff_false in Ev.
      rewrite strictEq_true in Ev.
      destruct (readCell (heap s) board i j) as [v|]; split.
      * intros H%negb_true_iff. split; [done|]. exists v.
        split; [done|]. split; [congruence|done].
      * intros (_ & w & [= <-] & _ & H). by rewrite H.
      * done.
      * by intros (_ & w & [=] & _).
  - cbn [incorrect]. split; [done|]. intros [H _].
    apply strictEq_true in H. congruence.
Qed.

(** * The claims *)

(** C1: for every Solved Grid [G] and every hole count [holes],
    [createPuzzle(G, holes)] returns a 9x9 board [P] on which
    [countSolutions] returns 1, whose non-zero cells equal the corresponding
    cells of [G], and which has at most [holes] zero cells: exactly [holes],
    or fewer and then no further removal keeps the solution unique
    (emptying any given of [P] gives a board on which [countSolutions]
    returns 2). *)
Theorem createPuzzle_unique_solution (σ : Store) board G holes g :
  σ !! board = Some G → SolvedGrid G →
  ∃ σ' puzzle g' P B',
    createPuzzle σ board holes g = Some (σ', puzzle, g') ∧
    σ' !! puzzle = Some P ∧
    board9x9 P ∧
    countSolutions P = Some (B', 1) ∧
    (∀ i j v, cell P i j = Some v → v ≠ 0%Z → cell G i j = Some v) ∧
    emptyCells P ≤ holes ∧
    (emptyCells P = holes ∨
     (emptyCells P < holes ∧
      ∀ i j v, i < 9 → j < 9 → cell P i j = Some v → v ≠ 0%Z →
        ∃ B'', countSolutions (setCell P i j 0) = Some (B'', 2))).
Proof.
  intros HG Hsolved.
  destruct (createPuzzle_carved σ board G holes g HG Hsolved)
    as (σ' & puzzle & g' & P & B' & Hrun & HP & Hb & Hone & Hext & Hempty
        & Hstop).
  exists σ', puzzle, g', P, B'.
  split; [done|]. split; [done|]. split; [done|]. split; [done|].
  split; [exact Hext|]. split; [done|]. exact Hstop.
Qed.

Lemma createPuzzle_unique_solution_witness :
  ([sampleGrid] : Store) !! 0 = Some sampleGrid ∧ SolvedGrid sampleGrid ∧
  ∃ σ' puzzle g' P B',
    createPuzzle [sampleGrid] 0 40 zeroRng = Some (σ', puzzle, g') ∧
    σ' !! puzzle = Some P ∧
    board9x9 P ∧
    countSolutions P = Some (B', 1) ∧
    (∀ i j v, cell P i j = Some v → v ≠ 0%Z → cell sampleGrid i j = Some v) ∧
    emptyCells P ≤ 40 ∧
    (emptyCells P = 40 ∨
     (emptyCells P < 40 ∧
      ∀ i j v, i < 9 → j < 9 → cell P i j = Some v → v ≠ 0%Z →
        ∃ B'', countSolutions (setCell P i j 0) = Some (B'', 2))).
Proof.
  split; [reflexivity|]. split.
  - apply (bool_decide_unpack _). vm_compute. exact I.
  - apply (createPuzzle_unique_solution [sampleGrid] 0 sampleGrid 40 zeroRng).
    + reflexivity.
    + apply (bool_decide_unpack _). vm_compute. exact I.
Defined.

Lemma solved_exactly_once G u v :
  SolvedGrid G → u ∈ units → (1 ≤ v ≤ 9)%Z →
  ∃ p, p ∈ u ∧ cell G p.1 p.2 = Some v ∧
       ∀ q, q ∈ u → cell G q.1 q.2 = Some v → q = p.
Proof.
  intros HG Hu Hv. destruct (unit_facts u Hu) as (Hnd & _ & Hin & Hpeer).
  assert (v ∈ valueAt G <$> u) as Hv'.
  { rewrite (proj2 HG u Hu). by apply elem_of_digits. }
  apply list_elem_of_fmap in Hv' as (p & -> & Hp). exists p.
  split; [done|]. split; [apply valueAt_cell; [apply HG|by apply Hin]|].
  intros q Hq Hvq. destruct (decide (q = p)) as [|Hne]; [done|]. exfalso.
  apply (solved_peer_ne G p q (valueAt G p) HG (Hin p Hp) (Hpeer p q Hp Hq Hne));
    [|done].
  apply valueAt_cell; [apply HG|by apply Hin].
Qed.

(** C2: on the empty 9x9 board [generateSolvedSudokuGrid] returns [true],
    whatever the random draws, and leaves a Solved Grid: every cell is in
    1..9 and every row, column and box holds each of 1..9 exactly once. *)
Theorem generateSolvedSudokuGrid_empty g :
  ∃ G g',
    generateSolvedSudokuGrid emptyBoard g = Some (true, G, g') ∧
    SolvedGrid G ∧
    (∀ i j, i < 9 → j < 9 → ∃ v, cell G i j = Some v ∧ (1 ≤ v ≤ 9)%Z) ∧
    (∀ u v, u ∈ units → (1 ≤ v ≤ 9)%Z →
       ∃ p, p ∈ u ∧ cell G p.1 p.2 = Some v ∧
            ∀ q, q ∈ u → cell G q.1 q.2 = Some v → q = p).
Proof.
  destruct (generate_emptyBoard g) as (G & g' & Hrun & HG).
  exists G, g'. split; [done|]. split; [done|]. split.
  - intros i j Hi Hj. by apply (solved_cell G (i, j)).
  - intros u v Hu Hv. by apply solved_exactly_once.
Qed.

Lemma generateSolvedSudokuGrid_empty_witness :
  ∃ G g',
    generateSolvedSudokuGrid emptyBoard zeroRng = Some (true, G, g') ∧
    SolvedGrid G ∧
    (∀ i j, i < 9 → j < 9 → ∃ v, cell G i j = Some v ∧ (1 ≤ v ≤ 9)%Z) ∧
    (∀ u v, u ∈ units → (1 ≤ v ≤ 9)%Z →
       ∃ p, p ∈ u ∧ cell G p.1 p.2 = Some v ∧
            ∀ q, q ∈ u → cell G q.1 q.2 = Some v → q = p).
Proof. exact (generateSolvedSudokuGrid_empty zeroRng). Defined.

(** C3: on a 9x9 board with entries in 0..9, for a value in 1..9 and a
    position of the grid, [isValidPlacement] returns [false] exactly when
    the value occurs at another cell of the position's row, column or 3x3
    box (rows [floor(r/3)*3 .. +2], columns [floor(c/3)*3 .. +2]).  The
    function only reads the board: its embedding returns the boolean and
    no new board contents. *)
Theorem isValidPlacement_false_iff B v r c :
  board9x9 B → entriesInRange B → (1 ≤ v ≤ 9)%Z → r < 9 → c < 9 →
  isValidPlacement B v (r, c) = false ↔
  ∃ i j, (i, j) ≠ (r, c) ∧ cell B i j = Some v ∧
         ((i = r ∧ j < 9) ∨ (j = c ∧ i < 9) ∨
          (r / 3 * 3 ≤ i ≤ r / 3 * 3 + 2 ∧ c / 3 * 3 ≤ j ≤ c / 3 * 3 + 2)).
Proof.
  intros _ _ _ _ _. rewrite isValidPlacement_false_peer. split.
  - intros ([i j] & [Hne Hpeer] & Hv). exists i, j. by repeat split.
  - intros (i & j & Hne & Hv & Hpeer). exists (i, j). by repeat split.
Qed.

Lemma isValidPlacement_false_iff_witness :
  isValidPlacement samplePuzzle 3 (0, 0) = false ↔
  ∃ i j, (i, j) ≠ (0, 0) ∧ cell samplePuzzle i j = Some 3%Z ∧
         ((i = 0 ∧ j < 9) ∨ (j = 0 ∧ i < 9) ∨
          (0 / 3 * 3 ≤ i ≤ 0 / 3 * 3 + 2 ∧ 0 / 3 * 3 ≤ j ≤ 0 / 3 * 3 + 2)).
Proof.
  apply (isValidPlacement_false_iff samplePuzzle 3 0 0).
  - apply (bool_decide_unpack _). vm_compute. exact I.
  - apply (bool_decide_unpack _). vm_compute. exact I.
  - lia.
  - lia.
  - lia.
Defined.

(** C4: on a 9x9 board whose non-zero entries satisfy the Sudoku
    constraints, [countSolutions] returns the number of completions to a
    Solved Grid when that number is 0 or 1 and returns 2 when there are two
    or more; it never returns more than 2, and when it returns 2 it has
    stopped at the second solution, which is left on the board. *)
Theorem countSolutions_capped B :
  board9x9 B → entriesInRange B → consistent B →
  ∃ B' n, countSolutions B = Some (B', n) ∧ n ≤ 2 ∧
    (n = 0 ↔ ∀ S, ¬ completion B S) ∧
    (n = 1 ↔ ∃ S, completion B S ∧ ∀ S', completion B S' → S' = S) ∧
    (n = 2 ↔ ∃ S1 S2, S1 ≠ S2 ∧ completion B S1 ∧ completion B S2) ∧
    (∀ L, enumerates (completion B) L → n = Nat.min (length L) 2) ∧
    (n = 2 → completion B B' ∧ B' ≠ B) ∧
    (n ≤ 1 → B' = B).
Proof.
  intros Hb Hr Hc. by apply countSolutions_meaning.
Qed.

Lemma countSolutions_capped_witness :
  ∃ B' n, countSolutions twoRowsBlank = Some (B', n) ∧ n ≤ 2 ∧
    (n = 0 ↔ ∀ S, ¬ completion twoRowsBlank S) ∧
    (n = 1 ↔ ∃ S, completion twoRowsBlank S ∧
                  ∀ S', completion twoRowsBlank S' → S' = S) ∧
    (n = 2 ↔ ∃ S1 S2, S1 ≠ S2 ∧ completion twoRowsBlank S1 ∧
                      completion twoRowsBlank S2) ∧
    (∀ L, enumerates (completion twoRowsBlank) L → n = Nat.min (length L) 2) ∧
    (n = 2 → completion twoRowsBlank B' ∧ B' ≠ twoRowsBlank) ∧
    (n ≤ 1 → B' = twoRowsBlank).
Proof.
  apply (countSolutions_capped twoRowsBlank).
  - apply (bool_decide_unpack _). vm_compute. exact I.
  - apply (bool_decide_unpack _). vm_compute. exact I.
  - apply (bool_decide_unpack _). vm_compute. exact I.
Defined.

(** C5: the engine operations return on every 9x9 board: the recursion
    bound the embedding gives [generateSolvedSudokuGrid] and
    [countSolutions] is never reached, any larger bound gives the same
    result, and [createPuzzle] returns; [createPuzzle(G, 81)] on a Solved
    Grid [G] returns a board with exactly one solution, [G] itself. *)
Theorem engine_terminates :
  (∀ B g, board9x9 B → is_Some (generateSolvedSudokuGrid B g)) ∧
  (∀ B g fuel, emptyCells B < fuel →
     generateSolvedSudokuGrid_fuel fuel B g = generateSolvedSudokuGrid B g) ∧
  (∀ B, board9x9 B → is_Some (countSolutions B)) ∧
  (∀ B fuel, emptyCells B < fuel → solve fuel B 0 = countSolutions B) ∧
  (∀ (σ : Store) board B holes g,
     σ !! board = Some B → board9x9 B →
     is_Some (createPuzzle σ board holes g)) ∧
  (∀ (σ : Store) board G g,
     σ !! board = Some G → SolvedGrid G →
     ∃ σ' puzzle g' P B',
       createPuzzle σ board 81 g = Some (σ', puzzle, g') ∧
       σ' !! puzzle = Some P ∧
       countSolutions P = Some (B', 1) ∧
       ∀ S, completion P S ↔ S = G).
Proof.
  split; [|split; [|split; [|split; [|split]]]].
  - intros B g _. unfold generateSolvedSudokuGrid.
    destruct (generate_total (S (emptyCells B)) B g) as (res & -> & _);
      [lia|by eexists].
  - intros B g fuel Hfuel. unfold generateSolvedSudokuGrid.
    destruct (generate_total (S (emptyCells B)) B g) as (res & Hres & _);
      [lia|].
    rewrite Hres. eapply generate_mono; [|exact Hres]. lia.
  - intros B _. apply countSolutions_total.
  - intros B fuel Hfuel. unfold countSolutions.
    destruct (solve_total (S (emptyCells B)) B 0) as (res & Hres & _); [lia|].
    rewrite Hres. eapply solve_mono; [|exact Hres]. lia.
  - intros σ board B holes g HB Hb. by eapply createPuzzle_total.
  - intros σ board G g HG Hsolved.
    destruct (createPuzzle_spec σ board G 81 g HG Hsolved)
      as (σ' & puzzle & g' & P & B' & Hrun & HP & _ & _ & _ & Hb & Hone
          & Hext & _).
    exists σ', puzzle, g', P, B'. split; [done|]. split; [done|].
    split; [done|].
    apply (carved_unique P G B'); [done..| |done].
    apply extends_cells; [done|apply Hsolved|done].
Qed.

Lemma engine_terminates_witness :
  ([sampleGrid] : Store) !! 0 = Some sampleGrid ∧ SolvedGrid sampleGrid ∧
  ∃ σ' puzzle g' P B',
    createPuzzle [sampleGrid] 0 81 zeroRng = Some (σ', puzzle, g') ∧
    σ' !! puzzle = Some P ∧
    countSolutions P = Some (B', 1) ∧
    ∀ S, completion P S ↔ S = sampleGrid.
Proof.
  split; [reflexivity|]. split.
  - apply (bool_decide_unpack _). vm_compute. exact I.
  - apply (proj2 (proj2 (proj2 (proj2 (proj2 engine_terminates))))
             [sampleGrid] 0 sampleGrid zeroRng).
    + reflexivity.
    + apply (bool_decide_unpack _). vm_compute. exact I.
Defined.

(** C6: through every sequence of moves (keys, number pad, clear button,
    cell clicks) a cell at which the Initial Puzzle is non-zero keeps its
    value in the Play State and in the Initial Puzzle; a key or button
    pressed while such a cell is selected leaves the whole session as it
    was; after [initializeGame] the value kept is the one of the Initial
    Puzzle. *)
Theorem given_cells_invariant :
  (∀ s moves i j v,
     readCell (heap s) (initialPuzzle s) i j = Some v → v ≠ 0%Z →
     readCell (heap (applyMoves s moves)) (puzzleBoard (applyMoves s moves)) i j
       = readCell (heap s) (puzzleBoard s) i j ∧
     readCell (heap (applyMoves s moves)) (initialPuzzle (applyMoves s moves))
       i j = Some v) ∧
  (∀ s m row col v,
     selectedCell s = Some (row, col) →
     readCell (heap s) (initialPuzzle s) row col = Some v → v ≠ 0%Z →
     (∀ i j narrow, m ≠ CellClick i j narrow) →
     applyMove s m = s) ∧
  (∀ holes g s0 s1 g1 moves i j v,
     initializeGame holes g s0 = Some (s1, g1) →
     readCell (heap s1) (initialPuzzle s1) i j = Some v → v ≠ 0%Z →
     readCell (heap (applyMoves s1 moves)) (puzzleBoard (applyMoves s1 moves))
       i j = Some v).
Proof.
  split; [|split].
  - intros s moves i j v. apply applyMoves_given.
  - intros s m row col v. apply move_on_given_noop.
  - intros holes g s0 s1 g1 moves i j v Hinit Hv Hv0.
    destruct (initializeGame_spec holes g s0)
      as (s' & g' & G & P & B' & Hrun & _ & HP & HI & _).
    rewrite Hrun in Hinit. injection Hinit as <- <-.
    destruct (applyMoves_given moves s' i j v Hv Hv0) as [-> _].
    unfold readCell in *.
    by rewrite (deref_lookup _ _ _ HP), <- (deref_lookup _ _ _ HI).
Qed.

Lemma given_cells_invariant_witness :
  (readCell (heap (renderBoard 1 (sessionWith samplePuzzle (Some (0, 0)))))
     (initialPuzzle (renderBoard 1 (sessionWith samplePuzzle (Some (0, 0)))))
     0 2 = Some 3%Z ∧ 3%Z ≠ 0%Z) ∧
  readCell
    (heap (applyMoves (renderBoard 1 (sessionWith samplePuzzle (Some (0, 0))))
             [KeyDown "5"; NumberButton 7; ClearButton; KeyDown "2";
              CellClick 0 1 true; KeyDown "Backspace"]))
    (puzzleBoard
       (applyMoves (renderBoard 1 (sessionWith samplePuzzle (Some (0, 0))))
          [KeyDown "5"; NumberButton 7; ClearButton; KeyDown "2";
           CellClick 0 1 true; KeyDown "Backspace"])) 0 2
  = readCell (heap (renderBoard 1 (sessionWith samplePuzzle (Some (0, 0)))))
      (puzzleBoard (renderBoard 1 (sessionWith samplePuzzle (Some (0, 0)))))
      0 2.
Proof.
  split; [split; [reflexivity|discriminate]|].
  apply (proj1 given_cells_invariant
           (renderBoard 1 (sessionWith samplePuzzle (Some (0, 0))))
           [KeyDown "5"; NumberButton 7; ClearButton; KeyDown "2";
            CellClick 0 1 true; KeyDown "Backspace"] 0 2 3%Z).
  - reflexivity.
  - discriminate.
Defined.

(** C7: [checkWinCondition] declares the game won exactly when the Play
    State has no zero cell and equals the Solved Grid cell for cell; a full
    board with a cell that differs from the Solved Grid is not a win. *)
Theorem checkWinCondition_iff s :
  (boardPerfect (heap s) (puzzleBoard s) (solvedBoard s) = true ↔
   ∀ i j, i < 9 → j < 9 →
     readCell (heap s) (puzzleBoard s) i j ≠ Some 0%Z ∧
     readCell (heap s) (puzzleBoard s) i j
       = readCell (heap s) (solvedBoard s) i j) ∧
  checkWinCondition s
    = (if boardPerfect (heap s) (puzzleBoard s) (solvedBoard s)
       then wonSession s else s) ∧
  gameActive (wonSession s) = false ∧
  statusMessage (wonSession s)
    = Some ("Congratulations! You solved the puzzle!"%string, true) ∧
  (gameActive s = true →
   (gameActive (checkWinCondition s) = false ↔
    ∀ i j, i < 9 → j < 9 →
      readCell (heap s) (puzzleBoard s) i j ≠ Some 0%Z ∧
      readCell (heap s) (puzzleBoard s) i j
        = readCell (heap s) (solvedBoard s) i j)) ∧
  ((∀ i j, i < 9 → j < 9 →
      readCell (heap s) (puzzleBoard s) i j ≠ Some 0%Z) →
   (∃ i j, i < 9 ∧ j < 9 ∧
      readCell (heap s) (puzzleBoard s) i j
        ≠ readCell (heap s) (solvedBoard s) i j) →
   checkWinCondition s = s).
Proof.
  pose proof (boardPerfect_true (heap s) (puzzleBoard s) (solvedBoard s))
    as Hperfect.
  split; [done|]. split; [done|]. split; [done|]. split; [done|]. split.
  - intros Hactive. rewrite <- Hperfect. unfold checkWinCondition.
    destruct (boardPerfect _ _ _); [done|]. rewrite Hactive. done.
  - intros _ (i & j & Hi & Hj & Hbad). unfold checkWinCondition.
    destruct (boardPerfect _ _ _); [|done].
    by destruct (proj1 Hperfect eq_refl i j Hi Hj) as [_ Heq].
Qed.

Lemma checkWinCondition_iff_witness :
  gameActive (sessionWith sampleGrid None) = true ∧
  (gameActive (checkWinCondition (sessionWith sampleGrid None)) = false ↔
   ∀ i j, i < 9 → j < 9 →
     readCell (heap (sessionWith sampleGrid None))
       (puzzleBoard (sessionWith sampleGrid None)) i j ≠ Some 0%Z ∧
     readCell (heap (sessionWith sampleGrid None))
       (puzzleBoard (sessionWith sampleGrid None)) i j
       = readCell (heap (sessionWith sampleGrid None))
           (solvedBoard (sessionWith sampleGrid None)) i j).
Proof.
  split; [reflexivity|].
  apply (proj1 (proj2 (proj2 (proj2 (proj2
           (checkWinCondition_iff (sessionWith sampleGrid None))))))).
  reflexivity.
Defined.

(** C8 as the specification states it fails: [checkAnswers] returns no
    set of positions.  What it reports is the status message, and that only
    tells whether the set is empty: two sessions whose error positions
    differ, (0,0) in the one and (0,1) in the other, get the same report. *)
Lemma checkAnswers_report_same_for_different_sets :
  let s1 := sessionWith (setCell samplePuzzle 0 0 2) None in
  let s2 := sessionWith (setCell samplePuzzle 0 1 1) None in
  errorPositions s1 = [(0, 0)] ∧
  errorPositions s2 = [(0, 1)] ∧
  errorPositions s1 ≠ errorPositions s2 ∧
  statusMessage (checkAnswers s1) = statusMessage (checkAnswers s2).
Proof.
  intros s1 s2. split; [|split; [|split]].
  - vm_compute. reflexivity.
  - vm_compute. reflexivity.
  - vm_compute. discriminate.
  - vm_compute. reflexivity.
Qed.

(** C8, amended: the test of the loops of [checkAnswers] holds at a cell
    exactly when the cell is user-editable, non-empty and different from
    the Solved Grid; [checkAnswers] reports whether the set of these
    positions is empty, in the status message, and changes no board; right
    after [initializeGame], whatever the number of holes, the set is empty
    and the report is the success message. *)
Theorem checkAnswers_reports s :
  (∀ p, flagsError s p = true ↔ isErrorPosition s p) ∧
  (∀ p, p ∈ errorPositions s ↔ inGrid p ∧ flagsError s p = true) ∧
  (hasErrors s = true ↔ errorPositions s ≠ []) ∧
  (statusMessage (checkAnswers s)
     = Some ("Some answers are incorrect. Keep trying!"%string, false) ↔
   errorPositions s ≠ []) ∧
  (statusMessage (checkAnswers s)
     = Some ("All your answers are correct so far! Keep going!"%string, true) ↔
   errorPositions s = []) ∧
  sameBoards s (checkAnswers s) ∧
  (∀ holes g s0 s1 g1,
     initializeGame holes g s0 = Some (s1, g1) →
     errorPositions s1 = [] ∧
     statusMessage (checkAnswers s1)
       = Some ("All your answers are correct so far! Keep going!"%string,
               true)).
Proof.
  assert (∀ s, statusMessage (checkAnswers s)
               = Some (if hasErrors s
                       then ("Some answers are incorrect. Keep trying!"%string,
                             false)
                       else ("All your answers are correct so far! Keep going!"
                               %string, true))) as Hstatus.
  { intros s'. unfold checkAnswers. by destruct (hasErrors s'). }
  assert (∀ s, errorPositions s = [] ↔ hasErrors s = false) as Hnone.
  { intros s'. rewrite <- not_true_iff_false, hasErrors_errorPositions.
    destruct (errorPositions s'); [tauto|]. split; [done|].
    intros H. by destruct H. }
  split; [apply flagsError_true|]. split.
  { intros p. rewrite elem_of_errorPositions, flagsError_true. tauto. }
  split; [apply hasErrors_errorPositions|]. split.
  { rewrite Hstatus, <- hasErrors_errorPositions.
    destruct (hasErrors s); [tauto|]. split; [done|]. done. }
  split.
  { rewrite Hstatus, Hnone. destruct (hasErrors s); [|tauto].
    split; [done|]. done. }
  split; [unfold checkAnswers; by destruct (hasErrors s)|].
  intros holes g s0 s1 g1 Hinit.
  destruct (initializeGame_spec holes g s0)
    as (s' & g' & G & P & B' & Hrun & HG & HP & HI & _).
  rewrite Hrun in Hinit. injection Hinit as <- <-.
  assert (hasErrors s' = false) as Hno.
  { apply not_true_iff_false. rewrite hasErrors_true.
    intros (p & _ & H0 & Hne & _). apply Hne.
    unfold readCell in *.
    by rewrite (deref_lookup _ _ _ HP), <- (deref_lookup _ _ _ HI). }
  split; [by apply Hnone|]. by rewrite Hstatus, Hno.
Qed.

Lemma checkAnswers_reports_witness :
  (errorPositions (sessionWith (setCell samplePuzzle 0 0 2) None) ≠ [] ∧
   statusMessage (checkAnswers (sessionWith (setCell samplePuzzle 0 0 2) None))
     = Some ("Some answers are incorrect. Keep trying!"%string, false)) ∧
  ∃ s1 g1,
    initializeGame None zeroRng (sessionWith samplePuzzle None)
      = Some (s1, g1) ∧
    errorPositions s1 = [] ∧
    statusMessage (checkAnswers s1)
      = Some ("All your answers are correct so far! Keep going!"%string, true).
Proof.
  split.
  - assert (errorPositions (sessionWith (setCell samplePuzzle 0 0 2) None)
            ≠ []) as Herr by (vm_compute; discriminate).
    split; [exact Herr|].
    exact (proj2 (proj1 (proj2 (proj2 (proj2
             (checkAnswers_reports
                (sessionWith (setCell samplePuzzle 0 0 2) None)))))) Herr).
  - destruct (initializeGame None zeroRng (sessionWith samplePuzzle None))
      as [[s1 g1]|] eqn:E.
    + exists s1, g1. split; [reflexivity|].
      exact (proj2 (proj2 (proj2 (proj2 (proj2 (proj2
               (checkAnswers_reports (sessionWith samplePuzzle None)))))))
               None zeroRng (sessionWith samplePuzzle None) s1 g1 E).
    + exfalso.
      destruct (initializeGame_spec None zeroRng
                  (sessionWith samplePuzzle None))
        as (s' & g' & _ & _ & _ & Hrun & _).
      rewrite Hrun in E. discriminate E.
Defined.

(** C9: [resetPuzzle] makes the Play State a new object with the contents
    of the Initial Puzzle, so that right afterwards the two agree cell for
    cell; the Solved Grid, the Initial Puzzle and every other object that
    existed stay as they were. *)
Theorem resetPuzzle_restores s I G :
  heap s !! initialPuzzle s = Some I →
  heap s !! solvedBoard s = Some G →
  heap (resetPuzzle s) !! puzzleBoard (resetPuzzle s) = Some I ∧
  (∀ i j,
     readCell (heap (resetPuzzle s)) (puzzleBoard (resetPuzzle s)) i j
     = readCell (heap (resetPuzzle s)) (initialPuzzle (resetPuzzle s)) i j) ∧
  initialPuzzle (resetPuzzle s) = initialPuzzle s ∧
  heap (resetPuzzle s) !! initialPuzzle s = Some I ∧
  solvedBoard (resetPuzzle s) = solvedBoard s ∧
  heap (resetPuzzle s) !! solvedBoard s = Some G ∧
  (∀ ref, ref < length (heap s) → heap (resetPuzzle s) !! ref = heap s !! ref) ∧
  puzzleBoard (resetPuzzle s) = length (heap s) ∧
  puzzleBoard (resetPuzzle s) ≠ initialPuzzle (resetPuzzle s).
Proof.
  intros HI HG.
  pose proof (lookup_lt_Some _ _ _ HI) as HlI.
  assert (heap (resetPuzzle s) = heap s ++ [I]) as Hheap.
  { unfold resetPuzzle, copyBoardAt, alloc.
    by rewrite copyBoard_id, (deref_lookup _ _ _ HI). }
  assert (puzzleBoard (resetPuzzle s) = length (heap s)) as Hp by done.
  assert (initialPuzzle (resetPuzzle s) = initialPuzzle s) as Hi by done.
  assert (solvedBoard (resetPuzzle s) = solvedBoard s) as Hs by done.
  rewrite Hheap, Hp, Hi, Hs.
  assert ((heap s ++ [I]) !! length (heap s) = Some I) as Hnew.
  { by rewrite lookup_app_r, Nat.sub_diag by lia. }
  assert (∀ ref, ref < length (heap s) →
                 (heap s ++ [I]) !! ref = heap s !! ref) as Hold.
  { intros ref Href. by apply lookup_app_l. }
  split; [done|]. split.
  { intros i j. unfold readCell, deref. by rewrite Hnew, Hold, HI. }
  split; [done|]. split; [by rewrite Hold|]. split; [done|].
  split; [rewrite Hold; [done|by eapply lookup_lt_Some]|].
  split; [done|]. split; [done|lia].
Qed.

Lemma resetPuzzle_restores_witness :
  let s := sessionWith (setCell samplePuzzle 0 0 2) (Some (0, 0)) in
  (heap s !! initialPuzzle s = Some samplePuzzle ∧
   heap s !! solvedBoard s = Some sampleGrid) ∧
  heap (resetPuzzle s) !! puzzleBoard (resetPuzzle s) = Some samplePuzzle ∧
  (∀ i j,
     readCell (heap (resetPuzzle s)) (puzzleBoard (resetPuzzle s)) i j
     = readCell (heap (resetPuzzle s)) (initialPuzzle (resetPuzzle s)) i j) ∧
  initialPuzzle (resetPuzzle s) = initialPuzzle s ∧
  heap (resetPuzzle s) !! initialPuzzle s = Some samplePuzzle ∧
  solvedBoard (resetPuzzle s) = solvedBoard s ∧
  heap (resetPuzzle s) !! solvedBoard s = Some sampleGrid ∧
  (∀ ref, ref < length (heap s) → heap (resetPuzzle s) !! ref = heap s !! ref) ∧
  puzzleBoard (resetPuzzle s) = length (heap s) ∧
  puzzleBoard (resetPuzzle s) ≠ initialPuzzle (resetPuzzle s).
Proof.
  intros s. split; [split; reflexivity|].
  apply (resetPuzzle_restores s samplePuzzle sampleGrid); reflexivity.
Defined.

(** C10: [countSolutions] works on the board object it receives: when it
    returns 2 it has left that object filled with the second solution
    instead of restoring it, and a board exists on which this happens.  A
    probe of [createPuzzle] runs it on a new copy: every object that existed
    before the probe is unchanged by it, and what the probe returns is the
    count of the working puzzle's contents.  So in every round of the
    carving loop the working puzzle after the probe is the puzzle with the
    cell emptied, and the loop goes on by the count alone; the puzzle the
    loop ends with, and the one [createPuzzle] returns, is the one obtained
    on the contents alone with the counts, and every other object that
    existed, the board given to [createPuzzle] among them, is as it was. *)
Theorem probe_leaves_puzzle :
  (∀ (σ σ' : Store) ref B n,
     σ !! ref = Some B → wfBoard B →
     countSolutionsAt σ ref = Some (σ', n) →
     (n = 2 → ∃ B', σ' !! ref = Some B' ∧ completion B B' ∧ B' ≠ B) ∧
     (n ≤ 1 → σ' !! ref = Some B)) ∧
  (∃ B', countSolutionsAt [twoRowsBlank] 0 = Some ([B'], 2) ∧
         B' ≠ twoRowsBlank) ∧
  (∀ (σ σ' : Store) puzzle n,
     probe σ puzzle = Some (σ', n) →
     (∀ ref, ref < length σ → σ' !! ref = σ !! ref) ∧
     ∃ B', countSolutions (deref σ puzzle) = Some (B', n)) ∧
  (∀ puzzle holes row col rest (σ : Store) removed temp,
     puzzle < length σ → removed < holes →
     readCell σ puzzle row col = Some temp →
     ∃ (σ2 : Store) n B',
       probe (writeCell σ puzzle row col 0) puzzle = Some (σ2, n) ∧
       σ2 !! puzzle = Some (setCell (deref σ puzzle) row col 0) ∧
       (∀ ref, ref < length σ → ref ≠ puzzle → σ2 !! ref = σ !! ref) ∧
       countSolutions (setCell (deref σ puzzle) row col 0) = Some (B', n) ∧
       carve puzzle holes ((row, col) :: rest) σ removed
         = (if negb (n =? 1)
            then carve puzzle holes rest (writeCell σ2 puzzle row col temp)
                   removed
            else carve puzzle holes rest σ2 (removed + 1)) ∧
       deref (writeCell σ2 puzzle row col temp) puzzle = deref σ puzzle) ∧
  (∀ puzzle holes cells (σ : Store) removed,
     Forall inGrid cells → puzzle < length σ → board9x9 (deref σ puzzle) →
     ∃ (σ' : Store) removed',
       carve puzzle holes cells σ removed = Some (σ', removed') ∧
       σ' !! puzzle
         = Some (carveContents holes cells (deref σ puzzle) removed) ∧
       (∀ ref, ref < length σ → ref ≠ puzzle → σ' !! ref = σ !! ref)) ∧
  (∀ (σ : Store) board B holes g,
     σ !! board = Some B → board9x9 B →
     ∃ (σ' : Store) puzzle g',
       createPuzzle σ board holes g = Some (σ', puzzle, g') ∧
       σ' !! puzzle = Some (carveContents holes (shuffle allCells g).1 B 0) ∧
       (∀ ref, ref < length σ → σ' !! ref = σ !! ref)).
Proof.
  split; [|split; [|split; [|split; [|split]]]].
  - intros σ σ' ref B n HB Hwf. unfold countSolutionsAt.
    rewrite (deref_lookup _ _ _ HB).
    destruct (countSolutions_meaning B Hwf)
      as (B' & k & -> & _ & _ & _ & _ & _ & H2 & H1).
    intros [= <- <-].
    pose proof (lookup_lt_Some _ _ _ HB) as Hlt.
    rewrite list_lookup_insert_eq by done. split.
    + intros Hk. exists B'. split; [done|]. by apply H2.
    + intros Hk. by rewrite (H1 Hk).
  - eexists. split; [vm_compute; reflexivity|]. vm_compute. discriminate.
  - intros σ σ' puzzle n Hprobe.
    apply probe_frame in Hprobe as (_ & Hframe & Hcount). done.
  - intros puzzle holes row col rest σ removed temp. apply carve_round.
  - intros puzzle holes cells σ removed Hcells Hp Hb.
    destruct (carve_contents holes puzzle cells Hcells σ removed Hp Hb)
      as (σ' & removed' & Hrun & Hcontents & _ & Hframe).
    by exists σ', removed'.
  - intros σ board B holes g. apply createPuzzle_contents.
Qed.

Lemma probe_leaves_puzzle_witness :
  (([sampleGrid] : Store) !! 0 = Some sampleGrid ∧ board9x9 sampleGrid) ∧
  ∃ (σ' : Store) puzzle g',
    createPuzzle [sampleGrid] 0 40 zeroRng = Some (σ', puzzle, g') ∧
    σ' !! puzzle
      = Some (carveContents 40 (shuffle allCells zeroRng).1 sampleGrid 0) ∧
    (∀ ref, ref < length ([sampleGrid] : Store) →
            σ' !! ref = ([sampleGrid] : Store) !! ref).
Proof.
  assert (board9x9 sampleGrid) as Hb.
  { apply (bool_decide_unpack _). vm_compute. exact I. }
  split; [split; [reflexivity|exact Hb]|].
  apply (proj2 (proj2 (proj2 (proj2 (proj2 probe_leaves_puzzle))))
           [sampleGrid] 0 sampleGrid 40 zeroRng).
  - reflexivity.
  - exact Hb.
Defined.

(** * Further properties of the engine *)

(** ** Shuffling *)

Lemma shuffleFrom_draws {A} n :
  ∀ (array : list A) g k, (shuffleFrom n array g).2 k = g (n + k).
Proof.
  induction n as [|n IH]; intros array g k.
  - reflexivity.
  - cbn [shuffleFrom randomBelow]. rewrite IH. reflexivity.
Qed.

(** X1: [shuffle] returns a permutation of the array it is given, whatever
    the random draws, and consumes one draw per loop round: [length - 1]
    draws (none for an empty or one-element array). *)
Theorem shuffle_permutes {A} (array : list A) (g : Rng) :
  (shuffle array g).1 ≡ₚ array ∧
  length (shuffle array g).1 = length array ∧
  ∀ k, (shuffle array g).2 k = g (length array - 1 + k).
Proof.
  split; [apply shuffle_Permutation|]. split.
  - apply Permutation_length, shuffle_Permutation.
  - intros k. apply shuffleFrom_draws.
Qed.

(** ** The first empty cell *)

Lemma find_first {A} (f : A → bool) (l : list A) x :
  find f l = Some x →
  ∃ k, l !! k = Some x ∧ f x = true ∧
       ∀ k' y, k' < k → l !! k' = Some y → f y = false.
Proof.
  induction l as [|a l IH]; [done|]. cbn [find].
  destruct (f a) eqn:Ea.
  - intros [= ->]. exists 0. split; [done|]. split; [done|]. lia.
  - intros H. destruct (IH H) as (k & Hk & Hx & Hbefore).
    exists (S k). split; [done|]. split; [done|].
    intros [|k'] y Hlt Hy; [by injection Hy as <-|].
    apply (Hbefore k' y); [lia|done].
Qed.

Lemma allCells_index :
  Forall (fun i => Forall (fun j => allCells !! (i * 9 + j) = Some (i, j))
                     (seq 0 9)) (seq 0 9).
Proof. by_computation. Qed.

Lemma allCells_lookup i j :
  i < 9 → j < 9 → allCells !! (i * 9 + j) = Some (i, j).
Proof.
  intros Hi Hj. pose proof allCells_index as H.
  rewrite list.Forall_forall in H.
  specialize (H i (proj2 (elem_of_seq 0 9 i) ltac:(lia))).
  rewrite list.Forall_forall in H.
  apply H, elem_of_seq. lia.
Qed.

(** X2: on a 9x9 board [findEmptyCell] returns the first cell holding 0
    in row-major order: the cell it returns is in the grid and holds 0, no
    cell before it does, and it returns [null] exactly when no cell of the
    grid holds 0. *)
Theorem findEmptyCell_first board :
  board9x9 board →
  (∀ r c, findEmptyCell board = Some (r, c) →
     r < 9 ∧ c < 9 ∧ cell board r c = Some 0%Z ∧
     ∀ i j, i < 9 → j < 9 → i < r ∨ (i = r ∧ j < c) →
            cell board i j ≠ Some 0%Z) ∧
  (findEmptyCell board = None ↔
   ∀ i j, i < 9 → j < 9 → cell board i j ≠ Some 0%Z).
Proof.
  intros _. split.
  - intros r c Hfind.
    destruct (findEmptyCell_Some board (r, c) Hfind) as [[Hr Hc] H0].
    cbn [fst snd] in Hr, Hc, H0. split; [done|]. split; [done|].
    split; [done|]. intros i j Hi Hj Hbefore Hz.
    apply find_first in Hfind as (k & Hk & _ & Hfirst).
    assert (k = r * 9 + c) as ->.
    { eapply NoDup_lookup; [apply NoDup_allCells|exact Hk|].
      by apply allCells_lookup. }
    specialize (Hfirst (i * 9 + j) (i, j)). cbn [fst snd] in Hfirst.
    rewrite (proj2 (strictEq_true _ _) Hz) in Hfirst.
    discriminate Hfirst; [lia|by apply allCells_lookup].
  - rewrite findEmptyCell_None. split.
    + intros H i j Hi Hj. by apply (H (i, j)).
    + intros H [i j] [Hi Hj]. by apply H.
Qed.

Lemma findEmptyCell_first_witness :
  board9x9 (setCell (setCell samplePuzzle 0 0 1) 0 1 2) ∧
  (∀ r c,
     findEmptyCell (setCell (setCell samplePuzzle 0 0 1) 0 1 2)
       = Some (r, c) →
     r < 9 ∧ c < 9 ∧
     cell (setCell (setCell samplePuzzle 0 0 1) 0 1 2) r c = Some 0%Z ∧
     ∀ i j, i < 9 → j < 9 → i < r ∨ (i = r ∧ j < c) →
            cell (setCell (setCell samplePuzzle 0 0 1) 0 1 2) i j
              ≠ Some 0%Z) ∧
  (findEmptyCell (setCell (setCell samplePuzzle 0 0 1) 0 1 2) = None ↔
   ∀ i j, i < 9 → j < 9 →
     cell (setCell (setCell samplePuzzle 0 0 1) 0 1 2) i j ≠ Some 0%Z).
Proof.
  assert (board9x9 (setCell (setCell samplePuzzle 0 0 1) 0 1 2)) as Hb.
  { apply (bool_decide_unpack _). vm_compute. exact I. }
  split; [exact Hb|].
  apply (findEmptyCell_first (setCell (setCell samplePuzzle 0 0 1) 0 1 2)).
  exact Hb.
Defined.

(** ** The constraint checker on its own cell and on Solved Grids *)

(** X3: [isValidPlacement] never looks at the cell it is asked about:
    whatever that cell holds, the answer is the same. *)
Theorem isValidPlacement_ignores_own_cell board num r c x :
  isValidPlacement (setCell board r c x) num (r, c)
  = isValidPlacement board num (r, c).
Proof.
  assert (∀ B1 B2 : Board,
            (∀ q, q ≠ (r, c) → cell B1 q.1 q.2 = cell B2 q.1 q.2) →
            isValidPlacement B1 num (r, c) = false →
            isValidPlacement B2 num (r, c) = false) as Hmono.
  { intros B1 B2 Heq H. apply isValidPlacement_false_peer.
    apply isValidPlacement_false_peer in H as (q & Hpeer & Hq).
    exists q. split; [done|]. rewrite <- Heq; [done|apply Hpeer]. }
  assert (∀ q : Pos, q ≠ (r, c) →
            cell (setCell board r c x) q.1 q.2 = cell board q.1 q.2) as Heq.
  { intros [i j] Hne. cbn [fst snd]. apply cell_setCell_ne.
    intros E. apply Hne. by rewrite E. }
  destruct (isValidPlacement board num (r, c)) eqn:E.
  - apply not_false_iff_true. intros H. apply not_false_iff_true in E.
    apply E. by apply (Hmono (setCell board r c x) board).
  - apply (Hmono board (setCell board r c x)); [|done].
    intros q Hq. symmetry. by apply Heq.
Qed.

Lemma rowUnit_in_units_lt r : r < 9 → rowUnit r ∈ units.
Proof.
  intros Hr. unfold units. apply elem_of_app. left.
  apply list_elem_of_fmap. exists r. split; [done|]. apply elem_of_seq. lia.
Qed.

Lemma elem_of_rowUnit r p : p ∈ rowUnit r ↔ p.1 = r ∧ p.2 < 9.
Proof.
  unfold rowUnit. rewrite list_elem_of_fmap. split.
  - intros (j & -> & Hj). apply elem_of_seq in Hj. cbn. lia.
  - intros [<- Hj]. exists p.2. split; [by destruct p|].
    apply elem_of_seq. lia.
Qed.

(** X4: in a Solved Grid the value of a cell is a valid placement at that
    cell, and each of the other eight digits is not. *)
Theorem isValidPlacement_solved G r c v :
  SolvedGrid G → r < 9 → c < 9 → cell G r c = Some v →
  isValidPlacement G v (r, c) = true ∧
  ∀ w, (1 ≤ w ≤ 9)%Z → w ≠ v → isValidPlacement G w (r, c) = false.
Proof.
  intros HG Hr Hc Hv. split.
  - apply (completion_valid G G r c v); [|done..].
    split; [done|apply extends_refl].
  - intros w Hw Hne. apply isValidPlacement_false_peer.
    destruct (solved_exactly_once G (rowUnit r) w HG
                (rowUnit_in_units_lt r Hr) Hw) as (p & Hp & Hpw & _).
    apply elem_of_rowUnit in Hp as [Hp1 Hp2].
    exists p. split; [|done]. split.
    + intros ->. cbn [fst snd] in Hpw. congruence.
    + left. done.
Qed.

Lemma isValidPlacement_solved_witness :
  isValidPlacement sampleGrid 5 (1, 1) = true ∧
  ∀ w, (1 ≤ w ≤ 9)%Z → w ≠ 5%Z → isValidPlacement sampleGrid w (1, 1) = false.
Proof.
  apply (isValidPlacement_solved sampleGrid 1 1 5).
  - apply (bool_decide_unpack _). vm_compute. exact I.
  - lia.
  - lia.
  - reflexivity.
Defined.

(** ** The generator on any board *)

(** X5: on a 9x9 board with entries in 0..9 and no conflict,
    [generateSolvedSudokuGrid] returns [true] exactly when the board can be
    completed to a Solved Grid, whatever the random draws; on [true] the
    board has been filled to such a completion (the cells given are kept),
    on [false] the board is restored to what it was. *)
Theorem generateSolvedSudokuGrid_complete B g :
  board9x9 B → entriesInRange B → consistent B →
  ∃ ok B' g',
    generateSolvedSudokuGrid B g = Some (ok, B', g') ∧
    (ok = true ↔ ∃ S, completion B S) ∧
    (ok = true → completion B B') ∧
    (ok = false → B' = B).
Proof.
  intros Hb Hr Hc.
  destruct (generate_spec (S (emptyCells B)) B g) as ([[ok B'] g'] & Hres & Hspec);
    [lia|done|].
  exists ok, B', g'. split; [done|].
  destruct Hspec as [[Hok HB'] | (Hok & HB' & Hnone)]; cbn [fst snd] in *;
    subst ok.
  - split; [split; [eauto|done]|]. split; [done|discriminate].
  - split; [|split; [discriminate|done]].
    split; [discriminate|]. intros [S HS]. by destruct (Hnone S).
Qed.

(** A consistent board without completion: the last cell of the first row
    needs 9, which its column already holds. *)
Definition deadEndBoard : Board :=
  [ [1; 2; 3; 4; 5; 6; 7; 8; 0];
    [0; 0; 0; 0; 0; 0; 0; 0; 9];
    [0; 0; 0; 0; 0; 0; 0; 0; 0];
    [0; 0; 0; 0; 0; 0; 0; 0; 0];
    [0; 0; 0; 0; 0; 0; 0; 0; 0];
    [0; 0; 0; 0; 0; 0; 0; 0; 0];
    [0; 0; 0; 0; 0; 0; 0; 0; 0];
    [0; 0; 0; 0; 0; 0; 0; 0; 0];
    [0; 0; 0; 0; 0; 0; 0; 0; 0] ]%Z.

Lemma generateSolvedSudokuGrid_complete_witness :
  ∃ ok B' g',
    generateSolvedSudokuGrid deadEndBoard zeroRng = Some (ok, B', g') ∧
    (ok = true ↔ ∃ S, completion deadEndBoard S) ∧
    (ok = true → completion deadEndBoard B') ∧
    (ok = false → B' = deadEndBoard).
Proof.
  apply (generateSolvedSudokuGrid_complete deadEndBoard zeroRng).
  - apply (bool_decide_unpack _). vm_compute. exact I.
  - apply (bool_decide_unpack _). vm_compute. exact I.
  - apply (bool_decide_unpack _). vm_compute. exact I.
Defined.

(** ** The solution counter on any board *)

Lemma solveLoop_le_2 rec r c :
  (∀ B1 c1 res1, rec B1 c1 = Some res1 → c1 ≤ 1 → res1.2 ≤ 2) →
  ∀ nums B count res,
    solveLoop rec r c nums B count = Some res → count ≤ 1 → res.2 ≤ 2.
Proof.
  intros Hrec nums. induction nums as [|num rest IH]; intros B count res.
  - intros [= <-]. cbn. lia.
  - cbn [solveLoop]. destruct (isValidPlacement B num (r, c)); [|apply IH].
    destruct (rec (setCell B r c num) count) as [[b1 c1]|] eqn:E; [|done].
    intros H Hcount. pose proof (Hrec _ _ _ E Hcount) as Hc1. cbn in Hc1.
    destruct (1 <? c1) eqn:Hlt.
    + by injection H as <-.
    + apply Nat.ltb_ge in Hlt. by apply (IH _ _ _ H).
Qed.

Lemma solve_le_2 fuel :
  ∀ B count res, solve fuel B count = Some res → count ≤ 1 → res.2 ≤ 2.
Proof.
  induction fuel as [|fuel IH]; intros B count res; [done|].
  cbn [solve]. destruct (findEmptyCell B) as [[r c]|].
  - apply solveLoop_le_2. apply IH.
  - intros [= <-] Hcount. cbn. lia.
Qed.

(** X6: on every 9x9 board, also one with conflicting or out-of-range
    entries, [countSolutions] returns a count of at most 2 and leaves the
    board as it was unless the count is 2; a board without empty cell counts
    as one solution without being checked. *)
Theorem countSolutions_any_board B :
  board9x9 B →
  ∃ B' n,
    countSolutions B = Some (B', n) ∧
    n ≤ 2 ∧
    (n ≤ 1 → B' = B) ∧
    (findEmptyCell B = None → n = 1 ∧ B' = B).
Proof.
  intros _.
  destruct (solve_total (S (emptyCells B)) B 0) as ([B' n] & Hres & Hrestore);
    [lia|].
  exists B', n. unfold countSolutions. split; [done|].
  split; [apply (solve_le_2 _ _ _ _ Hres); lia|]. split; [done|].
  intros Hfull. pose proof (countSolutions_full B Hfull) as Hone.
  unfold countSolutions in Hone. rewrite Hres in Hone.
  by injection Hone as -> ->.
Qed.

(** A 9x9 board with two empty cells, a 3 twice in its first row and an
    entry out of range. *)
Definition conflictingBoard : Board :=
  setCell (setCell samplePuzzle 0 0 3) 3 0 12.

Lemma countSolutions_any_board_witness :
  board9x9 conflictingBoard ∧
  ∃ B' n,
    countSolutions conflictingBoard = Some (B', n) ∧
    n ≤ 2 ∧
    (n ≤ 1 → B' = conflictingBoard) ∧
    (findEmptyCell conflictingBoard = None → n = 1 ∧ B' = conflictingBoard).
Proof.
  assert (board9x9 conflictingBoard) as Hb.
  { apply (bool_decide_unpack _). vm_compute. exact I. }
  split; [exact Hb|].
  apply (countSolutions_any_board conflictingBoard). exact Hb.
Defined.

(** ** The carver on any board *)

Definition carveFrame (B : Board) (puzzle : Ref) (σ : Store) : Prop :=
  puzzle < length σ ∧
  board9x9 (deref σ puzzle) ∧
  ∀ i j, cell (deref σ puzzle) i j = Some 0%Z
         ∨ cell (deref σ puzzle) i j = cell B i j.

Lemma cell_setCell_zero_or B P r c :
  (∀ i j, cell P i j = Some 0%Z ∨ cell P i j = cell B i j) →
  ∀ i j, cell (setCell P r c 0) i j = Some 0%Z
         ∨ cell (setCell P r c 0) i j = cell B i j.
Proof.
  intros H i j. destruct (decide ((r, c) = (i, j))) as [[= <- <-]|Hne].
  - destruct (cell P r c) as [x|] eqn:Hx.
    + left. apply cell_setCell_eq. rewrite Hx. eauto.
    + destruct (cell (setCell P r c 0) r c) as [w|] eqn:Hw.
      * apply cell_setCell_inv in Hw as [[_ ->]|Hw]; [by left|congruence].
      * destruct (H r c) as [E|E]; [congruence|]. right. congruence.
  - rewrite cell_setCell_ne by done. apply H.
Qed.

Lemma carve_frame B holes puzzle cells :
  Forall inGrid cells →
  ∀ σ removed, carveFrame B puzzle σ →
  ∃ σ' removed',
    carve puzzle holes cells σ removed = Some (σ', removed') ∧
    carveFrame B puzzle σ' ∧
    length σ ≤ length σ' ∧
    (∀ r, r < length σ → r ≠ puzzle → σ' !! r = σ !! r).
Proof.
  induction cells as [|[row col] rest IH]; intros Hcells σ removed Hinv.
  - exists σ, removed. split; [done|]. split; [done|]. split; [lia|done].
  - apply list.Forall_cons in Hcells as [[Hrow Hcol] Hrest].
    cbn [fst snd] in Hrow, Hcol. specialize (IH Hrest). cbn [carve].
    destruct (holes <=? removed).
    { exists σ, removed. split; [done|]. split; [done|]. split; [lia|done]. }
    destruct Hinv as (Hp & Hb & Hcellsof).
    unfold readCell.
    destruct (cell_is_Some (deref σ puzzle) row col Hb Hrow Hcol)
      as [temp Htemp].
    rewrite Htemp.
    destruct (probe_total (writeCell σ puzzle row col 0) puzzle)
      as [[σ2 n] Hprobe].
    rewrite Hprobe.
    apply probe_frame in Hprobe as (Hlen2 & Hframe2 & _).
    rewrite length_writeCell in Hlen2, Hframe2.
    assert (deref σ2 puzzle = setCell (deref σ puzzle) row col 0) as Hp2.
    { unfold deref at 1. rewrite (Hframe2 puzzle Hp).
      apply deref_writeCell_eq. }
    destruct (negb (n =? 1)).
    + destruct (IH (writeCell σ2 puzzle row col temp) removed)
        as (σ' & removed' & -> & Hinv' & Hl & Hf).
      { split; [rewrite length_writeCell; lia|].
        rewrite deref_writeCell_eq, Hp2, (setCell_restore _ _ _ _ _ Htemp).
        done. }
      rewrite length_writeCell in Hl, Hf.
      exists σ', removed'. split; [done|]. split; [done|]. split; [lia|].
      intros r Hr Hne. rewrite Hf by (done || lia).
      rewrite lookup_writeCell_ne by done. rewrite Hframe2 by done.
      by apply lookup_writeCell_ne.
    + destruct (IH σ2 (removed + 1)) as (σ' & removed' & -> & Hinv' & Hl & Hf).
      { split; [lia|]. rewrite Hp2. split; [by apply setCell_board9x9|].
        by apply cell_setCell_zero_or. }
      exists σ', removed'. split; [done|]. split; [done|]. split; [lia|].
      intros r Hr Hne. rewrite Hf by (done || lia). rewrite Hframe2 by done.
      by apply lookup_writeCell_ne.
Qed.

Lemma carve_no_holes puzzle cells σ removed :
  carve puzzle 0 cells σ removed = Some (σ, removed).
Proof. by destruct cells as [|[row col] rest]. Qed.

(** X7: on any 9x9 board [createPuzzle] returns a new board object and
    leaves the board it was given, and every other object that existed,
    unchanged; each cell of the returned puzzle is 0 or the cell of the
    given board; with [holes = 0] the puzzle is an exact copy. *)
Theorem createPuzzle_frame (σ : Store) board B holes g :
  σ !! board = Some B → board9x9 B →
  ∃ σ' puzzle g' P,
    createPuzzle σ board holes g = Some (σ', puzzle, g') ∧
    puzzle = length σ ∧
    σ' !! puzzle = Some P ∧
    (∀ ref, ref < length σ → σ' !! ref = σ !! ref) ∧
    board9x9 P ∧
    (∀ i j, cell P i j = Some 0%Z ∨ cell P i j = cell B i j) ∧
    (holes = 0 → P = B).
Proof.
  intros HB Hb. unfold createPuzzle, copyBoardAt, alloc.
  rewrite copyBoard_id, (deref_lookup σ board B HB).
  pose proof (shuffle_allCells_inGrid g) as Hcells.
  destruct (shuffle allCells g) as [cells g']. cbn [fst] in Hcells.
  assert (deref (σ ++ [B]) (length σ) = B) as Hd.
  { unfold deref. by rewrite lookup_app_r, Nat.sub_diag by lia. }
  destruct (carve_frame B holes (length σ) cells Hcells (σ ++ [B]) 0)
    as (σ' & removed' & Hrun & (Hp & Hb' & Hcellsof) & Hl & Hf).
  { split; [rewrite length_app; cbn; lia|]. rewrite Hd.
    split; [done|]. intros i j. by right. }
  rewrite Hrun. rewrite length_app in Hl. cbn in Hl.
  exists σ', (length σ), g', (deref σ' (length σ)).
  split; [done|]. split; [done|]. split; [by apply lookup_deref|].
  split; [|split; [done|split; [done|]]].
  - intros r Hr. rewrite Hf by (rewrite ?length_app; cbn; lia).
    by apply lookup_app_l.
  - intros ->. rewrite carve_no_holes in Hrun. injection Hrun as <- _.
    done.
Qed.

Lemma createPuzzle_frame_witness :
  ([samplePuzzle] : Store) !! 0 = Some samplePuzzle ∧ board9x9 samplePuzzle ∧
  ∃ (σ' : Store) puzzle g' P,
    createPuzzle [samplePuzzle] 0 0 zeroRng = Some (σ', puzzle, g') ∧
    puzzle = length ([samplePuzzle] : Store) ∧
    σ' !! puzzle = Some P ∧
    (∀ ref, ref < length ([samplePuzzle] : Store) →
            σ' !! ref = ([samplePuzzle] : Store) !! ref) ∧
    board9x9 P ∧
    (∀ i j, cell P i j = Some 0%Z ∨ cell P i j = cell samplePuzzle i j) ∧
    (0 = 0 → P = samplePuzzle).
Proof.
  split; [reflexivity|]. split.
  - apply (bool_decide_unpack _). vm_compute. exact I.
  - apply (createPuzzle_frame [samplePuzzle] 0 samplePuzzle 0 zeroRng).
    + reflexivity.
    + apply (bool_decide_unpack _). vm_compute. exact I.
Defined.

(** ** The carver removes as much as it is asked or as it can *)

(** X8: the puzzle [createPuzzle] carves from a Solved Grid has exactly
    [holes] holes, or fewer and then none of its givens can go: emptying
    any one of them gives a board on which [countSolutions] returns 2. *)
Theorem createPuzzle_maximal (σ : Store) board G holes g :
  σ !! board = Some G → SolvedGrid G →
  ∃ σ' puzzle g' P,
    createPuzzle σ board holes g = Some (σ', puzzle, g') ∧
    σ' !! puzzle = Some P ∧
    (emptyCells P = holes ∨
     (emptyCells P < holes ∧
      ∀ i j v, i < 9 → j < 9 → cell P i j = Some v → v ≠ 0%Z →
        ∃ B', countSolutions (setCell P i j 0) = Some (B', 2))).
Proof.
  intros HG Hsolved. unfold createPuzzle, copyBoardAt, alloc.
  rewrite copyBoard_id, (deref_lookup σ board G HG).
  pose proof (shuffle_allCells_inGrid g) as Hcells.
  pose proof (shuffle_Permutation allCells g) as Hperm.
  destruct (shuffle allCells g) as [cells g']. cbn [fst] in Hcells, Hperm.
  assert (deref (σ ++ [G]) (length σ) = G) as Hd.
  { unfold deref. by rewrite lookup_app_r, Nat.sub_diag by lia. }
  assert (carveInv G holes (length σ) (σ ++ [G]) 0) as Hinv.
  { split; [rewrite length_app; cbn; lia|]. rewrite Hd.
    split; [apply Hsolved|]. split; [apply extends_refl|].
    split; [exists G; apply countSolutions_full; by apply solved_full|].
    rewrite full_emptyCells by by apply solved_full. lia. }
  destruct (carve_spec G holes (length σ) cells Hcells (σ ++ [G]) 0 Hinv)
    as (σ' & removed' & Hrun & Hinv' & _ & _).
  destruct (carve_maximal G holes (length σ) cells Hsolved Hcells
              ltac:(rewrite Hperm; apply NoDup_allCells)
              (σ ++ [G]) 0 σ' removed' Hinv) as [Hcount Hmax]; [|done|].
  { unfold carveProgress. rewrite Hd. split; [|split].
    - apply full_emptyCells. by apply solved_full.
    - done.
    - intros p Hp Hnot. destruct Hnot. rewrite Hperm.
      by apply elem_of_allCells. }
  rewrite Hrun.
  destruct Hinv' as (Hp & Hb & Hext & _ & _ & Hrem).
  set (P := deref σ' (length σ)) in *.
  exists σ', (length σ), g', P.
  split; [done|]. split; [by apply lookup_deref|].
  destruct (decide (removed' = holes)) as [->|Hne]; [by left|].
  right. split; [lia|]. intros i j v Hi Hj Hv Hv0.
  destruct Hmax as [|Hmax]; [done|].
  destruct (Hmax (i, j)) as [H0|(S1 & S2 & Hne12 & H1 & H2)];
    [done|cbn [fst snd] in H0; congruence|].
  cbn [fst snd] in H1, H2.
  destruct (countSolutions_meaning (setCell P i j 0))
    as (B' & n & Hn & _ & _ & _ & Hn2 & _).
  { apply (extends_wfBoard _ G); [by apply setCell_board9x9| |done].
    apply extends_cells; [by apply setCell_board9x9|apply Hsolved|].
    by apply extends_setCell_zero. }
  exists B'. rewrite Hn. do 2 f_equal. apply Hn2. eauto.
Qed.

Lemma createPuzzle_maximal_witness :
  ([sampleGrid] : Store) !! 0 = Some sampleGrid ∧ SolvedGrid sampleGrid ∧
  ∃ (σ' : Store) puzzle g' P,
    createPuzzle [sampleGrid] 0 81 zeroRng = Some (σ', puzzle, g') ∧
    σ' !! puzzle = Some P ∧
    (emptyCells P = 81 ∨
     (emptyCells P < 81 ∧
      ∀ i j v, i < 9 → j < 9 → cell P i j = Some v → v ≠ 0%Z →
        ∃ B', countSolutions (setCell P i j 0) = Some (B', 2))).
Proof.
  split; [reflexivity|]. split.
  - apply (bool_decide_unpack _). vm_compute. exact I.
  - apply (createPuzzle_maximal [sampleGrid] 0 sampleGrid 81 zeroRng).
    + reflexivity.
    + apply (bool_decide_unpack _). vm_compute. exact I.
Defined.

(** * Further properties of the session *)

(** ** Starting a game *)

(** X9: [initializeGame] always succeeds, whatever the random draws and the
    previous session: afterwards the Solved Grid is a Solved Grid, the Play
    State and the Initial Puzzle are two distinct objects with the same
    contents, different from the Solved Grid object, the puzzle has the
    Solved Grid as its only completion and at most [holes] empty cells (40
    when [holes] is omitted), no cell is selected and the game is active. *)
Theorem initializeGame_establishes holes g s :
  ∃ s' g' G P,
    initializeGame holes g s = Some (s', g') ∧
    heap s' !! solvedBoard s' = Some G ∧ SolvedGrid G ∧
    heap s' !! puzzleBoard s' = Some P ∧
    heap s' !! initialPuzzle s' = Some P ∧
    solvedBoard s' ≠ puzzleBoard s' ∧ initialPuzzle s' ≠ puzzleBoard s' ∧
    solvedBoard s' ≠ initialPuzzle s' ∧
    (∀ S, completion P S ↔ S = G) ∧
    emptyCells P ≤ default 40 holes ∧
    selectedCell s' = None ∧ gameActive s' = true.
Proof.
  destruct (initializeGame_spec holes g s)
    as (s' & g' & G & P & B' & Hrun & HG & HP & HI & Hrefs & Hsel & Hact
        & Hsolved & Hb & Hext & Hone & Hempty).
  exists s', g', G, P. split; [done|]. split; [done|]. split; [done|].
  split; [done|]. split; [done|]. split; [lia|]. split; [lia|].
  split; [lia|]. split; [|done].
  apply (carved_unique P G B'); [done..| |done].
  apply extends_cells; [done|apply Hsolved|done].
Qed.

(** The number whose carving a value of [holes] gives. *)
Definition holesBound (holes : HolesValue) : nat :=
  match holes with
  | HolesNumber n => n
  | HolesNotANumber => 81
  end.

Lemma carveWith_number puzzle n cells :
  ∀ σ removed,
    carveWith puzzle (HolesNumber n) cells σ removed
    = carve puzzle n cells σ removed.
Proof.
  induction cells as [|[row col] rest IH]; intros σ removed; [done|].
  cbn [carveWith carve holesReached].
  destruct (n <=? removed); [done|].
  destruct (readCell σ puzzle row col) as [temp|]; [|done].
  destruct (probe _ puzzle) as [[σ2 k]|]; [|done].
  destruct (negb (k =? 1)); apply IH.
Qed.

(** A loop that never breaks is the loop with a bound it cannot reach. *)
Lemma carveWith_not_a_number puzzle bound cells :
  ∀ σ removed,
    removed + length cells ≤ bound →
    carveWith puzzle HolesNotANumber cells σ removed
    = carve puzzle bound cells σ removed.
Proof.
  induction cells as [|[row col] rest IH]; intros σ removed Hle; [done|].
  cbn [length] in Hle. cbn [carveWith carve holesReached].
  destruct (Nat.leb_spec bound removed) as [Hbreak|_]; [lia|].
  destruct (readCell σ puzzle row col) as [temp|]; [|done].
  destruct (probe _ puzzle) as [[σ2 k]|]; [|done].
  destruct (negb (k =? 1)); apply IH; lia.
Qed.

Lemma createPuzzleWith_eq (σ : Store) board holes g :
  createPuzzleWith σ board holes g = createPuzzle σ board (holesBound holes) g.
Proof.
  unfold createPuzzleWith, createPuzzle.
  destruct (copyBoardAt σ board) as [σ1 puzzle].
  pose proof (shuffle_Permutation allCells g) as Hperm.
  destruct (shuffle allCells g) as [cells g']. cbn [fst] in Hperm.
  destruct holes as [n|]; cbn [holesBound].
  - by rewrite carveWith_number.
  - rewrite (carveWith_not_a_number puzzle 81); [done|].
    by rewrite Hperm.
Qed.

Lemma initializeGameWith_eq holes g s :
  initializeGameWith holes g s = initializeGame (holesBound <$> holes) g s.
Proof.
  unfold initializeGameWith, initializeGame, alloc.
  destruct (generateSolvedSudokuGridAt _ _ g) as [[[ok σ2] g1]|]; [|done].
  unfold copyBoardAt, alloc. rewrite createPuzzleWith_eq.
  by destruct holes.
Qed.

Lemma initializeGame_maximal holes g s :
  ∃ s' g' P,
    initializeGame holes g s = Some (s', g') ∧
    heap s' !! puzzleBoard s' = Some P ∧
    (emptyCells P = default 40 holes ∨
     ∀ i j v, i < 9 → j < 9 → cell P i j = Some v → v ≠ 0%Z →
       ∃ B', countSolutions (setCell P i j 0) = Some (B', 2)).
Proof.
  unfold initializeGame, alloc, generateSolvedSudokuGridAt, copyBoardAt, alloc.
  assert (deref (heap s ++ [emptyBoard]) (length (heap s)) = emptyBoard) as ->.
  { unfold deref. by rewrite lookup_app_r, Nat.sub_diag by lia. }
  destruct (generate_emptyBoard g) as (G & g1 & -> & HG).
  set (σ2 := <[length (heap s) := G]> (heap s ++ [emptyBoard])).
  assert (deref σ2 (length (heap s)) = G) as ->.
  { unfold deref, σ2. rewrite list_lookup_insert_eq; [done|].
    rewrite length_app. cbn. lia. }
  rewrite copyBoard_id.
  destruct (createPuzzle_carved (σ2 ++ [G]) (length σ2) G (default 40 holes)
              g1)
    as (σ4 & puzzle & g2 & P & B' & -> & HP & _ & _ & _ & _ & Hstop).
  { by rewrite lookup_app_r, Nat.sub_diag by lia. }
  { done. }
  rewrite copyBoard_id, (deref_lookup σ4 puzzle P HP).
  eexists _, g2, P. split; [reflexivity|].
  cbn [heap puzzleBoard renderBoard withBoardView].
  split.
  { rewrite lookup_app_l; [done|]. by eapply lookup_lt_Some. }
  destruct Hstop as [Hstop|[_ Hstop]]; [by left|by right].
Qed.

Lemma emptyCells_all P :
  emptyCells P = 81 → ∀ i j, i < 9 → j < 9 → cell P i j = Some 0%Z.
Proof.
  unfold emptyCells. intros Hall i j Hi Hj.
  assert (∀ (f : Pos → bool) l,
            length (List.filter f l) = length l →
            ∀ x, In x l → f x = true) as Hfull.
  { intros f l. induction l as [|a l IH]; [done|]. cbn.
    pose proof (filter_length_le f l) as Hle.
    destruct (f a) eqn:Ea; cbn; [|lia].
    intros Hl x [<-|Hx]; [done|]. apply IH; [lia|done]. }
  specialize (Hfull _ allCells Hall (i, j)). cbn [fst snd] in Hfull.
  apply strictEq_true, Hfull, list_elem_of_In, elem_of_allCells. by split.
Qed.

Lemma DIFFICULTY_LEVELS_undefined difficulty :
  DIFFICULTY_LEVELS difficulty = None ↔
  ¬ In difficulty
      (["easy"; "medium"; "hard"; "expert"]%string ++ objectPrototypeNames).
Proof.
  split.
  - intros Hnone Hin. cbn in Hin.
    repeat (destruct Hin as [<-|Hin]; [vm_compute in Hnone; discriminate|]).
    done.
  - intros Hnot. unfold DIFFICULTY_LEVELS.
    repeat match goal with
    | |- context [String.eqb difficulty ?name] =>
        destruct (String.eqb_spec difficulty name) as [->|_];
          [destruct Hnot; cbn; tauto|]
    end.
    destruct (existsb _ _) eqn:E; [|done].
    apply existsb_exists in E as (name & Hname & Heq).
    apply String.eqb_eq in Heq as <-. destruct Hnot.
    apply in_or_app. by right.
Qed.

(** X10: [startNewGame] takes [holes] from [DIFFICULTY_LEVELS]: 30, 40, 50
    or 60 for easy, medium, hard or expert; a name that is no property of
    the table gives [undefined] and the default of 40.  A name the table
    inherits from [Object.prototype], such as [toString], gives a value
    that is not a number: the carving loop then never stops early, the game
    is the one [initializeGame(81)] starts, and no given of its puzzle can
    be removed.  In every case the game starts and is announced. *)
Theorem startNewGame_holes difficulty g s :
  (DIFFICULTY_LEVELS "easy" = Some (HolesNumber 30) ∧
   DIFFICULTY_LEVELS "medium" = Some (HolesNumber 40) ∧
   DIFFICULTY_LEVELS "hard" = Some (HolesNumber 50) ∧
   DIFFICULTY_LEVELS "expert" = Some (HolesNumber 60) ∧
   Forall (fun name => DIFFICULTY_LEVELS name = Some HolesNotANumber)
     objectPrototypeNames ∧
   ∀ name, DIFFICULTY_LEVELS name = None ↔
           ¬ In name (["easy"; "medium"; "hard"; "expert"]%string
                        ++ objectPrototypeNames)) ∧
  ∃ s1 s' g' P,
    initializeGame (holesBound <$> DIFFICULTY_LEVELS difficulty) g s
      = Some (s1, g') ∧
    startNewGame difficulty g s = Some (s', g') ∧
    s' = setStatusMessage ("New " ++ difficulty ++ " game started!") true s1 ∧
    heap s' !! puzzleBoard s' = Some P ∧
    heap s' !! initialPuzzle s' = Some P ∧
    match DIFFICULTY_LEVELS difficulty with
    | Some (HolesNumber n) => emptyCells P ≤ n
    | None => emptyCells P ≤ 40
    | Some HolesNotANumber =>
        ∀ i j v, i < 9 → j < 9 → cell P i j = Some v → v ≠ 0%Z →
          ∃ B', countSolutions (setCell P i j 0) = Some (B', 2)
    end ∧
    gameActive s' = true ∧ selectedCell s' = None.
Proof.
  split.
  { split; [done|]. split; [done|]. split; [done|]. split; [done|].
    split; [|apply DIFFICULTY_LEVELS_undefined].
    unfold objectPrototypeNames. repeat constructor. }
  unfold startNewGame. rewrite initializeGameWith_eq.
  set (holes := holesBound <$> DIFFICULTY_LEVELS difficulty).
  destruct (initializeGame_spec holes g s)
    as (s1 & g' & G & P & B' & Hrun & HG & HP & HI & _ & Hsel & Hact
        & _ & _ & _ & _ & Hempty).
  destruct (initializeGame_maximal holes g s)
    as (s2 & g2 & P2 & Hrun2 & HP2 & Hstop).
  rewrite Hrun in Hrun2. injection Hrun2 as <- <-.
  rewrite HP in HP2. injection HP2 as <-.
  rewrite Hrun.
  exists s1, (setStatusMessage ("New " ++ difficulty ++ " game started!")
                true s1), g', P.
  split; [done|]. split; [done|]. split; [done|].
  cbn [heap puzzleBoard initialPuzzle gameActive selectedCell
       setStatusMessage].
  split; [done|]. split; [done|]. split; [|done].
  subst holes.
  destruct (DIFFICULTY_LEVELS difficulty) as [[n|]|];
    cbn [fmap option_fmap option_map holesBound default] in Hempty, Hstop;
    [done| |done].
  destruct Hstop as [Hall|Hstop]; [|done].
  intros i j v Hi Hj Hv Hv0.
  pose proof (emptyCells_all P Hall i j Hi Hj). congruence.
Qed.

(** ** What the page shows *)

Ltac case_ifs :=
  repeat match goal with
         | |- context [if ?b then _ else _] => destruct b
         end.

Lemma renderCell_ext s1 s2 board p :
  heap s2 = heap s1 → initialPuzzle s2 = initialPuzzle s1 →
  selectedCell s2 = selectedCell s1 →
  renderCell s2 board p = renderCell s1 board p.
Proof. intros Hh Hi Hs. unfold renderCell. by rewrite Hh, Hi, Hs. Qed.

Lemma length_allCells : length allCells = 81.
Proof. reflexivity. Qed.

Lemma selected_renderCell s board i j :
  selected (renderCell s board (i, j)) = true ↔ selectedCell s = Some (i, j).
Proof.
  assert (selected (renderCell s board (i, j))
          = match selectedCell s with
            | Some (row, col) => (row =? i) && (col =? j)
            | None => false
            end) as ->.
  { unfold renderCell. by case_ifs. }
  destruct (selectedCell s) as [[row col]|]; [|done].
  rewrite andb_true_iff, !Nat.eqb_eq. split; [by intros [-> ->]|].
  by intros [= -> ->].
Qed.

Lemma clickable_renderCell s board i j :
  clickable (renderCell s board (i, j)) = true ↔
  readCell (heap s) (initialPuzzle s) i j = Some 0%Z.
Proof.
  unfold renderCell. rewrite <- strictEq_true.
  destruct (strictEq (readCell (heap s) (initialPuzzle s) i j) 0);
    cbn [negb]; [|done].
  by case_ifs.
Qed.

Lemma puzzleCell_renderCell s board i j :
  puzzleCell (renderCell s board (i, j)) = true ↔
  readCell (heap s) (initialPuzzle s) i j ≠ Some 0%Z.
Proof.
  unfold renderCell. rewrite <- strictEq_true.
  destruct (strictEq (readCell (heap s) (initialPuzzle s) i j) 0);
    cbn [negb]; [|done].
  by case_ifs.
Qed.

(** X11: [renderBoard] builds 81 cells in row-major order.  The cell of a
    position is a puzzle cell exactly when the Initial Puzzle is not 0
    there and carries the click listener exactly when it is 0; it is marked
    selected exactly when it is the selected cell, and marked incorrect
    exactly when it is a user cell whose non-zero value [isValidPlacement]
    rejects. *)
Theorem renderBoard_view board s :
  length (boardView (renderBoard board s)) = 81 ∧
  ∀ i j, i < 9 → j < 9 →
    ∃ view,
      boardView (renderBoard board s) !! (i * 9 + j) = Some view ∧
      (puzzleCell view = true ↔
       readCell (heap s) (initialPuzzle s) i j ≠ Some 0%Z) ∧
      (clickable view = true ↔
       readCell (heap s) (initialPuzzle s) i j = Some 0%Z) ∧
      (selected view = true ↔ selectedCell s = Some (i, j)) ∧
      (incorrect view = true ↔
       readCell (heap s) (initialPuzzle s) i j = Some 0%Z ∧
       ∃ v, readCell (heap s) board i j = Some v ∧ v ≠ 0%Z ∧
            isValidPlacement (deref (heap s) board) v (i, j) = false).
Proof.
  unfold renderBoard, withBoardView. cbn [boardView]. split.
  - by rewrite length_fmap.
  - intros i j Hi Hj. exists (renderCell s board (i, j)). split.
    + by rewrite list_lookup_fmap, allCells_lookup.
    + split; [apply puzzleCell_renderCell|].
      split; [apply clickable_renderCell|].
      split; [apply selected_renderCell|].
      apply (incorrect_renderCell s board (i, j)).
Qed.

(** The page shows the current Play State, Initial Puzzle and selection. *)
Definition viewInSync (s : Session) : Prop :=
  boardView s = renderCell s (puzzleBoard s) <$> allCells.

(** Nothing that [renderBoard] reads or writes differs. *)
Definition sameScene (s s' : Session) : Prop :=
  heap s' = heap s ∧ initialPuzzle s' = initialPuzzle s ∧
  puzzleBoard s' = puzzleBoard s ∧ selectedCell s' = selectedCell s ∧
  boardView s' = boardView s.

Lemma viewInSync_sameScene s s' : viewInSync s → sameScene s s' → viewInSync s'.
Proof.
  unfold viewInSync. intros Hsync (Hh & Hi & Hp & Hs & Hv).
  rewrite Hv, Hp, Hsync. apply list_fmap_ext. intros k p _.
  symmetry. by apply renderCell_ext.
Qed.

Lemma renderBoard_viewInSync s : viewInSync (renderBoard (puzzleBoard s) s).
Proof.
  unfold viewInSync, renderBoard, withBoardView.
  cbn [boardView puzzleBoard]. apply list_fmap_ext. intros k p _.
  symmetry. by apply renderCell_ext.
Qed.

Lemma checkWinCondition_sameScene s : sameScene s (checkWinCondition s).
Proof. unfold checkWinCondition. by destruct (boardPerfect _ _ _). Qed.

Lemma applyMove_viewInSync s m : viewInSync s → viewInSync (applyMove s m).
Proof.
  intros Hsync. destruct m as [key|value| |i j narrow]; cbn [applyMove].
  - unfold onKeyDown. destruct (selectedCell s) as [[row col]|]; [|done].
    destruct (negb (gameActive s)); [done|].
    destruct (negb (strictEq _ 0)); [done|].
    destruct (keyNumber key) as [num|]; [|done].
    eapply viewInSync_sameScene; [|apply checkWinCondition_sameScene].
    apply (renderBoard_viewInSync (placeNumber row col num s)).
  - unfold onNumberButton. destruct (selectedCell s) as [[row col]|]; [|done].
    destruct (negb (gameActive s)); [done|].
    destruct (negb (strictEq _ 0)); [done|].
    eapply viewInSync_sameScene; [|apply checkWinCondition_sameScene].
    apply (renderBoard_viewInSync (placeNumber row col value s)).
  - unfold onClearButton. destruct (selectedCell s) as [[row col]|]; [|done].
    destruct (negb (gameActive s)); [done|].
    destruct (negb (strictEq _ 0)); [done|].
    apply (renderBoard_viewInSync (placeNumber row col 0 s)).
  - unfold clickCell. destruct (boardView s !! _) as [view|]; [|done].
    destruct (clickable view && gameActive s); [|done].
    unfold handleCellClick.
    pose proof (renderBoard_viewInSync (withSelectedCell s (Some (i, j))))
      as H.
    destruct narrow; [|done].
    eapply viewInSync_sameScene; [exact H|]. by repeat split.
Qed.

(** X12: every handler leaves the page showing the current state: after
    [initializeGame], [resetPuzzle], [checkAnswers] and after any sequence
    of moves from a page in that state, the cells of [#sudoku-board] are
    the rendering of the current Play State, Initial Puzzle and
    selection. *)
Theorem page_in_sync :
  (∀ holes g s s' g', initializeGame holes g s = Some (s', g') →
                      viewInSync s') ∧
  (∀ s, viewInSync (resetPuzzle s)) ∧
  (∀ s, viewInSync (checkAnswers s)) ∧
  (∀ s moves, viewInSync s → viewInSync (applyMoves s moves)).
Proof.
  split; [|split; [|split]].
  - intros holes g s s' g'. unfold initializeGame.
    destruct (alloc (heap s) emptyBoard) as [σ1 baseBoard].
    destruct (generateSolvedSudokuGridAt σ1 baseBoard g)
      as [[[ok σ2] g1]|]; [|done].
    destruct (copyBoardAt σ2 baseBoard) as [σ3 solved].
    destruct (createPuzzle σ3 solved (default 40 holes) g1)
      as [[[σ4 puzzle] g2]|]; [|done].
    destruct (copyBoardAt σ4 puzzle) as [σ5 initial].
    intros [= <- _].
    match goal with
    | |- viewInSync (renderBoard puzzle ?s1) =>
        apply (renderBoard_viewInSync s1)
    end.
  - intros s. unfold resetPuzzle.
    destruct (copyBoardAt (heap s) (initialPuzzle s)) as [σ1 fresh].
    match goal with
    | |- viewInSync (setStatusMessage _ _ (renderBoard _ ?s2)) =>
        eapply viewInSync_sameScene; [apply (renderBoard_viewInSync s2)|]
    end.
    by repeat split.
  - intros s. unfold checkAnswers.
    match goal with
    | |- viewInSync (renderBoard _ ?s1) => apply (renderBoard_viewInSync s1)
    end.
  - intros s moves. revert s.
    induction moves as [|m moves IH]; intros s Hsync; [done|].
    cbn [applyMoves foldl]. apply IH. by apply applyMove_viewInSync.
Qed.

Lemma page_in_sync_witness :
  viewInSync (renderBoard 1 (sessionWith samplePuzzle None)) ∧
  viewInSync
    (applyMoves (renderBoard 1 (sessionWith samplePuzzle None))
       [CellClick 0 0 false; KeyDown "1"; CellClick 0 1 true;
        NumberButton 2; ClearButton]).
Proof.
  split; [reflexivity|].
  apply (proj2 (proj2 (proj2 page_in_sync))). reflexivity.
Defined.

(** ** What moves can and cannot do *)

(** X13: a move does nothing while the game is not active (after a win,
    until [resetPuzzle] or a new game), and a key or button does nothing
    while no cell is selected. *)
Theorem moves_need_active_selection s m :
  (gameActive s = false → applyMove s m = s) ∧
  (selectedCell s = None → (∀ i j narrow, m ≠ CellClick i j narrow) →
   applyMove s m = s).
Proof.
  split.
  - intros Hoff. destruct m as [key|value| |i j narrow]; cbn [applyMove].
    + unfold onKeyDown. rewrite Hoff. by destruct (selectedCell s) as [[? ?]|].
    + unfold onNumberButton. rewrite Hoff.
      by destruct (selectedCell s) as [[? ?]|].
    + unfold onClearButton. rewrite Hoff.
      by destruct (selectedCell s) as [[? ?]|].
    + unfold clickCell. destruct (boardView s !! _) as [view|]; [|done].
      by rewrite Hoff, andb_false_r.
  - intros Hnone Hm. destruct m as [key|value| |i j narrow]; cbn [applyMove].
    + unfold onKeyDown. by rewrite Hnone.
    + unfold onNumberButton. by rewrite Hnone.
    + unfold onClearButton. by rewrite Hnone.
    + by destruct (Hm i j narrow).
Qed.

Lemma editsHole_frame s s' :
  editsHole s s' →
  length (heap s') = length (heap s) ∧
  solvedBoard s' = solvedBoard s ∧ puzzleBoard s' = puzzleBoard s ∧
  initialPuzzle s' = initialPuzzle s ∧
  ∀ ref, ref ≠ puzzleBoard s → heap s' !! ref = heap s !! ref.
Proof.
  intros [(-> & -> & -> & ->) | (row & col & num & _ & -> & -> & -> & ->)].
  - done.
  - rewrite length_writeCell. repeat split.
    intros ref Href. by apply lookup_writeCell_ne.
Qed.

Lemma applyMoves_frame moves :
  ∀ s,
    length (heap (applyMoves s moves)) = length (heap s) ∧
    solvedBoard (applyMoves s moves) = solvedBoard s ∧
    puzzleBoard (applyMoves s moves) = puzzleBoard s ∧
    initialPuzzle (applyMoves s moves) = initialPuzzle s ∧
    ∀ ref, ref ≠ puzzleBoard s →
           heap (applyMoves s moves) !! ref = heap s !! ref.
Proof.
  induction moves as [|m moves IH]; intros s; [done|].
  cbn [applyMoves foldl].
  destruct (editsHole_frame s (applyMove s m) (applyMove_editsHole s m))
    as (Hl & Hs & Hp & Hi & Hf).
  destruct (IH (applyMove s m)) as (Hl' & Hs' & Hp' & Hi' & Hf').
  unfold applyMoves in *.
  rewrite Hl', Hs', Hp', Hi', Hl, Hs, Hp, Hi. repeat split.
  intros ref Href. rewrite Hf' by congruence. by apply Hf.
Qed.

(** X14: moves allocate nothing and write no object but the Play State:
    the three board references stay the same and every other object of the
    store, the Solved Grid and the Initial Puzzle among them when they are
    distinct objects, is unchanged. *)
Theorem moves_write_only_play_state s moves :
  length (heap (applyMoves s moves)) = length (heap s) ∧
  solvedBoard (applyMoves s moves) = solvedBoard s ∧
  puzzleBoard (applyMoves s moves) = puzzleBoard s ∧
  initialPuzzle (applyMoves s moves) = initialPuzzle s ∧
  ∀ ref, ref ≠ puzzleBoard s →
         heap (applyMoves s moves) !! ref = heap s !! ref.
Proof. apply applyMoves_frame. Qed.

(** The selected cell, if any, is a hole of the Initial Puzzle. *)
Definition selectionOnHole (s : Session) : Prop :=
  match selectedCell s with
  | Some (row, col) =>
      readCell (heap s) (initialPuzzle s) row col = Some 0%Z
  | None => True
  end.

(** Clicks come from cell elements, whose position is in the grid. *)
Definition clickInGrid (m : Move) : Prop :=
  match m with
  | CellClick i j _ => i < 9 ∧ j < 9
  | _ => True
  end.

Lemma placeNumber_selectionOnHole row col num s s' :
  initialPuzzle s ≠ puzzleBoard s → selectionOnHole s →
  heap s' = heap (placeNumber row col num s) →
  initialPuzzle s' = initialPuzzle s → selectedCell s' = selectedCell s →
  selectionOnHole s'.
Proof.
  intros Hrefs Hsel Hh Hi Hs. unfold selectionOnHole in *.
  rewrite Hs, Hh, Hi. cbn [selectedCell heap initialPuzzle placeNumber withHeap].
  destruct (selectedCell s) as [[r c]|]; [|done].
  unfold readCell, deref in *. by rewrite lookup_writeCell_ne.
Qed.


Lemma applyMove_selectionOnHole s m :
  viewInSync s → initialPuzzle s ≠ puzzleBoard s → clickInGrid m →
  selectionOnHole s → selectionOnHole (applyMove s m).
Proof.
  intros Hsync Hrefs Hgrid Hsel.
  destruct m as [key|value| |i j narrow]; cbn [applyMove].
  - unfold onKeyDown. destruct (selectedCell s) as [[row col]|] eqn:E; [|done].
    destruct (negb (gameActive s)); [done|].
    destruct (negb (strictEq _ 0)); [done|].
    destruct (keyNumber key) as [num|]; [|done].
    destruct (checkWinCondition_sameScene
                (renderBoard (puzzleBoard s) (placeNumber row col num s)))
      as (H1 & H2 & H3 & H4 & H5).
    apply (placeNumber_selectionOnHole row col num s); [done..| | |].
    + by rewrite H1.
    + by rewrite H2.
    + by rewrite H4.
  - unfold onNumberButton.
    destruct (selectedCell s) as [[row col]|] eqn:E; [|done].
    destruct (negb (gameActive s)); [done|].
    destruct (negb (strictEq _ 0)); [done|].
    destruct (checkWinCondition_sameScene
                (renderBoard (puzzleBoard s) (placeNumber row col value s)))
      as (H1 & H2 & H3 & H4 & H5).
    apply (placeNumber_selectionOnHole row col value s); [done..| | |].
    + by rewrite H1.
    + by rewrite H2.
    + by rewrite H4.
  - unfold onClearButton.
    destruct (selectedCell s) as [[row col]|] eqn:E; [|done].
    destruct (negb (gameActive s)); [done|].
    destruct (negb (strictEq _ 0)); [done|].
    by apply (placeNumber_selectionOnHole row col 0%Z s).
  - destruct Hgrid as [Hi Hj]. unfold clickCell.
    rewrite Hsync, list_lookup_fmap, (allCells_lookup i j Hi Hj). cbn.
    destruct (clickable _) eqn:Hclick; [|done].
    apply clickable_renderCell in Hclick.
    destruct (gameActive s); [|done]. cbn.
    unfold handleCellClick. by destruct narrow.
Qed.

(** X15: the selection never lands on a given cell: from a page that shows
    the current state, with the Initial Puzzle a distinct object from the
    Play State, after any sequence of moves (clicks on cells of the grid)
    the selected cell, if any, is a cell where the Initial Puzzle holds
    0. *)
Theorem selection_stays_on_holes s moves :
  viewInSync s → initialPuzzle s ≠ puzzleBoard s → selectionOnHole s →
  Forall clickInGrid moves →
  selectionOnHole (applyMoves s moves).
Proof.
  revert s. induction moves as [|m moves IH];
    intros s Hsync Hrefs Hsel Hmoves; [done|].
  apply list.Forall_cons in Hmoves as [Hm Hmoves].
  cbn [applyMoves foldl]. apply IH; [| | |done].
  - by apply applyMove_viewInSync.
  - destruct (editsHole_frame s (applyMove s m) (applyMove_editsHole s m))
      as (_ & _ & -> & -> & _). done.
  - by apply applyMove_selectionOnHole.
Qed.

Lemma selection_stays_on_holes_witness :
  selectionOnHole
    (applyMoves (renderBoard 1 (sessionWith samplePuzzle None))
       [CellClick 0 2 false; CellClick 0 0 false; KeyDown "7";
        CellClick 1 1 true; CellClick 3 0 true; NumberButton 2]).
Proof.
  apply (selection_stays_on_holes
           (renderBoard 1 (sessionWith samplePuzzle None))).
  - reflexivity.
  - cbn. lia.
  - exact I.
  - repeat constructor; cbn; lia.
Defined.

(** ** Winning by a move *)

Lemma boardPerfect_solved (σ : Store) puzzle solved P G :
  σ !! puzzle = Some P → σ !! solved = Some G →
  board9x9 P → SolvedGrid G →
  boardPerfect σ puzzle solved = true ↔ P = G.
Proof.
  intros HP HGl Hb HG. rewrite boardPerfect_true. unfold readCell.
  rewrite (deref_lookup _ _ _ HP), (deref_lookup _ _ _ HGl). split.
  - intros H. apply board_ext; [done|apply HG|].
    intros i j Hi Hj. by apply H.
  - intros -> i j Hi Hj. split; [|done]. intros H0.
    destruct (solved_cell G (i, j) HG) as (v & Hv & Hr); [done|].
    cbn [fst snd] in Hv. assert (v = 0%Z) by congruence. lia.
Qed.

Lemma place_and_check s row col num P G :
  gameActive s = true →
  heap s !! puzzleBoard s = Some P → heap s !! solvedBoard s = Some G →
  solvedBoard s ≠ puzzleBoard s → board9x9 P → SolvedGrid G →
  gameActive (checkWinCondition
                (renderBoard (puzzleBoard s) (placeNumber row col num s)))
    = false ↔ setCell P row col num = G.
Proof.
  intros Hact HP HGl Hrefs Hb HG.
  set (σ1 := writeCell (heap s) (puzzleBoard s) row col num).
  assert (σ1 !! puzzleBoard s = Some (setCell P row col num)) as Hσp.
  { unfold σ1. rewrite lookup_deref by
      (rewrite length_writeCell; by eapply lookup_lt_Some).
    by rewrite deref_writeCell_eq, (deref_lookup _ _ _ HP). }
  assert (σ1 !! solvedBoard s = Some G) as Hσs.
  { unfold σ1. by rewrite lookup_writeCell_ne. }
  pose proof (boardPerfect_solved σ1 (puzzleBoard s) (solvedBoard s)
                (setCell P row col num) G Hσp Hσs
                (setCell_board9x9 P row col num Hb) HG) as Hiff.
  unfold checkWinCondition.
  cbn [heap puzzleBoard solvedBoard renderBoard withBoardView placeNumber
       withHeap].
  fold σ1. destruct (boardPerfect σ1 (puzzleBoard s) (solvedBoard s)).
  - split; [intros _; by apply Hiff|done].
  - cbn [gameActive renderBoard withBoardView placeNumber withHeap].
    rewrite Hact. split; [done|].
    intros Heq. apply Hiff in Heq. discriminate Heq.
Qed.

(** X16: a key or number button pressed on a selected hole ends the game
    exactly when it makes the Play State equal to the Solved Grid: with a
    9x9 Play State [P], a Solved Grid [G] held in a distinct object, the
    game becomes inactive if and only if [P] with the number written is
    [G]. *)
Theorem move_wins_iff_solved s key value row col num P G :
  selectedCell s = Some (row, col) → gameActive s = true →
  readCell (heap s) (initialPuzzle s) row col = Some 0%Z →
  keyNumber key = Some num →
  heap s !! puzzleBoard s = Some P → heap s !! solvedBoard s = Some G →
  solvedBoard s ≠ puzzleBoard s → board9x9 P → SolvedGrid G →
  (gameActive (onKeyDown key s) = false ↔ setCell P row col num = G) ∧
  (gameActive (onNumberButton value s) = false ↔ setCell P row col value = G).
Proof.
  intros Hsel Hact H0 Hkey HP HGl Hrefs Hb HG.
  unfold onKeyDown, onNumberButton.
  rewrite Hsel, Hact, Hkey, (proj2 (strictEq_true _ _) H0). cbn [negb].
  split; by apply place_and_check.
Qed.

Lemma move_wins_iff_solved_witness :
  (gameActive (onKeyDown "1" (sessionWith
                 (setCell (setCell samplePuzzle 0 1 2) 3 0 2) (Some (0, 0))))
   = false ↔
   setCell (setCell (setCell samplePuzzle 0 1 2) 3 0 2) 0 0 1 = sampleGrid) ∧
  (gameActive (onNumberButton 4 (sessionWith
                 (setCell (setCell samplePuzzle 0 1 2) 3 0 2) (Some (0, 0))))
   = false ↔
   setCell (setCell (setCell samplePuzzle 0 1 2) 3 0 2) 0 0 4 = sampleGrid).
Proof.
  apply (move_wins_iff_solved
           (sessionWith (setCell (setCell samplePuzzle 0 1 2) 3 0 2)
              (Some (0, 0))) "1" 4 0 0 1
           (setCell (setCell samplePuzzle 0 1 2) 3 0 2) sampleGrid).
  - reflexivity.
  - reflexivity.
  - reflexivity.
  - reflexivity.
  - reflexivity.
  - reflexivity.
  - cbn. lia.
  - apply (bool_decide_unpack _). vm_compute. exact I.
  - apply (bool_decide_unpack _). vm_compute. exact I.
Defined.

(** ** Resetting *)

Lemma resetPuzzle_fields s :
  heap (resetPuzzle s) = heap s ++ [deref (heap s) (initialPuzzle s)] ∧
  puzzleBoard (resetPuzzle s) = length (heap s) ∧
  initialPuzzle (resetPuzzle s) = initialPuzzle s ∧
  solvedBoard (resetPuzzle s) = solvedBoard s ∧
  gameActive (resetPuzzle s) = true ∧
  selectedCell (resetPuzzle s) = None ∧
  statusMessage (resetPuzzle s) = Some ("Puzzle has been reset"%string, true).
Proof.
  unfold resetPuzzle, copyBoardAt, alloc. rewrite copyBoard_id. by repeat split.
Qed.

(** X17: [resetPuzzle] undoes every sequence of moves: when the Initial
    Puzzle is a distinct object from the Play State, after any moves and a
    reset the Play State holds the contents the Initial Puzzle had at the
    start, the Initial Puzzle still holds them, the game is active again
    (also after a win) and no cell is selected. *)
Theorem reset_undoes_moves s moves I :
  heap s !! initialPuzzle s = Some I → initialPuzzle s ≠ puzzleBoard s →
  heap (resetPuzzle (applyMoves s moves))
    !! puzzleBoard (resetPuzzle (applyMoves s moves)) = Some I ∧
  heap (resetPuzzle (applyMoves s moves))
    !! initialPuzzle (resetPuzzle (applyMoves s moves)) = Some I ∧
  puzzleBoard (resetPuzzle (applyMoves s moves))
    ≠ initialPuzzle (resetPuzzle (applyMoves s moves)) ∧
  gameActive (resetPuzzle (applyMoves s moves)) = true ∧
  selectedCell (resetPuzzle (applyMoves s moves)) = None.
Proof.
  intros HI Hrefs.
  destruct (applyMoves_frame moves s) as (Hl & _ & _ & Hi & Hf).
  destruct (resetPuzzle_fields (applyMoves s moves))
    as (-> & -> & -> & _ & -> & -> & _).
  rewrite Hi. pose proof (lookup_lt_Some _ _ _ HI) as Hlt.
  assert (heap (applyMoves s moves) !! initialPuzzle s = Some I) as HI'.
  { by rewrite Hf. }
  rewrite (deref_lookup _ _ _ HI').
  split; [by rewrite lookup_app_r, Nat.sub_diag by lia|].
  split; [rewrite lookup_app_l by lia; done|].
  split; [lia|done].
Qed.

Lemma reset_undoes_moves_witness :
  heap (resetPuzzle
          (applyMoves (renderBoard 1 (sessionWith samplePuzzle None))
             [CellClick 0 0 false; KeyDown "7"; CellClick 0 1 false;
              NumberButton 5]))
    !! puzzleBoard
         (resetPuzzle
            (applyMoves (renderBoard 1 (sessionWith samplePuzzle None))
               [CellClick 0 0 false; KeyDown "7"; CellClick 0 1 false;
                NumberButton 5]))
  = Some samplePuzzle.
Proof.
  apply (reset_undoes_moves (renderBoard 1 (sessionWith samplePuzzle None))
           [CellClick 0 0 false; KeyDown "7"; CellClick 0 1 false;
            NumberButton 5] samplePuzzle).
  - reflexivity.
  - cbn. lia.
Defined.

(** ** Keys *)

Lemma parseDigits_nonneg key :
  ∀ acc, (0 ≤ acc)%Z → (0 ≤ parseDigits key acc)%Z.
Proof.
  induction key as [|ch rest IH]; intros acc Hacc; [done|].
  cbn [parseDigits]. destruct (_ && _); [|done]. apply IH. lia.
Qed.

Lemma keyNumber_single ch :
  keyNumber (String ch EmptyString)
  = if (48 <=? nat_of_ascii ch) && (nat_of_ascii ch <=? 57)
    then Some (Z.of_nat (nat_of_ascii ch - 48))
    else None.
Proof.
  destruct ch as [[] [] [] [] [] [] [] []]; vm_compute; reflexivity.
Qed.

Lemma keyNumber_other ch rest :
  nat_of_ascii ch < 49 ∨ 57 < nat_of_ascii ch →
  String ch rest ≠ "Backspace"%string → String ch rest ≠ "Delete"%string →
  String ch rest ≠ "0"%string →
  keyNumber (String ch rest) = None.
Proof.
  intros Hch H1 H2 H3. unfold keyNumber.
  rewrite (proj2 (String.eqb_neq _ _) H1), (proj2 (String.eqb_neq _ _) H2),
    (proj2 (String.eqb_neq _ _) H3).
  cbn [orb].
  assert (String.leb "1" (String ch rest) && String.leb (String ch rest) "9"
          = false) as ->; [|done].
  clear H1 H2 H3.
  destruct ch as [[] [] [] [] [] [] [] []];
    first [reflexivity | exfalso; vm_compute in Hch; lia].
Qed.

(** X18: what the [keydown] handler makes of a key: a one-character key
    gives its digit when it is one of 0..9 and nothing otherwise;
    [Backspace] and [Delete] give 0; a key that does not start with one of
    1..9 and is none of these gives nothing; no key gives a negative
    number. *)
Theorem keyNumber_keys :
  (∀ ch,
     keyNumber (String ch EmptyString)
     = if (48 <=? nat_of_ascii ch) && (nat_of_ascii ch <=? 57)
       then Some (Z.of_nat (nat_of_ascii ch - 48))
       else None) ∧
  keyNumber "Backspace" = Some 0%Z ∧
  keyNumber "Delete" = Some 0%Z ∧
  (∀ ch rest,
     nat_of_ascii ch < 49 ∨ 57 < nat_of_ascii ch →
     String ch rest ≠ "Backspace"%string → String ch rest ≠ "Delete"%string →
     String ch rest ≠ "0"%string →
     keyNumber (String ch rest) = None) ∧
  keyNumber "" = None ∧
  (∀ key num, keyNumber key = Some num → (0 ≤ num)%Z).
Proof.
  split; [apply keyNumber_single|]. split; [reflexivity|].
  split; [reflexivity|]. split; [apply keyNumber_other|].
  split; [reflexivity|].
  intros key num. unfold keyNumber, parseInt.
  destruct (_ && _).
  - intros [= <-]. by apply parseDigits_nonneg.
  - destruct (_ || _); [|done]. by intros [= <-].
Qed.

(** ** The Play State stays a board *)

(** The number a move writes, when it writes. *)
Definition writtenBy (m : Move) (num : Z) : Prop :=
  match m with
  | KeyDown key => keyNumber key = Some num
  | NumberButton value => num = value
  | ClearButton => num = 0%Z
  | CellClick _ _ _ => False
  end.

(** Keys of one character, [Backspace] and [Delete]; number buttons with a
    value in 0..9. *)
Definition plainMove (m : Move) : Prop :=
  match m with
  | KeyDown key =>
      String.length key = 1 ∨ key = "Backspace"%string ∨ key = "Delete"%string
  | NumberButton value => (0 ≤ value ≤ 9)%Z
  | _ => True
  end.

Lemma applyMove_writes s m :
  sameBoards s (applyMove s m) ∨
  ∃ row col num,
    writtenBy m num ∧
    selectedCell s = Some (row, col) ∧
    heap (applyMove s m) = writeCell (heap s) (puzzleBoard s) row col num ∧
    puzzleBoard (applyMove s m) = puzzleBoard s.
Proof.
  destruct m as [key|value| |i j narrow]; cbn [applyMove].
  - unfold onKeyDown. destruct (selectedCell s) as [[row col]|]; [|by left].
    destruct (negb (gameActive s)); [by left|].
    destruct (negb (strictEq _ 0)); [by left|].
    destruct (keyNumber key) as [num|] eqn:Hkey; [|by left].
    right. exists row, col, num. split; [done|]. split; [done|].
    by destruct (checkWinCondition_sameBoards
                   (renderBoard (puzzleBoard s) (placeNumber row col num s)))
      as (-> & _ & -> & _).
  - unfold onNumberButton. destruct (selectedCell s) as [[row col]|]; [|by left].
    destruct (negb (gameActive s)); [by left|].
    destruct (negb (strictEq _ 0)); [by left|].
    right. exists row, col, value. split; [done|]. split; [done|].
    by destruct (checkWinCondition_sameBoards
                   (renderBoard (puzzleBoard s) (placeNumber row col value s)))
      as (-> & _ & -> & _).
  - unfold onClearButton. destruct (selectedCell s) as [[row col]|]; [|by left].
    destruct (negb (gameActive s)); [by left|].
    destruct (negb (strictEq _ 0)); [by left|].
    right. by exists row, col, 0%Z.
  - left. apply clickCell_sameBoards.
Qed.

Lemma plainMove_digit m num :
  plainMove m → writtenBy m num → (0 ≤ num ≤ 9)%Z.
Proof.
  destruct m as [key|value| |i j narrow]; cbn [plainMove writtenBy].
  - intros [Hlen | [-> | ->]] Hkey.
    + destruct key as [|ch [|ch' rest]]; try discriminate Hlen.
      rewrite keyNumber_single in Hkey.
      destruct (_ && _) eqn:E; [|done]. injection Hkey as <-.
      apply andb_true_iff in E as [E1 E2].
      apply Nat.leb_le in E1, E2. lia.
    + injection Hkey as <-. lia.
    + injection Hkey as <-. lia.
  - by intros H ->.
  - intros _ ->. lia.
  - done.
Qed.

Lemma entriesInRange_setCell P r c num :
  entriesInRange P → (0 ≤ num ≤ 9)%Z → entriesInRange (setCell P r c num).
Proof.
  intros HP Hnum i j v Hv.
  apply cell_setCell_inv in Hv as [[_ ->]|Hv]; [done|]. by eapply HP.
Qed.

(** X19: under keys of one character, [Backspace], [Delete], number
    buttons with a value in 0..9, the clear button and clicks, the Play
    State stays a 9x9 board with entries in 0..9. *)
Theorem play_state_stays_board s moves P :
  heap s !! puzzleBoard s = Some P → board9x9 P → entriesInRange P →
  Forall plainMove moves →
  ∃ P', heap (applyMoves s moves) !! puzzleBoard (applyMoves s moves) = Some P' ∧
        board9x9 P' ∧ entriesInRange P'.
Proof.
  revert s P. induction moves as [|m moves IH];
    intros s P HP Hb Hr Hmoves; [by exists P|].
  apply list.Forall_cons in Hmoves as [Hm Hmoves].
  cbn [applyMoves foldl].
  destruct (applyMove_writes s m)
    as [(Hh & _ & Hp & _) | (row & col & num & Hw & _ & Hh & Hp)].
  - apply (IH (applyMove s m) P); [|done..]. by rewrite Hh, Hp.
  - apply (IH (applyMove s m) (setCell P row col num)); [| | |done].
    + rewrite Hh, Hp.
      rewrite lookup_deref by
        (rewrite length_writeCell; by eapply lookup_lt_Some).
      by rewrite deref_writeCell_eq, (deref_lookup _ _ _ HP).
    + by apply setCell_board9x9.
    + apply entriesInRange_setCell; [done|]. by eapply plainMove_digit.
Qed.

Lemma play_state_stays_board_witness :
  ∃ P',
    heap (applyMoves (renderBoard 1 (sessionWith samplePuzzle (Some (0, 0))))
            [KeyDown "7"; KeyDown "x"; NumberButton 3; KeyDown "Delete"])
      !! puzzleBoard
           (applyMoves (renderBoard 1 (sessionWith samplePuzzle (Some (0, 0))))
              [KeyDown "7"; KeyDown "x"; NumberButton 3; KeyDown "Delete"])
    = Some P' ∧
    board9x9 P' ∧ entriesInRange P'.
Proof.
  apply (play_state_stays_board
           (renderBoard 1 (sessionWith samplePuzzle (Some (0, 0))))
           [KeyDown "7"; KeyDown "x"; NumberButton 3; KeyDown "Delete"]
           samplePuzzle).
  - reflexivity.
  - apply (bool_decide_unpack _). vm_compute. exact I.
  - apply (bool_decide_unpack _). vm_compute. exact I.
  - repeat constructor; cbn; lia.
Defined.

(** ** The theme switch

    What [setupThemeSwitcher] reads and writes: [localStorage], the
    [data-bs-theme] attribute of the document element and the [checked]
    state of [#theme-switch]. *)

Record ThemePage := {
  localStorage : string → option string;   (* [getItem]; [None] is [null] *)
  themeAttribute : option string;
  switchChecked : bool
}.

(** [localStorage.setItem(key, value)] *)
Definition setItem (key value : string) (storage : string → option string)
    : string → option string :=
  fun k => if String.eqb k key then Some value else storage k.

(** The body of [setupThemeSwitcher] up to the registration of the
    listener.  [getItem('theme') || 'dark'] takes ['dark'] for [null] and
    for the empty string. *)
Definition setupThemeSwitcher (page : ThemePage) : ThemePage :=
  let savedTheme :=
    match localStorage page "theme" with
    | Some theme => if String.eqb theme "" then "dark"%string else theme
    | None => "dark"%string
    end in
  {| localStorage := localStorage page;
     themeAttribute := Some savedTheme;
     switchChecked := String.eqb savedTheme "dark" |}.

(** The [change] listener of [#theme-switch]; [checked] is the state the
    user has put the switch in. *)
Definition onThemeChange (checked : bool) (page : ThemePage) : ThemePage :=
  let newTheme := if checked then "dark"%string else "light"%string in
  {| localStorage := setItem "theme" newTheme (localStorage page);
     themeAttribute := Some newTheme;
     switchChecked := checked |}.

(** X20: the theme survives a reload: after the user has set the switch,
    running [setupThemeSwitcher] again applies the same theme and puts the
    switch in the same position, and the change touches no other key of
    [localStorage].  Without a stored theme, or with an empty one, the
    page is dark with the switch on; a stored theme other than ['dark'] is
    applied as it is with the switch off. *)
Theorem theme_round_trip page :
  (∀ checked,
     themeAttribute (setupThemeSwitcher (onThemeChange checked page))
       = themeAttribute (onThemeChange checked page) ∧
     switchChecked (setupThemeSwitcher (onThemeChange checked page)) = checked ∧
     ∀ key, key ≠ "theme"%string →
            localStorage (onThemeChange checked page) key
            = localStorage page key) ∧
  (localStorage page "theme" = None ∨ localStorage page "theme" = Some ""%string →
   themeAttribute (setupThemeSwitcher page) = Some "dark"%string ∧
   switchChecked (setupThemeSwitcher page) = true) ∧
  (∀ theme, localStorage page "theme" = Some theme →
     theme ≠ ""%string → theme ≠ "dark"%string →
     themeAttribute (setupThemeSwitcher page) = Some theme ∧
     switchChecked (setupThemeSwitcher page) = false).
Proof.
  split; [|split].
  - intros checked. split; [by destruct checked|]. split; [by destruct checked|].
    intros key Hkey. cbn [localStorage onThemeChange]. unfold setItem.
    by rewrite (proj2 (String.eqb_neq _ _) Hkey).
  - unfold setupThemeSwitcher. by intros [-> | ->].
  - intros theme Hsaved Hne Hdark. unfold setupThemeSwitcher.
    rewrite Hsaved, (proj2 (String.eqb_neq _ _) Hne).
    cbn [themeAttribute switchChecked].
    by rewrite (proj2 (String.eqb_neq _ _) Hdark).
Qed.

(** * The generator and the counter agree *)

(** X21: on a 9x9 board with entries in 0..9 and no conflict,
    [generateSolvedSudokuGrid] returns [true] exactly when [countSolutions]
    returns a count other than 0, whatever the random draws. *)
Theorem generator_agrees_with_counter B g :
  board9x9 B → entriesInRange B → consistent B →
  ∃ ok B1 g' B2 n,
    generateSolvedSudokuGrid B g = Some (ok, B1, g') ∧
    countSolutions B = Some (B2, n) ∧
    (ok = true ↔ n ≠ 0).
Proof.
  intros Hb Hr Hc.
  destruct (generate_spec (S (emptyCells B)) B g)
    as ([[ok B1] g'] & Hgen & Hspec); [lia|done|].
  destruct (countSolutions_meaning B) as (B2 & n & Hcount & _ & Hn0 & _);
    [done|].
  exists ok, B1, g', B2, n. split; [done|]. split; [done|].
  destruct Hspec as [[Hok HB1] | (Hok & _ & Hnone)]; cbn [fst snd] in *;
    subst ok.
  - split; [|done]. intros _ Hz. by apply (proj1 Hn0 Hz B1).
  - split; [done|]. intros Hn. destruct Hn. by apply Hn0.
Qed.

Lemma generator_agrees_with_counter_witness :
  ∃ ok B1 g' B2 n,
    generateSolvedSudokuGrid deadEndBoard zeroRng = Some (ok, B1, g') ∧
    countSolutions deadEndBoard = Some (B2, n) ∧
    (ok = true ↔ n ≠ 0).
Proof.
  apply (generator_agrees_with_counter deadEndBoard zeroRng).
  - apply (bool_decide_unpack _). vm_compute. exact I.
  - apply (bool_decide_unpack _). vm_compute. exact I.
  - apply (bool_decide_unpack _). vm_compute. exact I.
Defined.
